(** * netscout: a verification development for the concurrent TCP port scanner

    The development embeds the Go packages [parser], [result], [worker],
    [scanner] and the exit-code logic of [main] as Rocq definitions and
    proves properties of them.

    Conventions.
    - A Go [int] is a 64-bit signed integer; it is a [Z] here, and every
      operation that can leave the 64-bit range is wrapped by [int_wrap].
    - A Go [string] is a sequence of bytes: a Rocq [string].
    - A Go [error] is a value of an inductive type with one constructor per
      [fmt.Errorf] call site (wrapping with [%w] keeps the wrapped error).
    - A function returning [(T, error)] returns [error + T].
    - Goroutines and channels are modelled by an explicit state and a step
      function indexed by the goroutine that moves. *)

From Stdlib Require Import ZArith Lia List Ascii String Bool.
From stdpp Require Import base tactics option list gmap strings sorting.

Local Open Scope Z_scope.

(** ** Go integers *)

Definition min_int : Z := - 2 ^ 63.
Definition max_int : Z := 2 ^ 63 - 1.

(** Two's-complement wrap-around of a Go [int]. *)
Definition int_wrap (z : Z) : Z := (z + 2 ^ 63) mod 2 ^ 64 - 2 ^ 63.

Definition in_int (z : Z) : Prop := min_int <= z <= max_int.

(** ** The parts of Go's [strings] package that the parser calls *)

Module Strings.

(** [strings.Split(s, sep)] for a one-byte separator. *)
Fixpoint Split (s : string) (sep : ascii) : list string :=
  match s with
  | EmptyString => [EmptyString]
  | String c s' =>
      if Ascii.eqb c sep then EmptyString :: Split s' sep
      else match Split s' sep with
           | [] => [String c EmptyString]
           | p :: ps => String c p :: ps
           end
  end.

(** [strings.Contains(s, sep)] for a one-byte [sep]. *)
Fixpoint Contains (s : string) (sep : ascii) : bool :=
  match s with
  | EmptyString => false
  | String c s' => Ascii.eqb c sep || Contains s' sep
  end.

Definition byte (c : ascii) : Z := Z.of_N (N_of_ascii c).

(** The six ASCII white-space bytes of [unicode.IsSpace]. *)
Definition isAsciiSpace (c : ascii) : bool :=
  let n := byte c in
  ((9 <=? n) && (n <=? 13)) || (n =? 32).

(** UTF-8 encodings of the other white-space runes: U+0085, U+00A0. *)
Definition isSpace2 (a b : ascii) : bool :=
  (byte a =? 194) && ((byte b =? 133) || (byte b =? 160)).

(** U+1680, U+2000..U+200A, U+2028, U+2029, U+202F, U+205F, U+3000. *)
Definition isSpace3 (a b c : ascii) : bool :=
  ((byte a =? 225) && (byte b =? 154) && (byte c =? 128))
  || ((byte a =? 226) && (byte b =? 128)
      && (((128 <=? byte c) && (byte c <=? 138))
          || (byte c =? 168) || (byte c =? 169) || (byte c =? 175)))
  || ((byte a =? 226) && (byte b =? 129) && (byte c =? 159))
  || ((byte a =? 227) && (byte b =? 128) && (byte c =? 128)).

(** Drop the leading white-space runes. *)
Fixpoint TrimLeft (s : string) : string :=
  match s with
  | EmptyString => EmptyString
  | String a r =>
      if isAsciiSpace a then TrimLeft r
      else match r with
           | EmptyString => s
           | String b r2 =>
               if isSpace2 a b then TrimLeft r2
               else match r2 with
                    | EmptyString => s
                    | String c r3 => if isSpace3 a b c then TrimLeft r3 else s
                    end
           end
  end.

(** The same on the reversed string: it drops trailing runes, whose bytes
    come last byte first. *)
Fixpoint TrimLeftRev (s : string) : string :=
  match s with
  | EmptyString => EmptyString
  | String a r =>
      if isAsciiSpace a then TrimLeftRev r
      else match r with
           | EmptyString => s
           | String b r2 =>
               if isSpace2 b a then TrimLeftRev r2
               else match r2 with
                    | EmptyString => s
                    | String c r3 => if isSpace3 c b a then TrimLeftRev r3 else s
                    end
           end
  end.

(** [strings.TrimSpace]: all leading and trailing white space removed. *)
Definition TrimSpace (s : string) : string :=
  String.rev (TrimLeftRev (String.rev (TrimLeft s))).

End Strings.

(** ** [strconv.Atoi] *)

Module Strconv.

Definition digit (c : ascii) : option Z :=
  let n := Strings.byte c in
  if (48 <=? n) && (n <=? 57) then Some (n - 48) else None.

Fixpoint digits (s : string) (acc : Z) : option Z :=
  match s with
  | EmptyString => Some acc
  | String c r =>
      match digit c with
      | Some d => digits r (acc * 10 + d)
      | None => None
      end
  end.

(** [Atoi] accepts an optional sign followed by at least one decimal digit
    and a value in the range of [int]; every other input is an error
    ([None]: the callers only test [err != nil]). *)
Definition Atoi (s : string) : option Z :=
  match s with
  | EmptyString => None
  | String c r =>
      let neg := Ascii.eqb c "-"%char in
      let body := if neg || Ascii.eqb c "+"%char then r else s in
      match body with
      | EmptyString => None
      | _ =>
          match digits body 0 with
          | None => None
          | Some n =>
              let v := if neg then - n else n in
              if (min_int <=? v) && (v <=? max_int) then Some v else None
          end
      end
  end.

End Strconv.

(** ** The parts of Go's [net] package that the parser calls

    An [IP] and an [IPMask] are byte slices: lists of bytes, each a [Z] in
    0..255. A nil slice is the empty list. *)

Module Net.

Definition IP : Type := list Z.
Definition IPMask : Type := list Z.

Definition v4InV6Prefix : list Z := [0; 0; 0; 0; 0; 0; 0; 0; 0; 0; 255; 255].

(** The loop of [CIDRMask]: [l] bytes are left to fill, [n] ones are left. *)
Fixpoint CIDRMask_loop (l : nat) (n : Z) : IPMask :=
  match l with
  | O => []
  | S l' =>
      if n >=? 8 then 255 :: CIDRMask_loop l' (n - 8)
      else Z.lxor 255 (Z.shiftr 255 n) :: CIDRMask_loop l' 0
  end.

(** [CIDRMask(ones, bits)]; [None] is the nil mask. *)
Definition CIDRMask (ones bits : Z) : option IPMask :=
  if negb (bits =? 32) && negb (bits =? 128) then None
  else if (ones <? 0) || (ones >? bits) then None
  else Some (CIDRMask_loop (Z.to_nat (bits / 8)) ones).

Definition allFF (b : list Z) : bool := forallb (fun c => c =? 255) b.

Definition isZeros (b : list Z) : bool := forallb (fun c => c =? 0) b.

Definition bytes_eqb (a b : list Z) : bool :=
  (length a =? length b)%nat && forallb (fun p => fst p =? snd p) (zip a b).

(** [ip.To4()]; [None] is nil. *)
Definition To4 (ip : IP) : option IP :=
  if (length ip =? 4)%nat then Some ip
  else if (length ip =? 16)%nat && isZeros (take 10 ip)
          && (nth 10 ip 0 =? 255) && (nth 11 ip 0 =? 255)
  then Some (drop 12 ip)
  else None.

(** [ip.Mask(mask)] *)
Definition Mask (ip : IP) (mask : IPMask) : IP :=
  let mask :=
    if (length mask =? 16)%nat && (length ip =? 4)%nat && allFF (take 12 mask)
    then drop 12 mask else mask in
  let ip :=
    if (length mask =? 4)%nat && (length ip =? 16)%nat
       && bytes_eqb (take 12 ip) v4InV6Prefix
    then drop 12 ip else ip in
  if negb (length ip =? length mask)%nat then []
  else zip_with Z.land ip mask.

(** [type IPNet struct]; its fields [IP] and [Mask]. *)
Record IPNet : Type := mkIPNet {
  NetIP : IP;
  NetMask : IPMask
}.

Definition networkNumberAndMask (n : IPNet) : IP * IPMask :=
  let ip4 := To4 (NetIP n) in
  let ip := match ip4 with Some x => x | None => NetIP n end in
  if (match ip4 with None => negb (length ip =? 16)%nat | Some _ => false end)
  then ([], [])
  else
    let m := NetMask n in
    if (length m =? 4)%nat then
      if negb (length ip =? 4)%nat then ([], []) else (ip, m)
    else if (length m =? 16)%nat then
      if (length ip =? 4)%nat then (ip, drop 12 m) else (ip, m)
    else ([], []).

(** The comparison loop of [Contains], over the bytes of the three slices. *)
Fixpoint Contains_loop (nn m ip : list Z) : bool :=
  match nn, m, ip with
  | n0 :: nn', m0 :: m', i0 :: ip' =>
      if Z.land n0 m0 =? Z.land i0 m0 then Contains_loop nn' m' ip' else false
  | _, _, _ => true
  end.

(** [n.Contains(ip)] *)
Definition Contains (n : IPNet) (ip : IP) : bool :=
  let '(nn, m) := networkNumberAndMask n in
  let ip := match To4 ip with Some x => x | None => ip end in
  if negb (length ip =? length nn)%nat then false
  else Contains_loop nn m ip.

(** The address that [net.ParseCIDR] reads before the slash: an IPv4
    address of 4 bytes or an IPv6 address of 16 bytes. *)
Inductive Addr : Type :=
| Addr4 (b : list Z)
| Addr6 (b : list Z).

Definition BitLen (a : Addr) : Z :=
  match a with Addr4 _ => 32 | Addr6 _ => 128 end.

Definition As16 (a : Addr) : IP :=
  match a with Addr4 b => v4InV6Prefix ++ b | Addr6 b => b end.

(** What [net.ParseCIDR] returns for a text that reads as the address [a],
    a slash and the prefix length [n]: the address and the network, or an
    error ([None]) when the prefix length is out of range. *)
Definition ParseCIDR (a : Addr) (n : Z) : option (IP * IPNet) :=
  if (n <? 0) || (n >? BitLen a) then None
  else match CIDRMask n (BitLen a) with
       | Some m => Some (As16 a, mkIPNet (Mask (As16 a) m) m)
       | None => None
       end.

(** A byte, and a well-formed byte slice of length [len]. *)
Definition byte_range (c : Z) : Prop := 0 <= c < 256.

Definition bytes (len : nat) (b : list Z) : Prop :=
  length b = len /\ Forall byte_range b.

(** The number that a byte slice denotes, most significant byte first. *)
Definition value (b : list Z) : Z :=
  fold_left (fun acc c => acc * 256 + c) b 0.

(** The check, for one prefix length, that the IPv4 mask has its [n] high
    bits set and the others clear. *)
Definition mask_check (n : Z) : bool :=
  let m := CIDRMask_loop 4 n in
  (value m =? Z.ldiff (Z.ones 32) (Z.ones (32 - n)))
  && (length m =? 4)%nat
  && forallb (fun c => (0 <=? c) && (c <? 256)) m.

(** The block of an IPv4 address [ip4] under a prefix of [n] bits: its
    size and the number of its first address. *)
Definition block_size (n : Z) : Z := 2 ^ (32 - n).
Definition block_base (ip4 : IP) (n : Z) : Z :=
  value ip4 / block_size n * block_size n.

End Net.

(** ** Package [parser] *)

Module Parser.

Inductive error : Type :=
| ErrInvalidPort (part : string)
    (* "invalid port: %s" *)
| ErrPortOutOfRange (port : Z)
    (* "port %d out of valid range (1-65535)" *)
| ErrInvalidPortRange (rangeSpec : string)
    (* "invalid port range: %s" *)
| ErrInvalidStart (rangeSpec : string)
    (* "invalid start port in range %s: %w" *)
| ErrInvalidEnd (rangeSpec : string)
    (* "invalid end port in range %s: %w" *)
| ErrStartPort (e : error)
    (* "start port: %w" *)
| ErrEndPort (e : error)
    (* "end port: %w" *)
| ErrStartGreater (start end_ : Z)
    (* "start port %d is greater than end port %d" *)
| ErrRangeTooLarge (n : Z)
    (* "port range too large: %d ports" *)
| ErrNoValidPorts.
    (* "no valid ports found" *)

(** [validatePort] returns [nil] ([None]) or an error. *)
Definition validatePort (port : Z) : option error :=
  if (port <? 1) || (port >? 65535) then Some (ErrPortOutOfRange port)
  else None.

(** The loop [for p := start; p <= end; p++ { ports = append(ports, p) }];
    [fuel] bounds the number of iterations. *)
Fixpoint range_loop (fuel : nat) (p end_ : Z) (ports : list Z) : list Z :=
  match fuel with
  | O => ports
  | S fuel' =>
      if p <=? end_ then range_loop fuel' (int_wrap (p + 1)) end_ (ports ++ [p])
      else ports
  end.

Definition parsePortRange (rangeSpec : string) : error + list Z :=
  match Strings.Split rangeSpec "-"%char with
  | [p0; p1] =>
      match Strconv.Atoi (Strings.TrimSpace p0) with
      | None => inl (ErrInvalidStart rangeSpec)
      | Some start =>
          match Strconv.Atoi (Strings.TrimSpace p1) with
          | None => inl (ErrInvalidEnd rangeSpec)
          | Some end_ =>
              match validatePort start with
              | Some e => inl (ErrStartPort e)
              | None =>
                  match validatePort end_ with
                  | Some e => inl (ErrEndPort e)
                  | None =>
                      if start >? end_ then inl (ErrStartGreater start end_)
                      else if int_wrap (end_ - start) >? 65535
                      then inl (ErrRangeTooLarge (int_wrap (int_wrap (end_ - start) + 1)))
                      else inr (range_loop (Z.to_nat (end_ - start + 1)) start end_ [])
                  end
              end
          end
      end
  | _ => inl (ErrInvalidPortRange rangeSpec)
  end.

(** [incrementIP], on the bytes from the last to the first: add one to the
    byte (a [uint8]: it wraps at 256) and stop unless it became 0. *)
Fixpoint incrementIP_from_last (rev_ip : list Z) : list Z :=
  match rev_ip with
  | [] => []
  | b :: rest =>
      let b' := (b + 1) mod 256 in
      if b' >? 0 then b' :: rest else b' :: incrementIP_from_last rest
  end.

Definition incrementIP (ip : Net.IP) : Net.IP :=
  rev (incrementIP_from_last (rev ip)).

(** The loop [for ip := ip.Mask(ipNet.Mask); ipNet.Contains(ip);
    incrementIP(ip) { ips = append(ips, ip.String()) }]. Each address is
    kept as its bytes: [ip.String()] is the text of those bytes. [None]:
    the loop has not ended within [fuel] iterations. *)
Fixpoint parseCIDR_loop (fuel : nat) (ipNet : Net.IPNet) (ip : Net.IP)
  (ips : list Net.IP) : option (list Net.IP) :=
  match fuel with
  | O => None
  | S fuel' =>
      if Net.Contains ipNet ip
      then parseCIDR_loop fuel' ipNet (incrementIP ip) (ips ++ [ip])
      else Some ips
  end.

(** [ips[1 : len(ips)-1]] *)
Definition strip_ends (ips : list Net.IP) : list Net.IP :=
  take (length ips - 2) (drop 1 ips).

(** [parseCIDR], given what [net.ParseCIDR(cidr)] returned. The result is
    [None] when the loop does not end within [fuel] iterations, else the
    error of [net.ParseCIDR] ([inl tt]) or the addresses. *)
Definition parseCIDR (fuel : nat) (parsed : option (Net.IP * Net.IPNet))
  : option (unit + list Net.IP) :=
  match parsed with
  | None => Some (inl tt)
  | Some (ip, ipNet) =>
      match parseCIDR_loop fuel ipNet (Net.Mask ip (Net.NetMask ipNet)) [] with
      | None => None
      | Some ips =>
          if (2 <? length ips)%nat then Some (inr (strip_ends ips))
          else Some (inr ips)
      end
  end.

(** [seen[p]] on a [map[int]bool]: a missing key reads as [false]. *)
Definition seen_get (seen : gmap Z bool) (p : Z) : bool :=
  default false (seen !! p).

(** [if !seen[p] { ports = append(ports, p); seen[p] = true }] *)
Definition add_port (st : list Z * gmap Z bool) (p : Z) : list Z * gmap Z bool :=
  let '(ports, seen) := st in
  if seen_get seen p then st else (ports ++ [p], <[p := true]> seen).

(** The loop over [parts] of [ParsePorts]. *)
Fixpoint ParsePorts_loop (parts : list string) (st : list Z * gmap Z bool)
  : error + (list Z * gmap Z bool) :=
  match parts with
  | [] => inr st
  | part0 :: rest =>
      let part := Strings.TrimSpace part0 in
      if String.eqb part "" then ParsePorts_loop rest st
      else if Strings.Contains part "-"%char then
        match parsePortRange part with
        | inl err => inl err
        | inr rangePorts => ParsePorts_loop rest (fold_left add_port rangePorts st)
        end
      else
        match Strconv.Atoi part with
        | None => inl (ErrInvalidPort part)
        | Some port =>
            match validatePort port with
            | Some err => inl err
            | None => ParsePorts_loop rest (add_port st port)
            end
        end
  end.

Definition ParsePorts (portSpec : string) : error + list Z :=
  match ParsePorts_loop (Strings.Split portSpec ","%char) ([], ∅) with
  | inl err => inl err
  | inr (ports, _) =>
      if (Z.of_nat (length ports) =? 0) then inl ErrNoValidPorts else inr ports
  end.

(** What one token of the specification amounts to on its own: [None] for
    a blank token (skipped), otherwise the error or the ports it denotes. *)
Definition token_result (part0 : string) : option (error + list Z) :=
  let part := Strings.TrimSpace part0 in
  if String.eqb part "" then None
  else if Strings.Contains part "-"%char then Some (parsePortRange part)
  else match Strconv.Atoi part with
       | None => Some (inl (ErrInvalidPort part))
       | Some port =>
           match validatePort port with
           | Some err => Some (inl err)
           | None => Some (inr [port])
           end
       end.

Definition token_valid (part0 : string) : Prop :=
  match token_result part0 with
  | Some (inl _) => False
  | _ => True
  end.

(** The spec's error classes: [RangeTooLarge] is the size check of
    [parsePortRange]; every other token error is an [InvalidPort]. *)
Fixpoint is_RangeTooLarge (e : error) : bool :=
  match e with
  | ErrRangeTooLarge _ => true
  | ErrStartPort e' | ErrEndPort e' => is_RangeTooLarge e'
  | _ => false
  end.

Definition is_InvalidPort (e : error) : bool :=
  match e with
  | ErrNoValidPorts => false
  | _ => negb (is_RangeTooLarge e)
  end.

End Parser.

(** ** Channels and goroutine steps

    A buffered Go channel: the queued values (oldest first), the capacity and
    the closed flag. Every channel of the program is created with a positive
    capacity. *)

Record chan (A : Type) : Type := mkChan {
  buf : list A;
  cap : nat;
  closed : bool
}.
Arguments mkChan {A} _ _ _.
Arguments buf {A} _.
Arguments cap {A} _.
Arguments closed {A} _.

Definition make_chan {A : Type} (n : nat) : chan A := mkChan [] n false.

(** What one step of a goroutine does: it goes on to a next state, it cannot
    move yet (a full or empty channel, a condition it waits for), or it
    panics, which ends the process. *)
Inductive outcome (S : Type) : Type :=
| Next (s : S)
| Blocked
| Panic.
Arguments Next {S} _.
Arguments Blocked {S}.
Arguments Panic {S}.

Inductive recv_result (A : Type) : Type :=
| RecvOk (x : A) (c : chan A)
| RecvClosed               (* closed and drained: [range] ends, [ok] is false *)
| RecvBlocked.
Arguments RecvOk {A} _ _.
Arguments RecvClosed {A}.
Arguments RecvBlocked {A}.

(** [c <- x]: a send on a closed channel panics. *)
Definition chan_send {A : Type} (c : chan A) (x : A) : outcome (chan A) :=
  if closed c then Panic
  else if (length (buf c) <? cap c)%nat then Next (mkChan (buf c ++ [x]) (cap c) false)
  else Blocked.

Definition chan_recv {A : Type} (c : chan A) : recv_result A :=
  match buf c with
  | x :: rest => RecvOk x (mkChan rest (cap c) (closed c))
  | [] => if closed c then RecvClosed else RecvBlocked
  end.

(** [close(c)]: closing a closed channel panics. *)
Definition chan_close {A : Type} (c : chan A) : outcome (chan A) :=
  if closed c then Panic else Next (mkChan (buf c) (cap c) true).

(** ** Package [result] *)

Module Result.

(** [type Status string] with its four constants. *)
Definition Status : Type := string.
Definition StatusOpen : Status := "open".
Definition StatusClosed : Status := "closed".
Definition StatusFiltered : Status := "filtered".
Definition StatusError : Status := "error".

(** [type Result struct]. Times are nanoseconds as read from the clock.
    The field [Status] is [RStatus] here, next to the type of that name. *)
Record Result : Type := mkResult {
  IP : string;
  Port : Z;
  RStatus : Status;
  Timestamp : Z;
  Duration : Z;
  Error : string
}.

(** [type Summary struct]; its [Duration] field is [TotalDuration]. *)
Record Summary : Type := mkSummary {
  TotalScanned : Z;
  OpenPorts : Z;
  ClosedPorts : Z;
  Filtered : Z;
  Errors : Z;
  TotalDuration : Z;
  StartTime : Z;
  EndTime : Z
}.

(** [x++] on an [int]. *)
Definition incr (x : Z) : Z := int_wrap (x + 1).

(** [t.Sub(u)] on two clock readings: the difference, kept within the range
    of a [time.Duration]. *)
Definition time_Sub (t u : Z) : Z := Z.max min_int (Z.min max_int (t - u)).

(** [Collector.updateSummary]: the switch has no default case. *)
Definition updateSummary (s : Summary) (r : Result) : Summary :=
  let total := incr (TotalScanned s) in
  if String.eqb (RStatus r) StatusOpen then
    mkSummary total (incr (OpenPorts s)) (ClosedPorts s) (Filtered s) (Errors s)
      (TotalDuration s) (StartTime s) (EndTime s)
  else if String.eqb (RStatus r) StatusClosed then
    mkSummary total (OpenPorts s) (incr (ClosedPorts s)) (Filtered s) (Errors s)
      (TotalDuration s) (StartTime s) (EndTime s)
  else if String.eqb (RStatus r) StatusFiltered then
    mkSummary total (OpenPorts s) (ClosedPorts s) (incr (Filtered s)) (Errors s)
      (TotalDuration s) (StartTime s) (EndTime s)
  else if String.eqb (RStatus r) StatusError then
    mkSummary total (OpenPorts s) (ClosedPorts s) (Filtered s) (incr (Errors s))
      (TotalDuration s) (StartTime s) (EndTime s)
  else
    mkSummary total (OpenPorts s) (ClosedPorts s) (Filtered s) (Errors s)
      (TotalDuration s) (StartTime s) (EndTime s).

(** The state of the goroutine running [Collector.collect]. *)
Inductive collect_pc : Type :=
| CollectRecv                 (* at [for r := range c.resultChan] *)
| CollectFold (r : Result)    (* has received [r], about to lock and fold it *)
| CollectDone.                (* the range ended and [doneChan] is closed *)

(** [type Collector struct]. The mutex is implicit: every step below that
    touches [results] or [summary] is one critical section. The writer is
    left out: what is printed is not part of this development, only
    whether writing fails (an input of [WriteResults]). *)
Record Collector : Type := mkCollector {
  results : list Result;
  summary : Summary;
  resultChan : chan Result;
  collect : collect_pc;
  format : string;
  verbose : bool
}.

(** [doneChan] is closed exactly when [collect] has returned. *)
Definition doneChan_closed (c : Collector) : bool :=
  match collect c with CollectDone => true | _ => false end.

(** [NewCollector]; [now] is the clock reading for [StartTime]. *)
Definition NewCollector (format : string) (verbose : bool) (now : Z) : Collector :=
  mkCollector [] (mkSummary 0 0 0 0 0 0 now 0) (make_chan 1000) CollectRecv
    format verbose.

Definition with_chan (c : Collector) (ch : chan Result) : Collector :=
  mkCollector (results c) (summary c) ch (collect c) (format c) (verbose c).

Definition with_collect (c : Collector) (pc : collect_pc) : Collector :=
  mkCollector (results c) (summary c) (resultChan c) pc (format c) (verbose c).

(** [Collector.Submit]: one channel send. *)
Definition Submit (c : Collector) (r : Result) : outcome Collector :=
  match chan_send (resultChan c) r with
  | Next ch => Next (with_chan c ch)
  | Blocked => Blocked
  | Panic => Panic
  end.

(** One step of the goroutine [Collector.collect]: receive the next result
    (or see the channel closed and close [doneChan]), or fold the result in
    hand under the mutex. *)
Definition collect_step (c : Collector) : outcome Collector :=
  match collect c with
  | CollectRecv =>
      match chan_recv (resultChan c) with
      | RecvOk r ch => Next (with_collect (with_chan c ch) (CollectFold r))
      | RecvClosed => Next (with_collect c CollectDone)
      | RecvBlocked => Blocked
      end
  | CollectFold r =>
      Next (mkCollector (results c ++ [r]) (updateSummary (summary c) r)
              (resultChan c) CollectRecv (format c) (verbose c))
  | CollectDone => Blocked
  end.

(** [Collector.Close], first statement: [close(c.resultChan)]. *)
Definition Close_channel (c : Collector) : outcome Collector :=
  match chan_close (resultChan c) with
  | Next ch => Next (with_chan c ch)
  | Blocked => Blocked
  | Panic => Panic
  end.

(** [Collector.Close], the rest: [<-c.doneChan], then the end time and the
    duration are recorded; [now] is the clock reading. *)
Definition Close_wait (c : Collector) (now : Z) : outcome Collector :=
  if doneChan_closed c then
    let s := summary c in
    Next (mkCollector (results c)
            (mkSummary (TotalScanned s) (OpenPorts s) (ClosedPorts s) (Filtered s)
               (Errors s) (time_Sub now (StartTime s)) (StartTime s) now)
            (resultChan c) (collect c) (format c) (verbose c))
  else Blocked.

(** [Collector.GetSummary]: a copy of the summary, taken under the mutex. *)
Definition GetSummary (c : Collector) : Summary := summary c.

(** [Collector.GetResults]: a copy of the results slice, in its order. *)
Definition GetResults (c : Collector) : list Result := results c.

(** The [less] function that [WriteResults] gives to [sort.Slice]:
    by IP (byte-wise string order), then by port. *)
Definition less (a b : Result) : bool :=
  if negb (String.eqb (IP a) (IP b)) then String.ltb (IP a) (IP b)
  else Port a <? Port b.

(** Ascending order of the keys (IP, Port): [b] does not come before [a]. *)
Definition key_le (a b : Result) : Prop := less b a = false.

#[global] Instance key_le_dec : RelDecision key_le :=
  fun a b => decide (less b a = false).

(** [sort.Slice(c.results, less)]. Go documents it as a sort that is not
    guaranteed to be stable; it is a (stable) merge sort here, and nothing
    below depends on the order it gives to results with equal keys. *)
Definition sortSlice (rs : list Result) : list Result :=
  merge_sort key_le rs.

Inductive write_error : Type :=
| ErrUnsupportedFormat (format : string)   (* "unsupported format: %s" *)
| ErrWriter (msg : string).                (* an error of the encoder or writer *)

(** [Collector.WriteResults]: the results are sorted in place, then written
    in the format. [writer_err] is the error, if any, that the JSON encoder
    or the CSV writer reports; [writeText] ignores the errors of its writes
    and returns [nil]. *)
Definition write_status (format : string) (writer_err : option string)
  : option write_error :=
  if String.eqb format "json" then option_map ErrWriter writer_err
  else if String.eqb format "csv" then option_map ErrWriter writer_err
  else if String.eqb format "text" then None
  else Some (ErrUnsupportedFormat format).

Definition WriteResults (c : Collector) (writer_err : option string)
  : Collector * option write_error :=
  (mkCollector (sortSlice (results c)) (summary c) (resultChan c)
     (collect c) (format c) (verbose c),
   write_status (format c) writer_err).

(** [less] is the strict lexicographic order of the keys (IP, Port). *)
Definition key_compare (a b : Result) : comparison :=
  match String.compare (IP a) (IP b) with
  | Eq => Z.compare (Port a) (Port b)
  | c => c
  end.

Definition counters (s : Summary) : Z :=
  OpenPorts s + ClosedPorts s + Filtered s + Errors s.

(** The statuses of the data model: one of the four constants. *)
Definition known_status (st : Status) : Prop :=
  st = StatusOpen \/ st = StatusClosed \/ st = StatusFiltered \/ st = StatusError.

End Result.

(** ** The aggregator under concurrent submitters

    A driver around one [Collector]: submitter [i] calls [Submit] for each
    outcome of its list in turn, the goroutine [collect] runs, and one caller
    invokes [Close]. An interleaving is a list of labels saying which of
    them moves next. *)

Module Aggregator.
Import Result.

Inductive close_pc : Type :=
| CloseNotCalled
| CloseWaiting       (* [close(c.resultChan)] done, at [<-c.doneChan] *)
| CloseReturned.

Record driver : Type := mkDriver {
  coll : Collector;
  pending : list (list Result);   (* what each submitter has yet to submit *)
  closer : close_pc
}.

Inductive label : Type :=
| LSubmit (i : nat)     (* submitter [i] performs its next [Submit] *)
| LCollect              (* the goroutine [collect] moves *)
| LClose (now : Z).     (* the caller of [Close] moves; [now] is the clock *)

Definition init (subs : list (list Result)) (fmt : string) (verb : bool) (now : Z)
  : driver :=
  mkDriver (NewCollector fmt verb now) subs CloseNotCalled.

Definition step (l : label) (h : driver) : outcome driver :=
  match l with
  | LSubmit i =>
      match pending h !! i with
      | Some (r :: rest) =>
          match Submit (coll h) r with
          | Next c => Next (mkDriver c (<[i := rest]> (pending h)) (closer h))
          | Blocked => Blocked
          | Panic => Panic
          end
      | _ => Blocked
      end
  | LCollect =>
      match collect_step (coll h) with
      | Next c => Next (mkDriver c (pending h) (closer h))
      | Blocked => Blocked
      | Panic => Panic
      end
  | LClose now =>
      match closer h with
      | CloseNotCalled =>
          match Close_channel (coll h) with
          | Next c => Next (mkDriver c (pending h) CloseWaiting)
          | Blocked => Blocked
          | Panic => Panic
          end
      | CloseWaiting =>
          match Close_wait (coll h) now with
          | Next c => Next (mkDriver c (pending h) CloseReturned)
          | Blocked => Blocked
          | Panic => Panic
          end
      | CloseReturned => Blocked
      end
  end.

(** Run an interleaving; the result is [Next] only when every step of it
    could be taken. *)
Fixpoint run (sched : list label) (h : driver) : outcome driver :=
  match sched with
  | [] => Next h
  | l :: sched' =>
      match step l h with
      | Next h' => run sched' h'
      | Blocked => Blocked
      | Panic => Panic
      end
  end.

(** The number of [Submit] calls of an interleaving. *)
Fixpoint submissions (sched : list label) : nat :=
  match sched with
  | [] => O
  | LSubmit _ :: sched' => S (submissions sched')
  | _ :: sched' => submissions sched'
  end.

(** Outcomes handed to the collector and not folded yet. *)
Definition in_flight (c : Collector) : list Result :=
  match collect c with
  | CollectFold r => r :: buf (resultChan c)
  | _ => buf (resultChan c)
  end.

(** Vocabulary of the accounting invariant. *)

Fixpoint count_status (st : Status) (rs : list Result) : nat :=
  match rs with
  | [] => O
  | r :: rs' => ((if String.eqb (RStatus r) st then 1 else 0) + count_status st rs')%nat
  end.

(** The summary is the fold of [rs]: each counter is the (wrapped) number of
    results it counts. *)
Definition folded (rs : list Result) (s : Summary) : Prop :=
  TotalScanned s = int_wrap (Z.of_nat (length rs))
  /\ OpenPorts s = int_wrap (Z.of_nat (count_status StatusOpen rs))
  /\ ClosedPorts s = int_wrap (Z.of_nat (count_status StatusClosed rs))
  /\ Filtered s = int_wrap (Z.of_nat (count_status StatusFiltered rs))
  /\ Errors s = int_wrap (Z.of_nat (count_status StatusError rs)).

Definition known (r : Result) : Prop := known_status (RStatus r).

(** A summary whose counters are non-negative and add up to its total. *)
Definition balanced (s : Summary) : Prop :=
  0 <= OpenPorts s /\ 0 <= ClosedPorts s /\ 0 <= Filtered s /\ 0 <= Errors s
  /\ counters s = TotalScanned s.

Definition collector_inv (c : Collector) : Prop :=
  folded (results c) (summary c)
  /\ (collect c = CollectDone -> buf (resultChan c) = [] /\ closed (resultChan c) = true).

Definition inv (h : driver) : Prop :=
  collector_inv (coll h)
  /\ (closer h = CloseReturned -> collect (coll h) = CollectDone).

Definition all_known (h : driver) : Prop :=
  Forall known (results (coll h))
  /\ Forall known (in_flight (coll h))
  /\ Forall (Forall known) (pending h).

Definition accounted (c : Collector) : nat :=
  (length (results c) + length (in_flight c))%nat.

End Aggregator.

(** ** Package [worker] *)

Module Worker.

(** [type Task struct] *)
Record Task : Type := mkTask {
  IP : string;
  Port : Z
}.

(** The error value returned by [net.DialTimeout], as far as [scan] looks at
    it: whether it implements [net.Error], what its [Timeout()] says, and its
    text. *)
Record dial_error : Type := mkDialError {
  is_net_Error : bool;
  Timeout : bool;
  Error_text : string
}.

Inductive dial_result : Type :=
| DialOk                       (* a connection, [err == nil] *)
| DialErr (err : dial_error).

(** What the network and the clock answer for a task: the result of
    [net.DialTimeout], the reading of [time.Now()] at the start and of
    [time.Since(startTime)] after the dial. *)
Record probe_env : Type := mkProbeEnv {
  dial : Task -> dial_result;
  start_time : Task -> Z;
  since_start : Task -> Z
}.

(** The [Result] that [Worker.scan] builds for a task. *)
Definition scan_result (env : probe_env) (task : Task) : Result.Result :=
  match dial env task with
  | DialErr err =>
      Result.mkResult (IP task) (Port task)
        (if is_net_Error err && Timeout err then Result.StatusFiltered
         else Result.StatusClosed)
        (start_time env task) (since_start env task) (Error_text err)
  | DialOk =>
      Result.mkResult (IP task) (Port task) Result.StatusOpen
        (start_time env task) (since_start env task) ""
  end.

(** [Worker.scan]: build the result, then [w.resultChan <- r]. *)
Definition scan (env : probe_env) (resultChan : chan Result.Result) (task : Task)
  : outcome (chan Result.Result) :=
  chan_send resultChan (scan_result env task).

(** Where the goroutine of [Worker.Start] is. *)
Inductive worker_pc : Type :=
| WSelect                       (* at the [select] of the loop *)
| WDial (task : Task)           (* in [scan], the dial is under way *)
| WSend (r : Result.Result)     (* in [scan], at [w.resultChan <- r] *)
| WReturned.

(** [NewPool]: the capacity of the task channel. *)
Definition bufferSize (size : Z) : Z :=
  let b := int_wrap (size * 10) in
  if b >? 10000 then 10000 else b.

End Worker.

(** ** Package [scanner] *)

Module Scanner.
Import Worker.

(** [config.Config], the fields the scanner reads. *)
Record Config : Type := mkConfig {
  Workers : Z;
  RateLimit : Z;
  OutputFormat : string;
  Verbose : bool
}.

(** [time.Second], in nanoseconds. *)
Definition Second : Z := 1000000000.

(** [interval := time.Second / time.Duration(cfg.RateLimit)]: the division
    of two [int64] truncates. *)
Definition interval (RateLimit : Z) : Z := Z.quot Second RateLimit.

(** [time.NewTicker(d)] panics unless [d] is positive. *)
Definition NewTicker (d : Z) : outcome Z :=
  if d <=? 0 then Panic else Next d.

(** The rate limiter that [New] creates: [nil] ([None]) without a rate
    limit, else a ticker of the computed interval. *)
Definition New_rateLimiter (RateLimit : Z) : outcome (option Z) :=
  if RateLimit >? 0 then
    match NewTicker (interval RateLimit) with
    | Next d => Next (Some d)
    | Blocked => Blocked
    | Panic => Panic
    end
  else Next None.

Inductive scan_error : Type :=
| Canceled                                       (* [context.Canceled] *)
| ErrWriteResults (e : Result.write_error).      (* "failed to write results: %w" *)

(** The tasks in the order of the two nested loops of [generateTasks]. *)
Definition all_tasks (targets : list string) (ports : list Z) : list Task :=
  flat_map (fun target => map (fun port => mkTask target port) ports) targets.

(** Where [Scan] is. In [generateTasks] the remaining tasks are kept, the
    first of them being the one of the current iteration. From
    [OPoolClose] on, [err] is what [generateTasks] returned. *)
Inductive orch_pc : Type :=
| OStart
| OGenCheck (ts : list Task)      (* at the first [select], with [default] *)
| OGenLimiter (ts : list Task)    (* at the [select] on the rate limiter *)
| OGenSubmit (ts : list Task)     (* in [Pool.Submit], at its [select] *)
| OPoolClose (err : option scan_error)
| OWaitProgress (err : option scan_error)
| OCloseResults (err : option scan_error)
| OCollectorClose (err : option scan_error)
| OCollectorWait (err : option scan_error)
| OWrite (err : option scan_error)
| OReturned (ret : option scan_error).

(** The goroutine [collectResults]. *)
Inductive forward_pc : Type :=
| FNotStarted
| FRecv                           (* at [for r := range s.resultChan] *)
| FSubmit (r : Result.Result)     (* at [s.collector.Submit(r)] *)
| FReturned.

(** The goroutine [reportProgress]. *)
Inductive progress_pc : Type :=
| PNotStarted
| PSelect (lastCount : Z)
| PReturned.

(** What surrounds a scan: the network and clock, the error of the output
    writer if it fails, and the clock reading when the collector closes. *)
Record env : Type := mkEnv {
  probes : probe_env;
  writer_err : option string;
  close_time : Z
}.

(** The state of one [Scan]: the [Scanner] struct with its collector and
    pool, the context, and where each goroutine is. *)
Record session : Type := mkSession {
  config : Config;
  targets : list string;
  ports : list Z;
  rateLimiter : option Z;
  cancelled : bool;                       (* [ctx.Done()] is closed *)
  taskChan : chan Task;                   (* [pool.taskChan] *)
  resultChan : chan Result.Result;        (* [s.resultChan] *)
  collector : Result.Collector;
  workers : list worker_pc;
  forwarder : forward_pc;
  progress : progress_pc;
  orch : orch_pc
}.

(** The scanner that [New] returns, before [Scan] is called; [targets] and
    [ports] are the parsed targets and ports, [now] the clock reading. *)
Definition New (cfg : Config) (targets : list string) (ports : list Z) (now : Z)
  : outcome session :=
  match New_rateLimiter (RateLimit cfg) with
  | Next limiter =>
      Next (mkSession cfg targets ports limiter false
              (make_chan (Z.to_nat (bufferSize (Workers cfg))))
              (make_chan 1000)
              (Result.NewCollector (OutputFormat cfg) (Verbose cfg) now)
              [] FNotStarted PNotStarted OStart)
  | Blocked => Blocked
  | Panic => Panic
  end.

Definition set_orch (s : session) (pc : orch_pc) : session :=
  mkSession (config s) (targets s) (ports s) (rateLimiter s) (cancelled s)
    (taskChan s) (resultChan s) (collector s) (workers s) (forwarder s)
    (progress s) pc.

Definition set_taskChan (s : session) (ch : chan Task) : session :=
  mkSession (config s) (targets s) (ports s) (rateLimiter s) (cancelled s)
    ch (resultChan s) (collector s) (workers s) (forwarder s) (progress s) (orch s).

Definition set_resultChan (s : session) (ch : chan Result.Result) : session :=
  mkSession (config s) (targets s) (ports s) (rateLimiter s) (cancelled s)
    (taskChan s) ch (collector s) (workers s) (forwarder s) (progress s) (orch s).

Definition set_collector (s : session) (c : Result.Collector) : session :=
  mkSession (config s) (targets s) (ports s) (rateLimiter s) (cancelled s)
    (taskChan s) (resultChan s) c (workers s) (forwarder s) (progress s) (orch s).

Definition set_worker (s : session) (i : nat) (pc : worker_pc) : session :=
  mkSession (config s) (targets s) (ports s) (rateLimiter s) (cancelled s)
    (taskChan s) (resultChan s) (collector s) (<[i := pc]> (workers s))
    (forwarder s) (progress s) (orch s).

Definition set_forwarder (s : session) (pc : forward_pc) : session :=
  mkSession (config s) (targets s) (ports s) (rateLimiter s) (cancelled s)
    (taskChan s) (resultChan s) (collector s) (workers s) pc (progress s) (orch s).

Definition set_progress (s : session) (pc : progress_pc) : session :=
  mkSession (config s) (targets s) (ports s) (rateLimiter s) (cancelled s)
    (taskChan s) (resultChan s) (collector s) (workers s) (forwarder s) pc (orch s).

Definition set_cancelled (s : session) : session :=
  mkSession (config s) (targets s) (ports s) (rateLimiter s) true
    (taskChan s) (resultChan s) (collector s) (workers s) (forwarder s)
    (progress s) (orch s).

(** [totalTasks := len(s.targets) * len(s.ports)] *)
Definition totalTasks (s : session) : Z :=
  int_wrap (Z.of_nat (length (targets s)) * Z.of_nat (length (ports s))).

Definition lift {A : Type} (s : session) (f : session -> A -> session) (o : outcome A)
  : outcome session :=
  match o with
  | Next a => Next (f s a)
  | Blocked => Blocked
  | Panic => Panic
  end.

(** Which goroutine moves, and for a [select] with a [ctx.Done()] case,
    whether it is that case that is taken. When several cases of a [select]
    are ready Go picks one of them at random: both labels are then enabled. *)
Inductive label : Type :=
| LCancel                   (* [cancel()] is called: the context is done *)
| LOrch                     (* [Scan] goes on (not by a [ctx.Done()] case) *)
| LOrchDone                 (* [Scan] takes the [ctx.Done()] case of its [select] *)
| LWorker (i : nat)         (* worker [i] goes on *)
| LWorkerDone (i : nat)     (* worker [i] takes the [ctx.Done()] case *)
| LForward                  (* [collectResults] moves *)
| LCollect                  (* [Collector.collect] moves *)
| LProgress                 (* [reportProgress] handles a tick *)
| LProgressDone.            (* [reportProgress] takes the [ctx.Done()] case *)

(** One step of [Scan] itself (with [generateTasks] and [Pool.Submit]). *)
Definition orch_step (e : env) (s : session) : outcome session :=
  match orch s with
  | OStart =>
      (* [s.pool.Start(ctx)], [go s.collectResults()], and with [Verbose]
         [go s.reportProgress(ctx, &progressWg)] *)
      Next (mkSession (config s) (targets s) (ports s) (rateLimiter s) (cancelled s)
              (taskChan s) (resultChan s) (collector s)
              (replicate (Z.to_nat (Workers (config s))) WSelect)
              FRecv
              (if Verbose (config s) then PSelect 0 else PNotStarted)
              (OGenCheck (all_tasks (targets s) (ports s))))
  | OGenCheck [] => Next (set_orch s (OPoolClose None))
  | OGenCheck (t :: ts) =>
      if cancelled s then Next (set_orch s (OPoolClose (Some Canceled)))
      else match rateLimiter s with
           | Some _ => Next (set_orch s (OGenLimiter (t :: ts)))
           | None => Next (set_orch s (OGenSubmit (t :: ts)))
           end
  | OGenLimiter ts => Next (set_orch s (OGenSubmit ts))     (* a tick *)
  | OGenSubmit [] => Blocked
  | OGenSubmit (t :: ts) =>
      lift s (fun s ch => set_orch (set_taskChan s ch) (OGenCheck ts))
        (chan_send (taskChan s) t)
  | OPoolClose err =>
      (* [s.pool.Close()]: [close(p.taskChan)] and nothing else *)
      lift s (fun s ch =>
                set_orch (set_taskChan s ch)
                  (if Verbose (config s) then OWaitProgress err else OCloseResults err))
        (chan_close (taskChan s))
  | OWaitProgress err =>
      (* [progressWg.Wait()] *)
      match progress s with
      | PReturned => Next (set_orch s (OCloseResults err))
      | _ => Blocked
      end
  | OCloseResults err =>
      lift s (fun s ch => set_orch (set_resultChan s ch) (OCollectorClose err))
        (chan_close (resultChan s))
  | OCollectorClose err =>
      lift s (fun s c => set_orch (set_collector s c) (OCollectorWait err))
        (Result.Close_channel (collector s))
  | OCollectorWait err =>
      lift s (fun s c => set_orch (set_collector s c) (OWrite err))
        (Result.Close_wait (collector s) (close_time e))
  | OWrite err =>
      let '(c, werr) := Result.WriteResults (collector s) (writer_err e) in
      match werr with
      | Some we => Next (set_orch (set_collector s c) (OReturned (Some (ErrWriteResults we))))
      | None => Next (set_orch (set_collector s c) (OReturned err))
      end
  | OReturned _ => Blocked
  end.

(** The [ctx.Done()] cases of [generateTasks] and of [Pool.Submit]. *)
Definition orch_done_step (s : session) : outcome session :=
  if cancelled s then
    match orch s with
    | OGenLimiter _ | OGenSubmit _ => Next (set_orch s (OPoolClose (Some Canceled)))
    | _ => Blocked
    end
  else Blocked.

(** One step of [Worker.Start] for worker [i]. *)
Definition worker_step (e : env) (i : nat) (s : session) : outcome session :=
  match workers s !! i with
  | Some WSelect =>
      match chan_recv (taskChan s) with
      | RecvOk task ch => Next (set_worker (set_taskChan s ch) i (WDial task))
      | RecvClosed => Next (set_worker s i WReturned)
      | RecvBlocked => Blocked
      end
  | Some (WDial task) => Next (set_worker s i (WSend (scan_result (probes e) task)))
  | Some (WSend r) =>
      lift s (fun s ch => set_worker (set_resultChan s ch) i WSelect)
        (chan_send (resultChan s) r)
  | Some WReturned | None => Blocked
  end.

Definition worker_done_step (i : nat) (s : session) : outcome session :=
  match workers s !! i with
  | Some WSelect => if cancelled s then Next (set_worker s i WReturned) else Blocked
  | _ => Blocked
  end.

(** One step of [collectResults]. *)
Definition forward_step (s : session) : outcome session :=
  match forwarder s with
  | FRecv =>
      match chan_recv (resultChan s) with
      | RecvOk r ch => Next (set_forwarder (set_resultChan s ch) (FSubmit r))
      | RecvClosed => Next (set_forwarder s FReturned)
      | RecvBlocked => Blocked
      end
  | FSubmit r =>
      lift s (fun s c => set_forwarder (set_collector s c) FRecv)
        (Result.Submit (collector s) r)
  | FNotStarted | FReturned => Blocked
  end.

(** One tick of [reportProgress]: it reads the summary and returns once the
    count has reached the number of tasks. *)
Definition progress_step (s : session) : outcome session :=
  match progress s with
  | PSelect _ =>
      let currentCount := Result.TotalScanned (Result.GetSummary (collector s)) in
      if currentCount >=? totalTasks s then Next (set_progress s PReturned)
      else Next (set_progress s (PSelect currentCount))
  | _ => Blocked
  end.

Definition progress_done_step (s : session) : outcome session :=
  match progress s with
  | PSelect _ => if cancelled s then Next (set_progress s PReturned) else Blocked
  | _ => Blocked
  end.

Definition step (e : env) (l : label) (s : session) : outcome session :=
  match l with
  | LCancel => Next (set_cancelled s)
  | LOrch => orch_step e s
  | LOrchDone => orch_done_step s
  | LWorker i => worker_step e i s
  | LWorkerDone i => worker_done_step i s
  | LForward => forward_step s
  | LCollect => lift s set_collector (Result.collect_step (collector s))
  | LProgress => progress_step s
  | LProgressDone => progress_done_step s
  end.

Fixpoint run (e : env) (sched : list label) (s : session) : outcome session :=
  match sched with
  | [] => Next s
  | l :: sched' =>
      match step e l s with
      | Next s' => run e sched' s'
      | Blocked => Blocked
      | Panic => Panic
      end
  end.

(** Vocabulary of the session invariants. *)

(** The tasks [generateTasks] has not submitted yet. *)
Definition pending_tasks (pc : orch_pc) : list Task :=
  match pc with
  | OGenCheck ts | OGenLimiter ts | OGenSubmit ts => ts
  | _ => []
  end.

(** [r] is the outcome of the probe of one of the tasks [T]. *)
Definition from_task (e : env) (T : list Task) (r : Result.Result) : Prop :=
  exists t, t ∈ T /\ r = scan_result (probes e) t.

Definition worker_ok (e : env) (T : list Task) (w : worker_pc) : Prop :=
  match w with
  | WDial t => t ∈ T
  | WSend r => from_task e T r
  | _ => True
  end.

Definition forwarder_ok (e : env) (T : list Task) (f : forward_pc) : Prop :=
  match f with
  | FSubmit r => from_task e T r
  | _ => True
  end.

(** Every task and every outcome in the session, wherever it is, is one of
    the scan. *)
Definition provenance (e : env) (T : list Task) (s : session) : Prop :=
  Forall (fun t => t ∈ T) (pending_tasks (orch s))
  /\ Forall (fun t => t ∈ T) (buf (taskChan s))
  /\ Forall (worker_ok e T) (workers s)
  /\ Forall (from_task e T) (buf (resultChan s))
  /\ forwarder_ok e T (forwarder s)
  /\ Forall (from_task e T) (Aggregator.in_flight (collector s))
  /\ Forall (from_task e T) (Result.results (collector s)).

(** [Scan] is past [collector.Close()]. *)
Definition past_close (pc : orch_pc) : bool :=
  match pc with
  | OWrite _ | OReturned _ => true
  | _ => false
  end.

Definition is_returned (pc : orch_pc) : bool :=
  match pc with
  | OReturned _ => true
  | _ => false
  end.

Definition session_inv (e : env) (cfg : Config) (tg : list string) (ps : list Z)
  (s : session) : Prop :=
  config s = cfg /\ targets s = tg /\ ports s = ps
  /\ Result.format (collector s) = OutputFormat cfg
  /\ provenance e (all_tasks tg ps) s
  /\ Aggregator.folded (Result.results (collector s)) (Result.summary (collector s))
  /\ (past_close (orch s) = true -> Result.collect (collector s) = Result.CollectDone)
  /\ (is_returned (orch s) = true -> StronglySorted Result.key_le (Result.results (collector s))).

(** What [Scan] returns once [generateTasks] has returned [err]. *)
Definition final_ret (e : env) (fmt : string) (err : option scan_error)
  : option scan_error :=
  match Result.write_status fmt (writer_err e) with
  | Some we => Some (ErrWriteResults we)
  | None => err
  end.

(** [generateTasks] has returned [err]. *)
Definition decided (e : env) (err : option scan_error) (s : session) : Prop :=
  match orch s with
  | OPoolClose x | OWaitProgress x | OCloseResults x | OCollectorClose x
  | OCollectorWait x | OWrite x => x = err
  | OReturned ret => ret = final_ret e (Result.format (collector s)) err
  | _ => False
  end.

(** [Scanner.GetSummary] and [Scanner.GetResults]. *)
Definition GetSummary (s : session) : Result.Summary := Result.GetSummary (collector s).
Definition GetResults (s : session) : list Result.Result := Result.GetResults (collector s).

End Scanner.

(** ** Package [main]: the exit code *)

Module Main.

(** The exit code after [s.Scan(ctx)] returned [ret]: 130 when the error is
    [context.Canceled] itself, 1 for another error, and 0 at the end of
    [main] otherwise. *)
Definition exit_code (ret : option Scanner.scan_error) : Z :=
  match ret with
  | Some Scanner.Canceled => 130
  | Some _ => 1
  | None => 0
  end.

End Main.

(** ** Statements that the code does not satisfy

    Two statements of the specification, formalised as they are written;
    each is refuted below and then proved in an amended form. *)

Module AsWritten.

(** A probe failing by resource exhaustion, and not by a timeout, yields
    the error status. *)
Definition exhaustion_yields_error_status : Prop :=
  forall (env : Worker.probe_env) (task : Worker.Task) (err : Worker.dial_error),
    Worker.dial env task = Worker.DialErr err -> Worker.Timeout err = false ->
    Result.RStatus (Worker.scan_result env task) = Result.StatusError.

(** The context is cancelled while [generateTasks] still has tasks to
    submit; [Scan] then returns [context.Canceled] and the process exits
    with code 130. *)
Definition cancel_always_reported : Prop :=
  forall e cfg tg ps now s0 sched1 s1 sched2 s2 ret,
    Scanner.New cfg tg ps now = Next s0 ->
    Scanner.run e sched1 s0 = Next s1 ->
    Scanner.pending_tasks (Scanner.orch s1) <> [] ->
    Scanner.run e (Scanner.LCancel :: sched2) s1 = Next s2 ->
    Scanner.orch s2 = Scanner.OReturned ret ->
    ret = Some Scanner.Canceled /\ Main.exit_code ret = 130.

End AsWritten.

(** ** Scenarios

    Concrete environments, configurations and interleavings that the
    properties below are evaluated on. *)

Module Scenario.
Import Worker Scanner.

(** Every dial is refused after 3 ms; writing the results succeeds. *)
Definition refusing_env : env :=
  mkEnv (mkProbeEnv (fun _ => DialErr (mkDialError true false "connection refused"))
           (fun _ => 1000) (fun _ => 3000000))
        None 2000.

(** One host, one port, one worker, no rate limit, not verbose. *)
Definition one_task_scan : outcome session :=
  New (mkConfig 1 0 "text" false) ["127.0.0.1"] [80] 0.

(** [Scan] submits the task, the worker takes it and starts to dial; [Scan]
    then closes the task channel, the result channel and the collector,
    writes the (empty) results and returns; only then does the dial end. *)
Definition early_close_schedule : list label :=
  [LOrch; LOrch; LOrch; LOrch;     (* start, check, submit, check: loop ends *)
   LWorker 0;                      (* the worker receives the task *)
   LOrch;                          (* pool.Close() *)
   LOrch;                          (* close(s.resultChan) *)
   LForward;                       (* collectResults sees it closed *)
   LOrch;                          (* collector.Close(): close(c.resultChan) *)
   LCollect;                       (* collect sees it closed: doneChan *)
   LOrch;                          (* collector.Close() returns *)
   LOrch;                          (* WriteResults; Scan returns nil *)
   LWorker 0].                     (* the dial returns: the outcome is built *)

(** The worker has sent its outcome on [s.resultChan] and [collectResults]
    has received it; [Scan] closes the collector before [collectResults]
    calls [Submit]. *)
Definition early_collector_close_schedule : list label :=
  [LOrch; LOrch; LOrch;            (* start, check, submit *)
   LWorker 0; LWorker 0; LWorker 0; (* receive, dial, send *)
   LOrch;                          (* check: loop ends *)
   LOrch;                          (* pool.Close() *)
   LOrch;                          (* close(s.resultChan) *)
   LForward;                       (* collectResults receives the outcome *)
   LOrch;                          (* collector.Close(): close(c.resultChan) *)
   LCollect;                       (* collect sees it closed: doneChan *)
   LOrch;                          (* collector.Close() returns *)
   LOrch].                         (* WriteResults; Scan returns nil *)

(** The context is cancelled while [Pool.Submit] is at its [select] for the
    last task, with room in the task channel: both cases are ready. *)
Definition before_last_submit : list label := [LOrch; LOrch].

(** The [select] takes the send; the loop ends and [Scan] runs to its end. *)
Definition send_wins_schedule : list label :=
  [LOrch;                          (* the send case of Pool.Submit's select *)
   LOrch;                          (* no task left: generateTasks returns nil *)
   LOrch; LOrch; LForward; LOrch; LCollect; LOrch; LOrch].

(** Two hosts, one port; the first probe is reported and folded, then the
    context is cancelled before the check for the second task. *)
Definition two_task_scan : outcome session :=
  New (mkConfig 1 0 "json" false) ["10.0.0.2"; "10.0.0.1"] [80] 0.

Definition first_task_done : list label :=
  [LOrch; LOrch; LOrch;            (* start, check, submit of the first task *)
   LWorker 0; LWorker 0; LWorker 0; (* receive, dial, send *)
   LForward; LForward;             (* collectResults: receive, Submit *)
   LCollect; LCollect;             (* collect: receive, fold *)
   LCancel].

Definition shutdown_schedule : list label :=
  [LOrch; LOrch; LForward; LOrch; LCollect; LOrch; LOrch].

(** Two outcomes submitted to a collector in the order 10.0.0.2, 10.0.0.1,
    folded, and the collector closed. *)
Definition outcome_of (ip : string) : Result.Result :=
  Result.mkResult ip 80 Result.StatusClosed 0 5 "connection refused".

Definition unsorted_arrival : list Aggregator.label :=
  [Aggregator.LSubmit 0; Aggregator.LSubmit 0;
   Aggregator.LCollect; Aggregator.LCollect; Aggregator.LCollect; Aggregator.LCollect;
   Aggregator.LClose 7; Aggregator.LCollect; Aggregator.LClose 9].

End Scenario.

(** ** Vocabulary for the expansions

    What the two expanders compute, said without their [seen] maps. *)

Module Expansion.

Section FirstSeen.
Context {K : Type} `{EqDecision K}.

(** The elements of [l] appended to [acc], each one only where it is first
    met. *)
Fixpoint first_seen (acc l : list K) : list K :=
  match l with
  | [] => acc
  | x :: rest =>
      if decide (x ∈ acc) then first_seen acc rest
      else first_seen (acc ++ [x]) rest
  end.

End FirstSeen.

(** The ports that one token of a port specification denotes; none for a
    blank or an invalid token. *)
Definition ports_of_token (part0 : string) : list Z :=
  match Parser.token_result part0 with
  | Some (inr ports) => ports
  | _ => []
  end.

(** The [seen] map says [true] exactly for the ports of the list. *)
Definition seen_ports (st : list Z * gmap Z bool) : Prop :=
  forall p, Parser.seen_get (snd st) p = true <-> p ∈ fst st.

Definition valid_port (p : Z) : Prop := 1 <= p <= 65535.

End Expansion.

(** ** Vocabulary for the delivery of outcomes to the collector *)

Module Delivery.
Import Result Aggregator.

(** The outcomes that the [Submit] steps of an interleaving hand over, in
    the order of those steps; [pending] is what each submitter has yet to
    submit. *)
Fixpoint submitted (sched : list label) (pending : list (list Result)) : list Result :=
  match sched with
  | [] => []
  | LSubmit i :: sched' =>
      match pending !! i with
      | Some (r :: rest) => r :: submitted sched' (<[i := rest]> pending)
      | _ => submitted sched' pending
      end
  | _ :: sched' => submitted sched' pending
  end.

(** [k] steps of the goroutine [collect] in a row. *)
Fixpoint collect_steps (k : nat) (c : Collector) : outcome Collector :=
  match k with
  | O => Next c
  | S k' =>
      match collect_step c with
      | Next c' => collect_steps k' c'
      | Blocked => Blocked
      | Panic => Panic
      end
  end.

(** The number of steps [collect] needs to fold what is in flight and see
    the channel closed. *)
Definition drain_steps (c : Collector) : nat :=
  match collect c with
  | CollectRecv => S (2 * length (buf (resultChan c)))
  | CollectFold _ => S (S (2 * length (buf (resultChan c))))
  | CollectDone => O
  end.

End Delivery.

(** ** Vocabulary for following the tasks through a scan *)

Module Tracking.
Import Worker Scanner.

(** The task whose probe gave the result [r]. *)
Definition task_of (r : Result.Result) : Task :=
  mkTask (Result.IP r) (Result.Port r).

Definition worker_tasks (w : worker_pc) : list Task :=
  match w with
  | WDial t => [t]
  | WSend r => [task_of r]
  | _ => []
  end.

Definition forwarder_tasks (f : forward_pc) : list Task :=
  match f with
  | FSubmit r => [task_of r]
  | _ => []
  end.

(** The tasks that [generateTasks] is still to submit; before [Scan] has
    started these are all the tasks. *)
Definition to_submit (s : session) : list Task :=
  match orch s with
  | OStart => all_tasks (targets s) (ports s)
  | pc => pending_tasks pc
  end.

(** All the tasks that are somewhere in the session: to be submitted,
    queued, in the hands of a worker, or probed with the outcome on its way
    to or in the results. *)
Definition held_tasks (s : session) : list Task :=
  to_submit s ++ buf (taskChan s) ++ concat (map worker_tasks (workers s))
  ++ map task_of (buf (resultChan s)) ++ forwarder_tasks (forwarder s)
  ++ map task_of (Aggregator.in_flight (collector s))
  ++ map task_of (Result.results (collector s)).

(** How far [Scan] has got. *)
Definition stage (pc : orch_pc) : nat :=
  match pc with
  | OStart => 0
  | OGenCheck _ | OGenLimiter _ | OGenSubmit _ => 1
  | OPoolClose _ => 2
  | OWaitProgress _ => 3
  | OCloseResults _ => 4
  | OCollectorClose _ => 5
  | OCollectorWait _ => 6
  | OWrite _ => 7
  | OReturned _ => 8
  end.

(** Each channel is closed exactly from the statement of [Scan] that closes
    it on. *)
Definition channels_inv (s : session) : Prop :=
  closed (taskChan s) = (2 <? stage (orch s))%nat
  /\ closed (resultChan s) = (4 <? stage (orch s))%nat
  /\ closed (Result.resultChan (collector s)) = (5 <? stage (orch s))%nat.

(** What [generateTasks] returned, once it has, and what [Scan] returns are
    [nil] or, only with the context cancelled, [context.Canceled]; a write
    error replaces either. *)
Definition returns_inv (e : env) (s : session) : Prop :=
  match orch s with
  | OPoolClose x | OWaitProgress x | OCloseResults x | OCollectorClose x
  | OCollectorWait x | OWrite x =>
      x = None \/ (x = Some Canceled /\ cancelled s = true)
  | OReturned ret =>
      ret = final_ret e (Result.format (collector s)) None
      \/ (ret = final_ret e (Result.format (collector s)) (Some Canceled)
          /\ cancelled s = true)
  | _ => True
  end.

(** With [Verbose], [Scan] goes past [progressWg.Wait()] only once the
    monitor has returned, and the monitor returns only on cancellation or
    with as many results as [n] tasks. *)
Definition monitor_inv (n : nat) (s : session) : Prop :=
  (Verbose (config s) = true -> (3 <? stage (orch s))%nat = true ->
   progress s = PReturned)
  /\ (progress s = PReturned ->
      cancelled s = true \/ (n <= length (Result.results (collector s)))%nat).

(** The task queue holds a stretch of the tasks, in their order, and what is
    still to be submitted comes right after it. *)
Definition queue_inv (T : list Task) (s : session) : Prop :=
  exists before after,
    T = before ++ buf (taskChan s) ++ after
    /\ ((stage (orch s) <= 1)%nat -> after = to_submit s).

End Tracking.

(** ** A complete verbose scan *)

Module Walkthrough.
Import Worker Scanner.

(** Two hosts, one port, one worker, no rate limit, with [Verbose]. *)
Definition verbose_scan : outcome session :=
  New (mkConfig 1 0 "text" true) ["10.0.0.2"; "10.0.0.1"] [80] 0.

(** Both tasks are submitted, probed, forwarded and folded; the monitor then
    sees the count complete and returns, and [Scan] shuts down. *)
Definition complete_schedule : list label :=
  [LOrch;                               (* start *)
   LOrch; LOrch; LOrch; LOrch; LOrch;   (* check, submit, check, submit, check *)
   LWorker 0; LWorker 0; LWorker 0;     (* receive, dial, send *)
   LWorker 0; LWorker 0; LWorker 0;
   LForward; LForward; LCollect; LCollect;
   LForward; LForward; LCollect; LCollect;
   LOrch;                               (* pool.Close() *)
   LProgress;                           (* the count is complete *)
   LOrch;                               (* progressWg.Wait() returns *)
   LOrch;                               (* close(s.resultChan) *)
   LForward;
   LOrch; LCollect; LOrch;              (* collector.Close() *)
   LOrch].                              (* WriteResults *)

(** The same run up to the call of [WriteResults]: both outcomes are
    folded, the one of 10.0.0.2 first. *)
Definition collection_schedule : list label :=
  [LOrch;
   LOrch; LOrch; LOrch; LOrch; LOrch;
   LWorker 0; LWorker 0; LWorker 0;
   LWorker 0; LWorker 0; LWorker 0;
   LForward; LForward; LCollect; LCollect;
   LForward; LForward; LCollect; LCollect;
   LOrch; LProgress; LOrch; LOrch; LForward;
   LOrch; LCollect; LOrch].

(** The scan of [Scenario.two_task_scan] up to the moment the first
    outcome is folded; the second task is then at its check. *)
Definition first_outcome_folded : list label :=
  [LOrch; LOrch; LOrch;             (* start, check, submit of the first task *)
   LWorker 0; LWorker 0; LWorker 0; (* receive, dial, send *)
   LForward; LForward;              (* collectResults: receive, Submit *)
   LCollect; LCollect].             (* collect: receive, fold *)

End Walkthrough.

(** ** Package [config] *)

Module Config.

Record Config : Type := mkConfig {
  Targets : list string;
  Ports : string;
  Workers : Z;
  Timeout : Z;              (* a [time.Duration]: nanoseconds *)
  RateLimit : Z;
  OutputFile : string;
  OutputFormat : string;
  Verbose : bool
}.

Definition Millisecond : Z := 1000000.
Definition Minute : Z := 60000000000.

Inductive error : Type :=
| ErrNoTargets            (* "at least one target must be specified" *)
| ErrNoPorts              (* "ports must be specified" *)
| ErrWorkersTooFew        (* "workers must be at least 1" *)
| ErrWorkersTooMany       (* "workers cannot exceed 10000 (too many goroutines)" *)
| ErrTimeoutTooShort      (* "timeout must be at least 1ms" *)
| ErrTimeoutTooLong       (* "timeout cannot exceed 5 minutes" *)
| ErrRateLimitNegative    (* "rate limit cannot be negative" *)
| ErrInvalidFormat (format : string).
                          (* "invalid output format: %s (valid: text, json, csv)" *)

Definition validFormats : gmap string bool :=
  <["text" := true]> (<["json" := true]> (<["csv" := true]> ∅)).

(** [Config.Validate]: the checks in their order; [None] is [nil]. A key
    that the map does not hold reads as [false]. *)
Definition Validate (c : Config) : option error :=
  if (length (Targets c) =? 0)%nat then Some ErrNoTargets
  else if String.eqb (Ports c) "" then Some ErrNoPorts
  else if Workers c <? 1 then Some ErrWorkersTooFew
  else if Workers c >? 10000 then Some ErrWorkersTooMany
  else if Timeout c <? Millisecond then Some ErrTimeoutTooShort
  else if Timeout c >? 5 * Minute then Some ErrTimeoutTooLong
  else if RateLimit c <? 0 then Some ErrRateLimitNegative
  else if negb (default false (validFormats !! OutputFormat c))
       then Some (ErrInvalidFormat (OutputFormat c))
  else None.

Definition GetWorkerCount (c : Config) : Z := Workers c.
Definition GetTimeout (c : Config) : Z := Timeout c.
Definition IsVerbose (c : Config) : bool := Verbose c.

(** The fields that the scanner reads. *)
Definition for_scanner (c : Config) : Scanner.Config :=
  Scanner.mkConfig (Workers c) (RateLimit c) (OutputFormat c) (Verbose c).

End Config.

(** ** Package [main]: the targets flag *)

Module Flags.

(** The loop of [parseTargets] over the parts. *)
Fixpoint parseTargets_loop (parts result : list string) : list string :=
  match parts with
  | [] => result
  | p :: rest =>
      let trimmed := Strings.TrimSpace p in
      if String.eqb trimmed "" then parseTargets_loop rest result
      else parseTargets_loop rest (result ++ [trimmed])
  end.

(** [parseTargets]: the comma-separated targets, trimmed, without the blank
    ones. *)
Definition parseTargets (targets : string) : list string :=
  parseTargets_loop (Strings.Split targets ","%char) [].

(** What [main] does with the flags, when [-version] is not given, up to
    the call of [scanner.New]: the exit code 1 (with [-t] empty or a
    configuration error), or the configuration it goes on with. *)
Definition configure (targets ports : string) (workers timeout rateLimit : Z)
  (outputFile outputFmt : string) (verbose : bool) : Z + Config.Config :=
  if String.eqb targets "" then inl 1
  else
    let cfg := Config.mkConfig (parseTargets targets) ports workers timeout
                 rateLimit outputFile outputFmt verbose in
    match Config.Validate cfg with
    | Some _ => inl 1
    | None => inr cfg
    end.

End Flags.

(** ** [ParseTargets]

    The functions of package [net] that read and print addresses as text
    are parameters: [net_ParseCIDR] and [net_ParseIP] give [None] for the
    error and for [nil], and [IP_String] is [IP.String]. *)

Module Targets.

Inductive error : Type :=
| ErrInvalidCIDR (target : string)      (* "invalid CIDR %s: %w" *)
| ErrInvalidIP (target : string)        (* "invalid IP address: %s" *)
| ErrNoValidTargets.                    (* "no valid targets found" *)

(** [seen[ip]] on a [map[string]bool]. *)
Definition seen_get (seen : gmap string bool) (ip : string) : bool :=
  default false (seen !! ip).

(** [if !seen[ip] { ips = append(ips, ip); seen[ip] = true }] *)
Definition add_ip (st : list string * gmap string bool) (ip : string)
  : list string * gmap string bool :=
  let '(ips, seen) := st in
  if seen_get seen ip then st else (ips ++ [ip], <[ip := true]> seen).

Section Library.
Variable net_ParseCIDR : string -> option (Net.IP * Net.IPNet).
Variable net_ParseIP : string -> option Net.IP.
Variable IP_String : Net.IP -> string.

(** [parseCIDR] on the text of a range, with the addresses printed. *)
Definition parseCIDR (fuel : nat) (cidr : string) : option (unit + list string) :=
  match Parser.parseCIDR fuel (net_ParseCIDR cidr) with
  | None => None
  | Some (inl err) => Some (inl err)
  | Some (inr ips) => Some (inr (map IP_String ips))
  end.

(** The loop of [ParseTargets]; [None] when an expansion does not end
    within [fuel] iterations. *)
Fixpoint ParseTargets_loop (fuel : nat) (targets : list string)
  (st : list string * gmap string bool)
  : option (error + (list string * gmap string bool)) :=
  match targets with
  | [] => Some (inr st)
  | target0 :: rest =>
      let target := Strings.TrimSpace target0 in
      if String.eqb target "" then ParseTargets_loop fuel rest st
      else if Strings.Contains target "/"%char then
        match parseCIDR fuel target with
        | None => None
        | Some (inl _) => Some (inl (ErrInvalidCIDR target))
        | Some (inr rangeIPs) =>
            ParseTargets_loop fuel rest (fold_left add_ip rangeIPs st)
        end
      else
        match net_ParseIP target with
        | None => Some (inl (ErrInvalidIP target))
        | Some _ => ParseTargets_loop fuel rest (add_ip st target)
        end
  end.

Definition ParseTargets (fuel : nat) (targets : list string)
  : option (error + list string) :=
  match ParseTargets_loop fuel targets ([], ∅) with
  | None => None
  | Some (inl err) => Some (inl err)
  | Some (inr (ips, _)) =>
      if (length ips =? 0)%nat then Some (inl ErrNoValidTargets)
      else Some (inr ips)
  end.

(** What one target amounts to on its own: no result within the fuel, its
    error, or the addresses it stands for (none for a blank target). *)
Definition target_outcome (fuel : nat) (target0 : string)
  : option (error + list string) :=
  let target := Strings.TrimSpace target0 in
  if String.eqb target "" then Some (inr [])
  else if Strings.Contains target "/"%char then
    match parseCIDR fuel target with
    | None => None
    | Some (inl _) => Some (inl (ErrInvalidCIDR target))
    | Some (inr rangeIPs) => Some (inr rangeIPs)
    end
  else
    match net_ParseIP target with
    | None => Some (inl (ErrInvalidIP target))
    | Some _ => Some (inr [target])
    end.

Definition target_ok (fuel : nat) (target0 : string) : Prop :=
  exists ips, target_outcome fuel target0 = Some (inr ips).

Definition ips_of_target (fuel : nat) (target0 : string) : list string :=
  match target_outcome fuel target0 with
  | Some (inr ips) => ips
  | _ => []
  end.

End Library.

(** The [seen] map says [true] exactly for the addresses of the list. *)
Definition seen_ips (st : list string * gmap string bool) : Prop :=
  forall ip, seen_get (snd st) ip = true <-> ip ∈ fst st.

(** A small address book for the examples: one range and two hosts, the
    addresses of 10.0.0.0/8 printed by their last byte. *)
Definition book_ParseCIDR (s : string) : option (Net.IP * Net.IPNet) :=
  if String.eqb s "10.0.0.0/30" then Net.ParseCIDR (Net.Addr4 [10; 0; 0; 0]) 30
  else if String.eqb s "0.0.0.0/0" then Net.ParseCIDR (Net.Addr4 [0; 0; 0; 0]) 0
  else None.

Definition book_ParseIP (s : string) : option Net.IP :=
  if String.eqb s "10.0.0.1" then Some [10; 0; 0; 1]
  else if String.eqb s "10.0.0.9" then Some [10; 0; 0; 9]
  else None.

Definition book_String (ip : Net.IP) : string :=
  match ip with
  | [10; 0; 0; d] =>
      String.append "10.0.0." (String (ascii_of_N (Z.to_N (48 + d))) EmptyString)
  | _ => "?"
  end.

End Targets.

(** ** Vocabulary for the shutdown of a scan *)

Module Cancellation.
Import Worker Scanner.

(** [generateTasks] has only its last task left and is past the check that
    precedes its submission: at the rate-limiter wait or in [Pool.Submit]. *)
Definition past_last_check (pc : orch_pc) : bool :=
  match pc with
  | OGenLimiter [_] | OGenSubmit [_] => true
  | _ => false
  end.

(** The context is cancelled and [generateTasks] either has a check ahead
    of it, at which it will see the cancellation, or has returned
    [context.Canceled]. *)
Definition will_report (e : env) (s : session) : Prop :=
  cancelled s = true
  /\ match orch s with
     | OGenCheck (_ :: _) => True
     | OGenLimiter (_ :: _ :: _) | OGenSubmit (_ :: _ :: _) => True
     | _ => decided e (Some Canceled) s
     end.

(** Once [collect] has returned, the collector's channel is closed and
    empty. *)
Definition drained (s : session) : Prop :=
  Result.collect (collector s) = Result.CollectDone ->
  buf (Result.resultChan (collector s)) = []
  /\ closed (Result.resultChan (collector s)) = true.

(** [Scan] waits for the progress monitor only with [Verbose], and the
    monitor has then been started. *)
Definition monitor_started (s : session) : Prop :=
  match orch s with
  | OStart => True
  | OWaitProgress _ => Verbose (config s) = true /\ progress s <> PNotStarted
  | _ => Verbose (config s) = true -> progress s <> PNotStarted
  end.

(** The steps that the shutdown needs: those of [Scan] itself, of the
    goroutine [collect], and the [ctx.Done()] case of the monitor. *)
Definition own_step (l : label) : bool :=
  match l with
  | LOrch | LOrchDone | LCollect | LProgressDone => true
  | _ => false
  end.

End Cancellation.

(** ** [scanner.New], from the configuration

    [Scanner.New] above is the last part of [scanner.New]: what it does
    once the targets and the ports are parsed and the collector is created.
    Here is the whole function. The text functions of package [net] are
    parameters, as for [ParseTargets]; [os_Create] gives the error of
    [os.Create] for an output file, if any. *)

Module Startup.

Inductive error : Type :=
| ErrParseTargets (err : Targets.error)   (* "failed to parse targets: %w" *)
| ErrParsePorts (err : Parser.error)      (* "failed to parse ports: %w" *)
| ErrCreateCollector (msg : string).      (* "failed to create collector: %w" *)

Section Library.
Variable net_ParseCIDR : string -> option (Net.IP * Net.IPNet).
Variable net_ParseIP : string -> option Net.IP.
Variable IP_String : Net.IP -> string.
Variable os_Create : string -> option string.

(** The error of [result.NewCollector]: that of [os.Create], which is
    called only for a non-empty [outputFile]. *)
Definition NewCollector_error (outputFile : string) : option string :=
  if String.eqb outputFile "" then None else os_Create outputFile.

(** [scanner.New]: [None] when [ParseTargets] does not return within
    [fuel]; else a panic, the error, or the scanner. [NewPool] panics in
    [make] for a negative size. *)
Definition New (fuel : nat) (cfg : Config.Config) (now : Z)
  : option (outcome (error + Scanner.session)) :=
  match Targets.ParseTargets net_ParseCIDR net_ParseIP IP_String fuel
          (Config.Targets cfg) with
  | None => None
  | Some (inl err) => Some (Next (inl (ErrParseTargets err)))
  | Some (inr targets) =>
      match Parser.ParsePorts (Config.Ports cfg) with
      | inl err => Some (Next (inl (ErrParsePorts err)))
      | inr ports =>
          match NewCollector_error (Config.OutputFile cfg) with
          | Some msg => Some (Next (inl (ErrCreateCollector msg)))
          | None =>
              if Config.Workers cfg <? 0 then Some Panic
              else
                match Scanner.New (Config.for_scanner cfg) targets ports now with
                | Next s => Some (Next (inr s))
                | Blocked => Some Blocked
                | Panic => Some Panic
                end
          end
      end
  end.

End Library.

End Startup.

(** * Properties *)

Lemma int_wrap_small z : in_int z -> int_wrap z = z.
Proof.
  unfold in_int, int_wrap, min_int, max_int. intros Hz.
  rewrite Z.mod_small; lia.
Qed.

Example ParsePorts_list : Parser.ParsePorts "80,443" = inr [80; 443].
Proof. vm_compute. reflexivity. Qed.

Example ParsePorts_range : Parser.ParsePorts "8000-8002" = inr [8000; 8001; 8002].
Proof. vm_compute. reflexivity. Qed.

Example ParsePorts_dedup : Parser.ParsePorts " 80, 80 ,79-81" = inr [80; 79; 81].
Proof. vm_compute. reflexivity. Qed.

Example ParsePorts_negative : Parser.ParsePorts "-5" = inl (Parser.ErrInvalidStart "-5").
Proof. vm_compute. reflexivity. Qed.

(** ** Properties of port expansion *)

Section PortExpansion.
Import Parser.

Lemma validatePort_None port : validatePort port = None -> 1 <= port <= 65535.
Proof.
  unfold validatePort. intros H.
  destruct (port <? 1) eqn:H1; destruct (port >? 65535) eqn:H2; simpl in H;
    try discriminate. lia.
Qed.

Lemma validatePort_Some port e :
  validatePort port = Some e -> e = ErrPortOutOfRange port.
Proof.
  unfold validatePort. destruct ((port <? 1) || (port >? 65535)); congruence.
Qed.

(** Both endpoints are validated before the size check, so the difference
    the check looks at never exceeds 65534. *)
Lemma range_size_bound start end_ :
  validatePort start = None -> validatePort end_ = None ->
  int_wrap (end_ - start) <= 65534.
Proof.
  intros Hs He. apply validatePort_None in Hs, He.
  rewrite int_wrap_small; [lia | unfold in_int, min_int, max_int; lia].
Qed.

(** The fuel that [parsePortRange] gives to the loop is enough: the loop
    appends the ports from [p] to [end_]. *)
Lemma range_loop_seqZ k : forall p end_ ports,
  Z.of_nat k = end_ - p + 1 -> min_int <= p -> end_ < max_int ->
  range_loop k p end_ ports = ports ++ seqZ p (end_ - p + 1).
Proof.
  induction k as [|k IH]; intros p end_ ports Hk Hp He.
  - simpl. rewrite seqZ_nil by lia. rewrite app_nil_r. reflexivity.
  - cbn [range_loop]. destruct (Z.leb_spec p end_); [|lia].
    rewrite int_wrap_small by (unfold in_int; lia).
    rewrite IH by lia. rewrite <- app_assoc. simpl.
    rewrite (seqZ_cons p) by lia. do 3 f_equal; lia.
Qed.

Lemma parsePortRange_error rangeSpec e :
  parsePortRange rangeSpec = inl e -> is_RangeTooLarge e = false.
Proof.
  unfold parsePortRange. intros H.
  destruct (Strings.Split rangeSpec "-") as [|p0 [|p1 [|p2 ps]]];
    try (inversion H; reflexivity).
  destruct (Strconv.Atoi (Strings.TrimSpace p0)) as [start|];
    [|inversion H; reflexivity].
  destruct (Strconv.Atoi (Strings.TrimSpace p1)) as [end_|];
    [|inversion H; reflexivity].
  destruct (validatePort start) as [e1|] eqn:Hs.
  { apply validatePort_Some in Hs. inversion H. subst. reflexivity. }
  destruct (validatePort end_) as [e2|] eqn:He.
  { apply validatePort_Some in He. inversion H. subst. reflexivity. }
  destruct (start >? end_); [inversion H; reflexivity|].
  pose proof (range_size_bound _ _ Hs He) as Hb.
  destruct (int_wrap (end_ - start) >? 65535) eqn:Hgt; [lia | discriminate].
Qed.

Lemma ParsePorts_loop_error parts : forall st e,
  ParsePorts_loop parts st = inl e -> is_RangeTooLarge e = false.
Proof.
  induction parts as [|part0 rest IH]; intros st e H; simpl in H; [discriminate|].
  destruct (String.eqb (Strings.TrimSpace part0) ""); [eauto|].
  destruct (Strings.Contains (Strings.TrimSpace part0) "-").
  - destruct (parsePortRange (Strings.TrimSpace part0)) as [err|rp] eqn:Hr; [|eauto].
    inversion H; subst. eapply parsePortRange_error; eassumption.
  - destruct (Strconv.Atoi (Strings.TrimSpace part0)) as [port|];
      [|inversion H; reflexivity].
    destruct (validatePort port) as [err|] eqn:Hv; [|eauto].
    apply validatePort_Some in Hv. inversion H; subst. reflexivity.
Qed.

(** A token that is invalid on its own stops the loop with its error. *)
Lemma ParsePorts_loop_invalid t rest st e :
  token_result t = Some (inl e) -> ParsePorts_loop (t :: rest) st = inl e.
Proof.
  unfold token_result. simpl. intros H.
  destruct (String.eqb (Strings.TrimSpace t) ""); [discriminate|].
  destruct (Strings.Contains (Strings.TrimSpace t) "-").
  - destruct (parsePortRange (Strings.TrimSpace t)); congruence.
  - destruct (Strconv.Atoi (Strings.TrimSpace t)) as [port|]; [|congruence].
    destruct (validatePort port); congruence.
Qed.

(** A blank or valid token lets the loop go on with the rest. *)
Lemma ParsePorts_loop_valid t rest st :
  token_valid t -> exists st', ParsePorts_loop (t :: rest) st = ParsePorts_loop rest st'.
Proof.
  unfold token_valid, token_result. simpl. intros H.
  destruct (String.eqb (Strings.TrimSpace t) ""); [eauto|].
  destruct (Strings.Contains (Strings.TrimSpace t) "-").
  - destruct (parsePortRange (Strings.TrimSpace t)); [contradiction | eauto].
  - destruct (Strconv.Atoi (Strings.TrimSpace t)) as [port|]; [|contradiction].
    destruct (validatePort port); [contradiction | eauto].
Qed.

Lemma ParsePorts_loop_first_invalid pre : forall t post st e,
  Forall token_valid pre -> token_result t = Some (inl e) ->
  ParsePorts_loop (pre ++ t :: post) st = inl e.
Proof.
  induction pre as [|p pre IH]; intros t post st e Hpre Ht.
  - apply ParsePorts_loop_invalid; assumption.
  - inversion Hpre as [|? ? Hp Hrest]; subst.
    destruct (ParsePorts_loop_valid p (pre ++ t :: post) st Hp) as [st' Hst'].
    simpl app. rewrite Hst'. apply IH; assumption.
Qed.

(** C7. Port expansion rejects "0", "70000" (out of 1..65535) and "100-50"
    (start greater than end) with an invalid-port error; and whenever the
    comma-separated specification has an invalid token, the expansion
    returns the error of the first invalid token and no ports: it does not
    skip the token and go on. *)
Theorem ParsePorts_fails_fast :
  (ParsePorts "0" = inl (ErrPortOutOfRange 0)
   /\ ParsePorts "70000" = inl (ErrPortOutOfRange 70000)
   /\ ParsePorts "100-50" = inl (ErrStartGreater 100 50)
   /\ is_InvalidPort (ErrPortOutOfRange 0) = true
   /\ is_InvalidPort (ErrPortOutOfRange 70000) = true
   /\ is_InvalidPort (ErrStartGreater 100 50) = true)
  /\ forall portSpec pre t post e,
      Strings.Split portSpec "," = pre ++ t :: post ->
      Forall token_valid pre ->
      token_result t = Some (inl e) ->
      ParsePorts portSpec = inl e.
Proof.
  split.
  - repeat split; vm_compute; reflexivity.
  - intros portSpec pre t post e Hsplit Hpre Ht. unfold ParsePorts.
    rewrite Hsplit, (ParsePorts_loop_first_invalid pre t post _ e Hpre Ht).
    reflexivity.
Qed.

Lemma ParsePorts_fails_fast_witness :
  Parser.ParsePorts "80, 65536 ,0,443" = inl (ErrPortOutOfRange 65536).
Proof.
  apply (proj2 ParsePorts_fails_fast "80, 65536 ,0,443" ["80"] " 65536 " ["0"; "443"]).
  - vm_compute. reflexivity.
  - repeat constructor.
  - vm_compute. reflexivity.
Defined.

(** C9. Port expansion never returns the range-too-large error, for any
    input string: [parsePortRange] validates both endpoints to lie in
    1..65535 before the size check, so [end - start] is at most 65534 and
    the branch guarded by [end - start > 65535] is never taken. *)
Theorem ParsePorts_never_range_too_large :
  (forall portSpec e, ParsePorts portSpec = inl e -> is_RangeTooLarge e = false)
  /\ (forall rangeSpec e, parsePortRange rangeSpec = inl e -> is_RangeTooLarge e = false)
  /\ (forall start end_,
        validatePort start = None -> validatePort end_ = None ->
        int_wrap (end_ - start) <= 65534
        /\ (int_wrap (end_ - start) >? 65535) = false).
Proof.
  split; [|split].
  - intros portSpec e. unfold ParsePorts.
    destruct (ParsePorts_loop _ _) as [err|[ports seen]] eqn:Hl.
    + intros H; inversion H; subst. eapply ParsePorts_loop_error; eassumption.
    + destruct (Z.of_nat (length ports) =? 0); intros H; inversion H. reflexivity.
  - apply parsePortRange_error.
  - intros start end_ Hs He. pose proof (range_size_bound _ _ Hs He). lia.
Qed.

Lemma ParsePorts_never_range_too_large_witness :
  is_RangeTooLarge (ErrEndPort (ErrPortOutOfRange 70000)) = false
  /\ is_RangeTooLarge (ErrStartGreater 65535 1) = false
  /\ int_wrap (65535 - 1) <= 65534.
Proof.
  destruct ParsePorts_never_range_too_large as (H1 & H2 & H3).
  split; [|split].
  - apply (H1 "22,1-70000"). vm_compute. reflexivity.
  - apply (H2 "65535-1"). vm_compute. reflexivity.
  - apply (H3 1 65535); vm_compute; reflexivity.
Defined.

End PortExpansion.

Example aggregator_two_submitters :
  let r st := Result.mkResult "10.0.0.1" 80 st 0 5 "" in
  match Aggregator.run
          [Aggregator.LSubmit 0; Aggregator.LSubmit 1; Aggregator.LCollect;
           Aggregator.LSubmit 0; Aggregator.LCollect; Aggregator.LClose 7;
           Aggregator.LCollect; Aggregator.LCollect; Aggregator.LCollect;
           Aggregator.LCollect; Aggregator.LCollect; Aggregator.LClose 9]
          (Aggregator.init [[r Result.StatusOpen; r Result.StatusClosed];
                            [r Result.StatusFiltered]] "text" false 1) with
  | Next h =>
      Result.TotalScanned (Result.GetSummary (Aggregator.coll h)) = 3
      /\ Result.counters (Result.GetSummary (Aggregator.coll h)) = 3
      /\ Aggregator.closer h = Aggregator.CloseReturned
  | _ => False
  end.
Proof. vm_compute. auto. Qed.

(** ** The accounting invariant of the aggregator *)

Section AggregatorAccounting.
Import Result Aggregator.

Lemma int_wrap_incr x : int_wrap (int_wrap x + 1) = int_wrap (x + 1).
Proof.
  unfold int_wrap.
  replace ((x + 2 ^ 63) mod 2 ^ 64 - 2 ^ 63 + 1 + 2 ^ 63)
    with ((x + 2 ^ 63) mod 2 ^ 64 + 1) by lia.
  rewrite Zplus_mod_idemp_l. f_equal. f_equal. lia.
Qed.

Lemma incr_count (n : nat) : incr (int_wrap (Z.of_nat n)) = int_wrap (Z.of_nat (S n)).
Proof. unfold incr. rewrite int_wrap_incr. f_equal. lia. Qed.

Lemma count_status_app st rs1 rs2 :
  count_status st (rs1 ++ rs2) = (count_status st rs1 + count_status st rs2)%nat.
Proof. induction rs1 as [|r rs1 IH]; simpl; [reflexivity | rewrite IH; lia]. Qed.

Lemma count_status_le st rs : (count_status st rs <= length rs)%nat.
Proof.
  induction rs as [|r rs IH]; simpl; [lia|].
  destruct (String.eqb (RStatus r) st); lia.
Qed.

Lemma count_status_known rs :
  Forall known rs ->
  (count_status StatusOpen rs + count_status StatusClosed rs
   + count_status StatusFiltered rs + count_status StatusError rs = length rs)%nat.
Proof.
  induction 1 as [|r rs Hr _ IH]; simpl; [reflexivity|].
  destruct Hr as [-> | [-> | [-> | ->]]]; simpl; lia.
Qed.

Lemma folded_nil now : folded [] (mkSummary 0 0 0 0 0 0 now 0).
Proof. repeat split. Qed.

(** The switch of [updateSummary] has no default case: an outcome whose
    status is none of the four constants is counted in the total only. No
    outcome built by [Worker.scan] is of that kind. *)
Example updateSummary_other_status :
  let s := updateSummary (mkSummary 0 0 0 0 0 0 0 0) (mkResult "10.0.0.1" 80 "" 0 0 "") in
  TotalScanned s = 1 /\ counters s = 0.
Proof. vm_compute. split; reflexivity. Qed.

(** One fold keeps the summary the fold of the results. *)
Lemma updateSummary_folded rs s r :
  folded rs s -> folded (rs ++ [r]) (updateSummary s r).
Proof.
  intros (Ht & Ho & Hc & Hf & He). unfold folded, updateSummary.
  rewrite !count_status_app, length_app. simpl count_status. simpl length.
  destruct (String.eqb_spec (RStatus r) StatusOpen) as [E1|N1].
  { try rewrite E1. simpl. rewrite Ht, Ho, !incr_count, !Nat.add_0_r, !Nat.add_1_r. auto. }
  destruct (String.eqb_spec (RStatus r) StatusClosed) as [E2|N2].
  { try rewrite E2. simpl. rewrite Ht, Hc, !incr_count, !Nat.add_0_r, !Nat.add_1_r. auto. }
  destruct (String.eqb_spec (RStatus r) StatusFiltered) as [E3|N3].
  { try rewrite E3. simpl. rewrite Ht, Hf, !incr_count, !Nat.add_0_r, !Nat.add_1_r. auto. }
  destruct (String.eqb_spec (RStatus r) StatusError) as [E4|N4].
  { try rewrite E4. simpl. rewrite Ht, He, !incr_count, !Nat.add_0_r, !Nat.add_1_r. auto. }
  simpl. rewrite Ht, !incr_count, !Nat.add_0_r, !Nat.add_1_r. auto.
Qed.

(** With all statuses known and no more results than an [int] can count, the
    fold of [rs] has total [length rs] and counters adding up to it. *)
Lemma folded_totals rs s :
  folded rs s -> Forall known rs -> Z.of_nat (length rs) <= max_int ->
  TotalScanned s = Z.of_nat (length rs) /\ balanced s.
Proof.
  intros (Ht & Ho & Hc & Hf & He) Hk Hlen.
  pose proof (count_status_known rs Hk) as Hsum.
  pose proof (count_status_le StatusOpen rs).
  pose proof (count_status_le StatusClosed rs).
  pose proof (count_status_le StatusFiltered rs).
  pose proof (count_status_le StatusError rs).
  unfold max_int in Hlen.
  rewrite int_wrap_small in Ht, Ho, Hc, Hf, He
    by (unfold in_int, min_int, max_int; lia).
  unfold balanced, counters. lia.
Qed.

(** A single fold of an outcome of known status into a balanced summary
    gives a balanced summary again, its total one more. *)
Lemma updateSummary_balanced s r :
  known r -> balanced s -> 0 <= TotalScanned s < max_int ->
  balanced (updateSummary s r) /\ TotalScanned (updateSummary s r) = TotalScanned s + 1.
Proof.
  unfold balanced, counters, max_int. intros Hr (Ho & Hc & Hf & He & Hsum) Ht.
  assert (Hw : forall x, 0 <= x <= TotalScanned s -> incr x = x + 1).
  { intros x Hx. unfold incr. apply int_wrap_small.
    unfold in_int, min_int, max_int. lia. }
  unfold updateSummary.
  destruct Hr as [-> | [-> | [-> | ->]]]; simpl; rewrite !Hw by lia; lia.
Qed.

Lemma collect_step_inv c c' :
  collect_step c = Next c' -> collector_inv c -> collector_inv c'.
Proof.
  unfold collect_step, collector_inv, chan_recv. intros Hs (Hf & Hd).
  destruct (collect c) eqn:Hpc.
  - destruct (buf (resultChan c)) as [|x rest] eqn:Hb.
    + destruct (closed (resultChan c)) eqn:Hcl; inversion Hs; subst; simpl.
      split; [assumption | auto].
    + inversion Hs; subst; simpl. split; [assumption | discriminate].
  - inversion Hs; subst; simpl.
    split; [apply updateSummary_folded; assumption | discriminate].
  - discriminate.
Qed.

Lemma collect_step_accounted c c' :
  collect_step c = Next c' -> accounted c' = accounted c.
Proof.
  unfold collect_step, accounted, in_flight, chan_recv. intros Hs.
  destruct (collect c) eqn:Hpc.
  - destruct (buf (resultChan c)) as [|x rest] eqn:Hb.
    + destruct (closed (resultChan c)); inversion Hs; subst; simpl.
      rewrite Hb. reflexivity.
    + inversion Hs; subst; simpl. reflexivity.
  - inversion Hs; subst; simpl. rewrite length_app. simpl. lia.
  - discriminate.
Qed.

Lemma collect_step_known c c' :
  collect_step c = Next c' ->
  Forall known (results c) -> Forall known (in_flight c) ->
  Forall known (results c') /\ Forall known (in_flight c').
Proof.
  unfold collect_step, in_flight, chan_recv. intros Hs Hr Hi.
  destruct (collect c) eqn:Hpc.
  - destruct (buf (resultChan c)) as [|x rest] eqn:Hb.
    + destruct (closed (resultChan c)); inversion Hs; subst; simpl.
      rewrite Hb. auto.
    + inversion Hs; subst; simpl. auto.
  - inversion Hs; subst; simpl. inversion Hi; subst.
    split; [apply Forall_app; auto | assumption].
  - discriminate.
Qed.

Lemma Submit_spec c r c' :
  Submit c r = Next c' ->
  closed (resultChan c) = false
  /\ c' = with_chan c (mkChan (buf (resultChan c) ++ [r]) (cap (resultChan c)) false).
Proof.
  unfold Submit, chan_send. destruct (closed (resultChan c)); [discriminate|].
  destruct (length (buf (resultChan c)) <? cap (resultChan c))%nat; [|discriminate].
  intros H; inversion H; auto.
Qed.

Lemma Submit_inv c r c' :
  Submit c r = Next c' -> collector_inv c -> collector_inv c'.
Proof.
  intros Hs (Hf & Hd). apply Submit_spec in Hs as (Hcl & ->).
  unfold collector_inv; simpl. split; [assumption|].
  intros Hdone. destruct (Hd Hdone) as (_ & Hc). congruence.
Qed.

Lemma Submit_accounted c r c' :
  Submit c r = Next c' -> accounted c' = S (accounted c).
Proof.
  intros Hs. apply Submit_spec in Hs as (_ & ->).
  unfold accounted, in_flight; simpl.
  destruct (collect c); simpl; rewrite length_app; simpl; lia.
Qed.

Lemma Submit_known c r c' :
  Submit c r = Next c' -> known r ->
  Forall known (results c) -> Forall known (in_flight c) ->
  Forall known (results c') /\ Forall known (in_flight c').
Proof.
  intros Hs Hr Hres Hi. apply Submit_spec in Hs as (_ & ->).
  unfold in_flight in *; simpl. split; [assumption|].
  destruct (collect c).
  - apply Forall_app; auto.
  - inversion Hi; subst. constructor; [assumption | apply Forall_app; auto].
  - apply Forall_app; auto.
Qed.

Lemma Close_channel_spec c c' :
  Close_channel c = Next c' ->
  closed (resultChan c) = false
  /\ c' = with_chan c (mkChan (buf (resultChan c)) (cap (resultChan c)) true).
Proof.
  unfold Close_channel, chan_close. destruct (closed (resultChan c)); [discriminate|].
  intros H; inversion H; auto.
Qed.

Lemma Close_wait_spec c now c' :
  Close_wait c now = Next c' ->
  collect c = CollectDone /\ collect c' = CollectDone
  /\ results c' = results c /\ resultChan c' = resultChan c
  /\ TotalScanned (summary c') = TotalScanned (summary c)
  /\ OpenPorts (summary c') = OpenPorts (summary c)
  /\ ClosedPorts (summary c') = ClosedPorts (summary c)
  /\ Filtered (summary c') = Filtered (summary c)
  /\ Errors (summary c') = Errors (summary c).
Proof.
  unfold Close_wait, doneChan_closed. destruct (collect c) eqn:Hpc; try discriminate.
  intros H; inversion H; subst; simpl. repeat split; auto.
Qed.

Lemma step_inv l h h' : step l h = Next h' -> inv h -> inv h'.
Proof.
  unfold inv. intros Hs (Hc & Hret). destruct l as [i | | now]; simpl in Hs.
  - destruct (pending h !! i) as [[|r rest]|]; try discriminate.
    destruct (Submit (coll h) r) as [c| |] eqn:Hsub; inversion Hs; subst; simpl.
    split; [eapply Submit_inv; eassumption|].
    intros Hr. specialize (Hret Hr). destruct Hc as (_ & Hd).
    destruct (Hd Hret) as (_ & Hcl).
    apply Submit_spec in Hsub as (Hop & _). congruence.
  - destruct (collect_step (coll h)) as [c| |] eqn:Hcs; inversion Hs; subst; simpl.
    split; [eapply collect_step_inv; eassumption|].
    intros Hr. specialize (Hret Hr). unfold collect_step in Hcs.
    rewrite Hret in Hcs. discriminate.
  - destruct (closer h) eqn:Hcl.
    + destruct (Close_channel (coll h)) as [c| |] eqn:Hcc; inversion Hs; subst; simpl.
      split; [|discriminate].
      apply Close_channel_spec in Hcc as (Hop & ->).
      destruct Hc as (Hf & Hd). split; [assumption|]. simpl.
      intros Hdone. destruct (Hd Hdone) as (Hb & _). auto.
    + destruct (Close_wait (coll h) now) as [c| |] eqn:Hcw; inversion Hs; subst; simpl.
      apply Close_wait_spec in Hcw
        as (Hd1 & Hd2 & Hres & Hch & Ht & Ho & Hcp & Hfi & He).
      split; [|auto].
      destruct Hc as ((Ft & Fo & Fc & Ff & Fe) & Hd).
      split.
      * unfold folded. rewrite Hres, Ht, Ho, Hcp, Hfi, He. auto.
      * rewrite Hch. auto.
    + discriminate.
Qed.

Lemma step_accounted l h h' :
  step l h = Next h' ->
  accounted (coll h') = (accounted (coll h) + submissions [l])%nat.
Proof.
  intros Hs. destruct l as [i | | now]; simpl in *.
  - destruct (pending h !! i) as [[|r rest]|]; try discriminate.
    destruct (Submit (coll h) r) as [c| |] eqn:Hsub; inversion Hs; subst; simpl.
    rewrite (Submit_accounted _ _ _ Hsub). lia.
  - destruct (collect_step (coll h)) as [c| |] eqn:Hcs; inversion Hs; subst; simpl.
    rewrite (collect_step_accounted _ _ Hcs). lia.
  - destruct (closer h).
    + destruct (Close_channel (coll h)) as [c| |] eqn:Hcc; inversion Hs; subst; simpl.
      apply Close_channel_spec in Hcc as (_ & ->).
      unfold accounted, in_flight. simpl. lia.
    + destruct (Close_wait (coll h) now) as [c| |] eqn:Hcw; inversion Hs; subst; simpl.
      apply Close_wait_spec in Hcw as (Hd1 & Hd2 & Hres & Hch & _).
      unfold accounted, in_flight. rewrite Hd1, Hd2, Hres, Hch. lia.
    + discriminate.
Qed.

Lemma step_known l h h' : step l h = Next h' -> all_known h -> all_known h'.
Proof.
  unfold all_known. intros Hs (Hr & Hi & Hp). destruct l as [i | | now]; simpl in Hs.
  - destruct (pending h !! i) as [[|r rest]|] eqn:Hpi; try discriminate.
    destruct (Submit (coll h) r) as [c| |] eqn:Hsub; inversion Hs; subst; simpl.
    pose proof (Forall_lookup_1 _ _ _ _ Hp Hpi) as Hrr. inversion Hrr; subst.
    destruct (Submit_known _ _ _ Hsub) as (? & ?); auto.
    repeat split; auto. apply Forall_insert; assumption.
  - destruct (collect_step (coll h)) as [c| |] eqn:Hcs; inversion Hs; subst; simpl.
    destruct (collect_step_known _ _ Hcs) as (? & ?); auto.
  - destruct (closer h).
    + destruct (Close_channel (coll h)) as [c| |] eqn:Hcc; inversion Hs; subst; simpl.
      apply Close_channel_spec in Hcc as (_ & ->). auto.
    + destruct (Close_wait (coll h) now) as [c| |] eqn:Hcw; inversion Hs; subst; simpl.
      apply Close_wait_spec in Hcw as (Hd1 & Hd2 & Hres & Hch & _).
      unfold in_flight in *. rewrite Hd2, Hres, Hch. rewrite Hd1 in Hi. auto.
    + discriminate.
Qed.

Lemma run_invariants sched : forall h h',
  run sched h = Next h' -> inv h -> all_known h ->
  inv h' /\ all_known h'
  /\ accounted (coll h') = (accounted (coll h) + submissions sched)%nat.
Proof.
  induction sched as [|l sched IH]; intros h h' Hrun Hinv Hk; simpl in Hrun.
  - inversion Hrun; subst. split; [assumption | split; [assumption | simpl; lia]].
  - destruct (step l h) as [h1| |] eqn:Hs; try discriminate.
    destruct (IH h1 h' Hrun) as (Hi' & Hk' & Ha').
    + eapply step_inv; eassumption.
    + eapply step_known; eassumption.
    + split; [assumption | split; [assumption|]].
      rewrite Ha', (step_accounted _ _ _ Hs). simpl.
      destruct l; simpl; lia.
Qed.

End AggregatorAccounting.

(** ** The probe worker *)

Section ProbeWorker.
Import Worker.

Lemma scan_result_status env task :
  match dial env task with
  | DialOk => Result.RStatus (scan_result env task) = Result.StatusOpen
  | DialErr err =>
      Result.RStatus (scan_result env task)
      = if is_net_Error err && Timeout err then Result.StatusFiltered
        else Result.StatusClosed
  end.
Proof. unfold scan_result. destruct (dial env task); reflexivity. Qed.

(** C2. A probe of one task produces exactly one outcome: [scan] sends one
    result, for the task's host and port, on the result channel. Its status
    is open if and only if the connection attempt succeeded, filtered if and
    only if the attempt failed with a timeout error, and closed if and only
    if it failed with any other error. *)
Theorem scan_one_outcome_classified :
  forall (env : probe_env) (ch : chan Result.Result) (task : Task),
    let r := scan_result env task in
    (forall ch', scan env ch task = Next ch' ->
                 buf ch' = buf ch ++ [r] /\ length (buf ch') = S (length (buf ch)))
    /\ (closed ch = false -> (length (buf ch) < cap ch)%nat ->
        exists ch', scan env ch task = Next ch')
    /\ Result.IP r = IP task /\ Result.Port r = Port task
    /\ (Result.RStatus r = Result.StatusOpen <-> dial env task = DialOk)
    /\ (Result.RStatus r = Result.StatusFiltered <->
        exists err, dial env task = DialErr err
                    /\ is_net_Error err = true /\ Timeout err = true)
    /\ (Result.RStatus r = Result.StatusClosed <->
        exists err, dial env task = DialErr err
                    /\ (is_net_Error err && Timeout err) = false).
Proof.
  intros env ch task r. subst r. unfold scan, chan_send.
  split; [|split].
  - intros ch'. destruct (closed ch); [discriminate|].
    destruct (length (buf ch) <? cap ch)%nat; [|discriminate].
    intros H; inversion H; subst; simpl. rewrite length_app. simpl. split; [reflexivity | lia].
  - intros Hc Hlen. rewrite Hc.
    destruct (Nat.ltb_spec (length (buf ch)) (cap ch)); [eauto | lia].
  - pose proof (scan_result_status env task) as Hst.
    unfold scan_result in *.
    destruct (dial env task) as [|err]; simpl in *.
    + repeat split; try discriminate; try (intros (err & He & _); discriminate).
    + destruct (is_net_Error err) eqn:Hn; destruct (Timeout err) eqn:Ht; simpl;
        (repeat split; try discriminate; try eauto;
         try (intros (err' & He & H1 & H2); inversion He; subst; congruence);
         try (intros (err' & He & H1); inversion He; subst;
              rewrite Hn, Ht in H1; discriminate);
         try (intros _; exists err; rewrite Hn, Ht; split; reflexivity)).
Qed.

Lemma scan_one_outcome_classified_witness :
  let env := mkProbeEnv
               (fun t => if Port t =? 80 then DialOk
                         else DialErr (mkDialError true (Port t =? 81) "dial tcp"))
               (fun _ => 100) (fun _ => 5) in
  buf (mkChan [scan_result env (mkTask "10.0.0.1" 80)] 1000 false)
  = [] ++ [scan_result env (mkTask "10.0.0.1" 80)]
  /\ (exists ch', scan env (make_chan 1000) (mkTask "10.0.0.1" 81) = Next ch')
  /\ dial env (mkTask "10.0.0.1" 80) = DialOk
  /\ Result.RStatus (scan_result env (mkTask "10.0.0.1" 81)) = Result.StatusFiltered
  /\ Result.RStatus (scan_result env (mkTask "10.0.0.1" 82)) = Result.StatusClosed.
Proof.
  intros env.
  split; [|split; [|split; [|split]]].
  - apply (proj1 (scan_one_outcome_classified env (make_chan 1000) (mkTask "10.0.0.1" 80))).
    reflexivity.
  - apply (proj1 (proj2 (scan_one_outcome_classified env (make_chan 1000)
                           (mkTask "10.0.0.1" 81)))).
    + reflexivity.
    + simpl. lia.
  - apply (proj1 (proj2 (proj2 (proj2 (proj2
             (scan_one_outcome_classified env (make_chan 1000) (mkTask "10.0.0.1" 80))))))).
    reflexivity.
  - apply (proj1 (proj2 (proj2 (proj2 (proj2 (proj2
             (scan_one_outcome_classified env (make_chan 1000) (mkTask "10.0.0.1" 81)))))))).
    exists (mkDialError true true "dial tcp"). repeat split.
  - apply (proj2 (proj2 (proj2 (proj2 (proj2 (proj2
             (scan_one_outcome_classified env (make_chan 1000) (mkTask "10.0.0.1" 82)))))))).
    exists (mkDialError true false "dial tcp"). repeat split.
Defined.

(** C8, as written, fails: a dial that fails with "too many open files" (no
    socket could be created), which is not a timeout, is reported as
    closed. *)
Lemma exhaustion_is_reported_closed : ~ AsWritten.exhaustion_yields_error_status.
Proof.
  intros H.
  specialize (H (mkProbeEnv
                   (fun _ => DialErr (mkDialError true false
                                        "dial tcp 10.0.0.1:80: socket: too many open files"))
                   (fun _ => 0) (fun _ => 0))
                (mkTask "10.0.0.1" 80) _ eq_refl eq_refl).
  vm_compute in H. discriminate.
Qed.

(** C8, amended. A probe whose dial fails without a timeout, as when no
    socket can be created, yields for that one task an outcome of status
    closed carrying the error text; [scan] never yields the error status.
    The session goes on: the worker builds the outcome, nothing else in the
    session changes, and once the outcome is sent the worker is back at its
    select for the next task. *)
Theorem exhaustion_yields_closed_outcome :
  (forall (env : probe_env) (task : Task), 
      Result.RStatus (scan_result env task) <> Result.StatusError)
  /\ (forall (e : Scanner.env) (s : Scanner.session) (i : nat) task err,
        Scanner.workers s !! i = Some (WDial task) ->
        dial (Scanner.probes e) task = DialErr err ->
        (is_net_Error err && Timeout err) = false ->
        let r := scan_result (Scanner.probes e) task in
        Result.RStatus r = Result.StatusClosed
        /\ Result.Error r = Error_text err
        /\ Result.IP r = IP task /\ Result.Port r = Port task
        /\ Scanner.step e (Scanner.LWorker i) s
           = Next (Scanner.set_worker s i (WSend r))
        /\ (closed (Scanner.resultChan s) = false ->
            (length (buf (Scanner.resultChan s)) < cap (Scanner.resultChan s))%nat ->
            exists s', Scanner.run e [Scanner.LWorker i; Scanner.LWorker i] s = Next s'
                       /\ Scanner.workers s' !! i = Some WSelect
                       /\ buf (Scanner.resultChan s') = buf (Scanner.resultChan s) ++ [r]
                       /\ Scanner.orch s' = Scanner.orch s
                       /\ Scanner.cancelled s' = Scanner.cancelled s)).
Proof.
  split.
  - intros env task. unfold scan_result.
    destruct (dial env task) as [|err]; simpl; [discriminate|].
    destruct (is_net_Error err && Timeout err); discriminate.
  - intros e s i task err Hw Hd Hnt r. subst r.
    assert (Hi : (i < length (Scanner.workers s))%nat)
      by (eapply lookup_lt_Some; eassumption).
    unfold scan_result. rewrite Hd, Hnt. simpl.
    repeat split.
    + unfold Scanner.worker_step. rewrite Hw. unfold scan_result. rewrite Hd, Hnt.
      reflexivity.
    + intros Hc Hlen. unfold Scanner.worker_step. rewrite Hw.
      unfold scan_result. rewrite Hd, Hnt.
      unfold Scanner.worker_step, Scanner.set_worker. simpl.
      rewrite list_lookup_insert_eq by assumption.
      unfold chan_send. rewrite Hc.
      destruct (Nat.ltb_spec (length (buf (Scanner.resultChan s)))
                  (cap (Scanner.resultChan s))); [|lia].
      simpl. eexists. split; [reflexivity|]. simpl.
      rewrite list_lookup_insert_eq by (rewrite length_insert; assumption).
      repeat split.
Qed.

Lemma exhaustion_yields_closed_outcome_witness :
  let e := Scanner.mkEnv
             (mkProbeEnv
                (fun _ => DialErr (mkDialError true false
                                     "dial tcp 10.0.0.1:80: socket: too many open files"))
                (fun _ => 0) (fun _ => 3))
             None 9 in
  let t := mkTask "10.0.0.1" 80 in
  let s := Scanner.mkSession (Scanner.mkConfig 1 0 "text" false) ["10.0.0.1"] [80] None
             false (make_chan 10) (make_chan 1000) (Result.NewCollector "text" false 0)
             [WDial t] Scanner.FRecv Scanner.PNotStarted (Scanner.OGenCheck []) in
  Result.RStatus (scan_result (Scanner.probes e) t) = Result.StatusClosed
  /\ exists s', Scanner.run e [Scanner.LWorker 0%nat; Scanner.LWorker 0%nat] s = Next s'
                /\ Scanner.workers s' !! 0%nat = Some WSelect.
Proof.
  intros e t s.
  destruct (proj2 exhaustion_yields_closed_outcome e s 0%nat t
              (mkDialError true false
                 "dial tcp 10.0.0.1:80: socket: too many open files")
              eq_refl eq_refl eq_refl)
    as (Hst & _ & _ & _ & _ & Hgo).
  split; [exact Hst|].
  destruct Hgo as (s' & Hrun & Hw & _); [reflexivity | simpl; lia |].
  exists s'. split; assumption.
Defined.

End ProbeWorker.

(** ** The rate limiter's interval *)

Section RateLimiter.
Import Scanner.

(** C10. For a rate limit R > 0 the interval between task submissions is
    computed by integer division as floor(10^9 / R) nanoseconds. R intervals
    never exceed a second and, whenever R does not divide 10^9, are shorter
    than a second: the pacing is then faster than one task per 1/R seconds.
    For R > 10^9 the interval is 0, which is not a positive ticker
    interval. *)
Theorem interval_is_floor_division :
  forall R : Z, 0 < R ->
    interval R = 1000000000 / R
    /\ 0 <= interval R
    /\ interval R * R <= 1000000000
    /\ (1000000000 mod R <> 0 -> interval R * R < 1000000000)
    /\ (1000000000 mod R = 0 -> interval R * R = 1000000000)
    /\ (R > 1000000000 -> interval R = 0 /\ New_rateLimiter R = Panic)
    /\ (R <= 1000000000 -> New_rateLimiter R = Next (Some (interval R))).
Proof.
  intros R HR. unfold interval, Second.
  rewrite Z.quot_div_nonneg by lia.
  pose proof (Z.div_mod 1000000000 R ltac:(lia)) as Hdm.
  pose proof (Z.mod_pos_bound 1000000000 R HR) as Hm.
  assert (Hq : 0 <= 1000000000 / R) by (apply Z.div_pos; lia).
  split; [reflexivity|]. split; [assumption|].
  split; [nia|]. split; [intros; nia|]. split; [intros; nia|].
  unfold New_rateLimiter, NewTicker, interval, Second.
  rewrite Z.quot_div_nonneg by lia.
  destruct (Z.gtb_spec R 0); [|lia].
  split.
  - intros Hbig. rewrite Z.div_small by lia. split; reflexivity.
  - intros Hle.
    assert (1 <= 1000000000 / R) by (apply Z.div_le_lower_bound; lia).
    destruct (Z.leb_spec (1000000000 / R) 0); [lia | reflexivity].
Qed.

Lemma interval_is_floor_division_witness :
  interval 3 = 333333333 /\ interval 3 * 3 < 1000000000
  /\ interval 2000000000 = 0 /\ New_rateLimiter 2000000000 = Panic
  /\ New_rateLimiter 500 = Next (Some 2000000).
Proof.
  destruct (interval_is_floor_division 3 ltac:(lia)) as (H1 & _ & _ & H2 & _).
  destruct (interval_is_floor_division 2000000000 ltac:(lia))
    as (_ & _ & _ & _ & _ & H3 & _).
  destruct (interval_is_floor_division 500 ltac:(lia))
    as (_ & _ & _ & _ & _ & _ & H4).
  split; [rewrite H1; reflexivity|].
  split; [apply H2; vm_compute; discriminate|].
  destruct H3 as (H3a & H3b); [lia|].
  split; [exact H3a|]. split; [exact H3b|].
  rewrite H4 by lia. reflexivity.
Defined.

End RateLimiter.

(** ** The order of the results *)

Section ResultOrder.
Import Result.

Lemma ascii_compare_lt_trans a b c :
  Ascii.compare a b = Lt -> Ascii.compare b c = Lt -> Ascii.compare a c = Lt.
Proof. unfold Ascii.compare. rewrite !N.compare_lt_iff. lia. Qed.

Lemma string_compare_refl s : String.compare s s = Eq.
Proof.
  induction s as [|a s IH]; simpl; [reflexivity|].
  unfold Ascii.compare. rewrite N.compare_refl. exact IH.
Qed.

Lemma string_compare_lt_trans s1 : forall s2 s3,
  String.compare s1 s2 = Lt -> String.compare s2 s3 = Lt -> String.compare s1 s3 = Lt.
Proof.
  induction s1 as [|a s1 IH]; intros [|b s2] [|c s3]; simpl; try congruence.
  destruct (Ascii.compare a b) eqn:Hab; destruct (Ascii.compare b c) eqn:Hbc;
    try congruence.
  - apply Ascii.compare_eq_iff in Hab, Hbc. subst.
    unfold Ascii.compare. rewrite N.compare_refl. apply IH.
  - apply Ascii.compare_eq_iff in Hab. subst. rewrite Hbc. reflexivity.
  - apply Ascii.compare_eq_iff in Hbc. subst. rewrite Hab. reflexivity.
  - rewrite (ascii_compare_lt_trans _ _ _ Hab Hbc). reflexivity.
Qed.

Lemma string_compare_gt_lt s1 s2 :
  String.compare s1 s2 = Gt <-> String.compare s2 s1 = Lt.
Proof.
  rewrite (String.compare_antisym s2 s1).
  destruct (String.compare s1 s2); simpl; split; congruence.
Qed.

Lemma less_key_compare a b :
  less a b = match key_compare a b with Lt => true | _ => false end.
Proof.
  unfold less, key_compare, String.ltb.
  destruct (String.eqb_spec (IP a) (IP b)) as [E|N]; simpl.
  - rewrite E, string_compare_refl. unfold Z.ltb. reflexivity.
  - destruct (String.compare (IP a) (IP b)) eqn:Hc; try reflexivity.
    apply String.compare_eq_iff in Hc. contradiction.
Qed.

Lemma key_compare_gt_lt a b : key_compare a b = Gt <-> key_compare b a = Lt.
Proof.
  unfold key_compare.
  destruct (String.compare (IP a) (IP b)) eqn:Hab.
  - apply String.compare_eq_iff in Hab. rewrite Hab, string_compare_refl.
    rewrite Z.compare_gt_iff, Z.compare_lt_iff. reflexivity.
  - assert (String.compare (IP b) (IP a) = Gt) as -> by (apply string_compare_gt_lt; assumption).
    split; congruence.
  - apply string_compare_gt_lt in Hab. rewrite Hab. split; reflexivity.
Qed.

Lemma key_compare_lt_trans a b c :
  key_compare a b = Lt -> key_compare b c <> Gt -> key_compare a c = Lt.
Proof.
  unfold key_compare.
  destruct (String.compare (IP a) (IP b)) eqn:Hab; try discriminate;
    destruct (String.compare (IP b) (IP c)) eqn:Hbc; try congruence.
  - apply String.compare_eq_iff in Hab, Hbc. rewrite Hab, Hbc, string_compare_refl.
    rewrite !Z.compare_lt_iff. intros H1 H2. 
    destruct (Z.compare_spec (Port b) (Port c)); try lia. congruence.
  - apply String.compare_eq_iff in Hab. rewrite Hab, Hbc. reflexivity.
  - apply String.compare_eq_iff in Hbc. rewrite <- Hbc, Hab. reflexivity.
  - rewrite (string_compare_lt_trans _ _ _ Hab Hbc). reflexivity.
Qed.

Lemma key_le_iff a b : key_le a b <-> key_compare a b <> Gt.
Proof.
  unfold key_le. rewrite less_key_compare, key_compare_gt_lt.
  destruct (key_compare b a); split; congruence.
Qed.

#[local] Instance key_le_total : Total key_le.
Proof.
  intros a b. rewrite !key_le_iff.
  destruct (key_compare a b) eqn:Hab; [left; congruence | left; congruence |].
  right. apply key_compare_gt_lt in Hab. congruence.
Qed.

#[local] Instance key_le_trans : Transitive key_le.
Proof.
  intros a b c. rewrite !key_le_iff. intros Hab Hbc Hac.
  apply key_compare_gt_lt in Hac.
  assert (Hcb : key_compare c b = Lt).
  { apply (key_compare_lt_trans c a b Hac). assumption. }
  apply key_compare_gt_lt in Hcb. contradiction.
Qed.

Lemma sortSlice_sorted rs : StronglySorted key_le (sortSlice rs).
Proof. apply StronglySorted_merge_sort; apply _. Qed.

Lemma sortSlice_perm rs : sortSlice rs ≡ₚ rs.
Proof. apply merge_sort_Permutation. Qed.

End ResultOrder.

(** ** Invariants of a scan session *)

Section SessionInvariants.
Import Worker Scanner.

Variable e : env.
Variable cfg : Config.
Variable tg : list string.
Variable ps : list Z.

Abbreviation T := (all_tasks tg ps).

Lemma count_status_perm st rs1 rs2 :
  rs1 ≡ₚ rs2 -> Aggregator.count_status st rs1 = Aggregator.count_status st rs2.
Proof.
  induction 1 as [|x l l' _ IH|x y l|l l' l'' _ IH1 _ IH2]; simpl; try lia.
Qed.

Lemma folded_perm rs1 rs2 s :
  rs1 ≡ₚ rs2 -> Aggregator.folded rs1 s -> Aggregator.folded rs2 s.
Proof.
  intros Hp (Ht & Ho & Hc & Hf & He). unfold Aggregator.folded.
  rewrite <- !(count_status_perm _ _ _ Hp), <- (Permutation_length Hp). auto.
Qed.

Ltac forall_crush :=
  repeat match goal with
  | H : Forall _ (_ :: _) |- _ => apply Forall_cons_1 in H; destruct H
  | |- Forall _ (_ ++ _) => apply Forall_app_2
  | |- Forall _ (_ :: _) => constructor
  | |- Forall _ [] => constructor
  | |- Forall _ (<[_ := _]> _) => apply Forall_insert
  end; simpl; auto.

Ltac open_inv H :=
  destruct H as (Hcfg & Htg & Hps & Hfmt & (Ppend & Ptask & Pwork & Pres & Pfwd & Pfly & Pcol)
                 & Hfold & Hpast & Hsorted).

Ltac close_inv :=
  unfold session_inv, provenance; simpl;
  repeat match goal with |- _ /\ _ => split end; simpl;
  repeat match goal with H : buf _ = _ |- _ => rewrite !H end;
  auto; try discriminate.

Lemma orch_step_inv s s' :
  orch_step e s = Next s' -> session_inv e cfg tg ps s -> session_inv e cfg tg ps s'.
Proof.
  intros Hs Hinv. open_inv Hinv. unfold orch_step in Hs.
  destruct (orch s) as [|ts|ts|ts|err|err|err|err|err|err|ret] eqn:Hpc; simpl in *.
  - inversion Hs; subst s'; clear Hs. close_inv.
    + apply Forall_forall. rewrite Htg, Hps. auto.
    + apply Forall_replicate. exact I.
  - destruct ts as [|t ts].
    + inversion Hs; subst s'; clear Hs. close_inv.
    + destruct (cancelled s); [inversion Hs; subst s'; clear Hs; close_inv|].
      destruct (rateLimiter s); inversion Hs; subst s'; clear Hs; close_inv.
  - inversion Hs; subst s'; clear Hs. close_inv.
  - destruct ts as [|t ts]; [discriminate|].
    unfold lift, chan_send in Hs. destruct (closed (taskChan s)); [discriminate|].
    destruct (length (buf (taskChan s)) <? cap (taskChan s))%nat; [|discriminate].
    inversion Hs; subst s'; clear Hs. close_inv; forall_crush.
  - unfold lift, chan_close in Hs. destruct (closed (taskChan s)); [discriminate|].
    inversion Hs; subst s'; clear Hs.
    destruct (Verbose (config s)); close_inv.
  - destruct (progress s); try discriminate. inversion Hs; subst s'; clear Hs. close_inv.
  - unfold lift, chan_close in Hs. destruct (closed (resultChan s)); [discriminate|].
    inversion Hs; subst s'; clear Hs. close_inv.
  - unfold lift in Hs.
    destruct (Result.Close_channel (collector s)) as [c| |] eqn:Hc; try discriminate.
    apply Close_channel_spec in Hc as (_ & ->).
    inversion Hs; subst s'; clear Hs. close_inv.
  - unfold lift in Hs.
    destruct (Result.Close_wait (collector s) (close_time e)) as [c| |] eqn:Hc;
      try discriminate.
    pose proof Hc as Hc'. unfold Result.Close_wait in Hc'.
    apply Close_wait_spec in Hc as (Hd1 & Hd2 & Hres & Hch & Ht & Ho & Hcp & Hfi & He).
    destruct (Result.doneChan_closed (collector s)); [|discriminate].
    inversion Hc'; subst c; clear Hc'.
    inversion Hs; subst s'; clear Hs. close_inv.
  - unfold Result.WriteResults in Hs.
    assert (Hperm := sortSlice_perm (Result.results (collector s))).
    assert (Hd : Result.collect (collector s) = Result.CollectDone) by auto.
    destruct (Result.write_status _ _); inversion Hs; subst s'; clear Hs; close_inv;
      try (unfold Aggregator.in_flight in *; simpl; assumption);
      try (rewrite Hperm; assumption);
      try (eapply folded_perm; [symmetry; exact Hperm | assumption]);
      try (intros _; apply sortSlice_sorted).
  - discriminate.
Qed.

Lemma orch_done_step_inv s s' :
  orch_done_step s = Next s' -> session_inv e cfg tg ps s -> session_inv e cfg tg ps s'.
Proof.
  intros Hs Hinv. open_inv Hinv. unfold orch_done_step in Hs.
  destruct (cancelled s); [|discriminate].
  destruct (orch s) eqn:Hpc; try discriminate; inversion Hs; subst s'; clear Hs;
    simpl in *; close_inv; rewrite Hpc in *; auto.
Qed.

Lemma scan_result_from_task t : t ∈ T -> from_task e T (scan_result (probes e) t).
Proof. intros Ht. exists t. auto. Qed.

Lemma worker_step_inv i s s' :
  worker_step e i s = Next s' -> session_inv e cfg tg ps s -> session_inv e cfg tg ps s'.
Proof.
  intros Hs Hinv. open_inv Hinv. unfold worker_step in Hs.
  destruct (workers s !! i) as [w|] eqn:Hw; [|discriminate].
  pose proof (Forall_lookup_1 _ _ _ _ Pwork Hw) as Hwok.
  destruct w as [|task|r|]; simpl in Hwok.
  - unfold chan_recv in Hs. destruct (buf (taskChan s)) as [|t rest] eqn:Hb.
    + destruct (closed (taskChan s)); inversion Hs; subst s'; clear Hs.
      close_inv; forall_crush.
    + inversion Hs; subst s'; clear Hs. close_inv; forall_crush.
  - inversion Hs; subst s'; clear Hs. close_inv; forall_crush.
    apply scan_result_from_task; assumption.
  - unfold lift, chan_send in Hs. destruct (closed (resultChan s)); [discriminate|].
    destruct (length (buf (resultChan s)) <? cap (resultChan s))%nat; [|discriminate].
    inversion Hs; subst s'; clear Hs. close_inv; forall_crush.
  - discriminate.
Qed.

Lemma worker_done_step_inv i s s' :
  worker_done_step i s = Next s' -> session_inv e cfg tg ps s -> session_inv e cfg tg ps s'.
Proof.
  intros Hs Hinv. open_inv Hinv. unfold worker_done_step in Hs.
  destruct (workers s !! i) as [[| | |]|]; try discriminate.
  destruct (cancelled s); inversion Hs; subst s'; clear Hs. close_inv; forall_crush.
Qed.

Lemma forward_step_inv s s' :
  forward_step s = Next s' -> session_inv e cfg tg ps s -> session_inv e cfg tg ps s'.
Proof.
  intros Hs Hinv. open_inv Hinv. unfold forward_step in Hs.
  destruct (forwarder s) as [| |r|] eqn:Hf; try discriminate; simpl in Pfwd.
  - unfold chan_recv in Hs. destruct (buf (resultChan s)) as [|r rest] eqn:Hb.
    + destruct (closed (resultChan s)); inversion Hs; subst s'; clear Hs. close_inv.
    + inversion Hs; subst s'; clear Hs. close_inv; forall_crush.
  - unfold lift in Hs.
    destruct (Result.Submit (collector s) r) as [c| |] eqn:Hc; try discriminate.
    apply Submit_spec in Hc as (Hopen & ->).
    inversion Hs; subst s'; clear Hs. close_inv.
    unfold Aggregator.in_flight in *. simpl.
    destruct (Result.collect (collector s)); forall_crush.
Qed.

Lemma collect_step_session_inv s c :
  Result.collect_step (collector s) = Next c ->
  session_inv e cfg tg ps s -> session_inv e cfg tg ps (set_collector s c).
Proof.
  intros Hs Hinv. open_inv Hinv. unfold Result.collect_step, chan_recv in Hs.
  destruct (Result.collect (collector s)) as [|r|] eqn:Hc.
  - destruct (buf (Result.resultChan (collector s))) as [|r rest] eqn:Hb.
    + destruct (closed (Result.resultChan (collector s)));
        inversion Hs; subst c; clear Hs.
      close_inv. unfold Aggregator.in_flight in *. simpl. rewrite Hb. constructor.
    + inversion Hs; subst c; clear Hs.
      unfold Aggregator.in_flight in *. rewrite Hc, Hb in Pfly.
      close_inv;
        intros Hr; destruct (orch s); try discriminate;
        specialize (Hpast eq_refl); discriminate.
  - inversion Hs; subst c; clear Hs.
    unfold Aggregator.in_flight in *. rewrite Hc in Pfly.
    close_inv; forall_crush.
    all: try (apply updateSummary_folded; assumption).
    all: intros Hr; destruct (orch s); try discriminate;
      specialize (Hpast eq_refl); discriminate.
  - discriminate.
Qed.

Lemma progress_step_inv s s' :
  progress_step s = Next s' -> session_inv e cfg tg ps s -> session_inv e cfg tg ps s'.
Proof.
  intros Hs Hinv. open_inv Hinv. unfold progress_step in Hs.
  destruct (progress s); try discriminate.
  destruct (_ >=? _); inversion Hs; subst s'; clear Hs; close_inv.
Qed.

Lemma progress_done_step_inv s s' :
  progress_done_step s = Next s' -> session_inv e cfg tg ps s -> session_inv e cfg tg ps s'.
Proof.
  intros Hs Hinv. open_inv Hinv. unfold progress_done_step in Hs.
  destruct (progress s); try discriminate.
  destruct (cancelled s); inversion Hs; subst s'; clear Hs; close_inv.
Qed.

Lemma step_session_inv l s s' :
  step e l s = Next s' -> session_inv e cfg tg ps s -> session_inv e cfg tg ps s'.
Proof.
  destruct l; simpl.
  - intros Hs Hinv. inversion Hs; subst s'. open_inv Hinv. close_inv.
  - apply orch_step_inv.
  - apply orch_done_step_inv.
  - apply worker_step_inv.
  - apply worker_done_step_inv.
  - apply forward_step_inv.
  - unfold lift. destruct (Result.collect_step (collector s)) eqn:Hc; try discriminate.
    intros Hs. inversion Hs; subst s'. apply collect_step_session_inv. assumption.
  - apply progress_step_inv.
  - apply progress_done_step_inv.
Qed.

Lemma run_session_inv sched : forall s s',
  run e sched s = Next s' -> session_inv e cfg tg ps s -> session_inv e cfg tg ps s'.
Proof.
  induction sched as [|l sched IH]; intros s s' Hrun Hinv; simpl in Hrun.
  - inversion Hrun; subst s'; assumption.
  - destruct (step e l s) as [s1| |] eqn:Hs; try discriminate.
    eapply IH; [eassumption|]. eapply step_session_inv; eassumption.
Qed.

Lemma New_session_inv now s0 :
  New cfg tg ps now = Next s0 -> session_inv e cfg tg ps s0.
Proof.
  unfold New. destruct (New_rateLimiter (RateLimit cfg)); try discriminate.
  intros H; inversion H; subst s0; clear H. close_inv. apply folded_nil.
Qed.

End SessionInvariants.

Lemma from_task_known e T r : Scanner.from_task e T r -> Aggregator.known r.
Proof.
  intros (t & _ & ->).
  unfold Aggregator.known, Result.known_status, Worker.scan_result.
  destruct (Worker.dial (Scanner.probes e) t) as [|err]; simpl; [auto|].
  destruct (Worker.is_net_Error err && Worker.Timeout err); auto.
Qed.

(** ** The accounting of the aggregator *)

Section Accounting.
Import Result Aggregator.

(** C1. Whatever the number N of outcomes submitted and whatever the
    interleaving of the concurrent submitters, of the collecting goroutine
    and of the caller of Close, once Close has returned the snapshot has
    TotalScanned = N and OpenPorts + ClosedPorts + Filtered + Errors = N;
    each single fold of an outcome into the summary keeps the counters
    adding up to the total; and in a scan, whose outcomes are those the
    workers build, every snapshot has the counters adding up to the total,
    which is the number of results collected. Outcomes carry one of the four
    statuses, and N is a number of results a slice can hold (at most the
    largest int). *)
Theorem aggregator_accounting :
  (forall (subs : list (list Result)) fmt verb now sched h,
      Forall (Forall known) subs ->
      run sched (init subs fmt verb now) = Next h ->
      closer h = CloseReturned ->
      Z.of_nat (submissions sched) <= max_int ->
      TotalScanned (GetSummary (coll h)) = Z.of_nat (submissions sched)
      /\ counters (GetSummary (coll h)) = Z.of_nat (submissions sched)
      /\ length (GetResults (coll h)) = submissions sched)
  /\ (forall s r,
        known r -> balanced s -> 0 <= TotalScanned s < max_int ->
        counters (updateSummary s r) = TotalScanned (updateSummary s r)
        /\ TotalScanned (updateSummary s r) = TotalScanned s + 1)
  /\ (forall e cfg tg ps now s0 sched s,
        Scanner.New cfg tg ps now = Next s0 ->
        Scanner.run e sched s0 = Next s ->
        Z.of_nat (length (Scanner.GetResults s)) <= max_int ->
        counters (Scanner.GetSummary s) = TotalScanned (Scanner.GetSummary s)
        /\ TotalScanned (Scanner.GetSummary s)
           = Z.of_nat (length (Scanner.GetResults s))).
Proof.
  split; [|split].
  - intros subs fmt verb now sched h Hsubs Hrun Hret Hn.
    destruct (run_invariants sched _ _ Hrun) as ((Hc & Hd) & (Hkr & _) & Hacc).
    { split; [split|]; simpl; [apply folded_nil | discriminate | discriminate]. }
    { repeat split; simpl; auto. }
    specialize (Hd Hret). destruct Hc as (Hf & Hdone).
    destruct (Hdone Hd) as (Hb & _).
    unfold accounted, in_flight in Hacc. rewrite Hd, Hb in Hacc. simpl in Hacc.
    assert (Hlen : length (results (coll h)) = submissions sched) by lia.
    destruct (folded_totals _ _ Hf Hkr) as (Ht & Hbal); [rewrite Hlen; assumption|].
    unfold GetSummary, GetResults. destruct Hbal as (_ & _ & _ & _ & Hsum).
    rewrite Hsum, Ht, Hlen. auto.
  - intros s r Hr Hb Ht.
    destruct (updateSummary_balanced s r Hr Hb Ht) as ((_ & _ & _ & _ & Hsum) & Htot).
    auto.
  - intros e cfg tg ps now s0 sched s H0 Hrun Hlen.
    pose proof (New_session_inv e cfg tg ps now s0 H0) as I0.
    pose proof (run_session_inv e cfg tg ps sched s0 s Hrun I0) as I1.
    destruct I1 as (_ & _ & _ & _ & (_ & _ & _ & _ & _ & _ & Pcol) & Hfold & _).
    destruct (folded_totals _ _ Hfold) as (Ht & Hbal); [| exact Hlen |].
    { eapply Forall_impl; [exact Pcol|]. intros r. apply from_task_known. }
    destruct Hbal as (_ & _ & _ & _ & Hsum).
    unfold Scanner.GetSummary, Scanner.GetResults, GetSummary, GetResults.
    rewrite Hsum, Ht. auto.
Qed.

Lemma aggregator_accounting_witness :
  let r st := mkResult "10.0.0.1" 80 st 0 5 "" in
  let subs := [[r StatusOpen; r StatusClosed]; [r StatusFiltered]] in
  let sched := [LSubmit 0; LSubmit 1; LCollect; LSubmit 0; LCollect; LClose 7;
                LCollect; LCollect; LCollect; LCollect; LCollect; LClose 9] in
  match run sched (init subs "text" false 1) with
  | Next h =>
      TotalScanned (GetSummary (coll h)) = 3
      /\ counters (GetSummary (coll h)) = 3
      /\ length (GetResults (coll h)) = 3%nat
  | _ => False
  end
  /\ counters (updateSummary (mkSummary 2 1 1 0 0 0 0 0) (r StatusError)) = 3
  /\ match Scenario.two_task_scan with
     | Next s0 =>
         match Scanner.run Scenario.refusing_env Scenario.first_task_done s0 with
         | Next s => TotalScanned (Scanner.GetSummary s) = 1
                     /\ counters (Scanner.GetSummary s) = 1
         | _ => False
         end
     | _ => False
     end.
Proof.
  intros r subs sched. split; [|split].
  - pose proof (proj1 aggregator_accounting subs "text" false 1 sched) as H.
    destruct (run sched (init subs "text" false 1)) as [h| |] eqn:E.
    + apply H.
      * repeat match goal with |- Forall _ _ => constructor end;
          unfold known, known_status; simpl; auto.
      * reflexivity.
      * vm_compute in E. inversion E. reflexivity.
      * vm_compute. discriminate.
    + vm_compute in E. discriminate.
    + vm_compute in E. discriminate.
  - destruct (proj1 (proj2 aggregator_accounting) (mkSummary 2 1 1 0 0 0 0 0)
                (r StatusError))
      as (Hsum & Htot).
    + unfold known, known_status; simpl; auto.
    + unfold balanced, counters; simpl; lia.
    + unfold max_int; simpl; lia.
    + rewrite Hsum, Htot. reflexivity.
  - destruct Scenario.two_task_scan as [s0| |] eqn:H0;
      try (vm_compute in H0; discriminate).
    destruct (Scanner.run _ _ s0) as [s| |] eqn:H1;
      try (vm_compute in H0; inversion H0; subst; vm_compute in H1; discriminate).
    destruct (proj2 (proj2 aggregator_accounting) Scenario.refusing_env _ _ _ _ s0
                Scenario.first_task_done s H0 H1) as (Hsum & Htot).
    + vm_compute in H0; inversion H0; subst. vm_compute in H1; inversion H1; subst.
      vm_compute. discriminate.
    + rewrite Hsum, Htot.
      vm_compute in H0; inversion H0; subst. vm_compute in H1; inversion H1; subst.
      split; reflexivity.
Defined.

End Accounting.

(** ** Shutdown and cancellation of a scan *)

Section Shutdown.
Import Worker Scanner Scenario.

(** C3: the scan of one task, evaluated. [Scan] can return [nil], with an
    empty snapshot and no result, while the worker holds the outcome of the
    task it pulled; the worker's next step, the send of that outcome on the
    result channel that [Scan] has closed, panics. *)
Theorem Scan_closes_before_workers_finish :
  exists s0 s r,
    one_task_scan = Next s0
    /\ run refusing_env early_close_schedule s0 = Next s
    /\ orch s = OReturned None
    /\ workers s = [WSend r]
    /\ r = scan_result (probes refusing_env) (mkTask "127.0.0.1" 80)
    /\ GetResults s = []
    /\ Result.TotalScanned (GetSummary s) = 0
    /\ closed (resultChan s) = true
    /\ step refusing_env (LWorker 0) s = Panic.
Proof.
  eexists. eexists. eexists.
  split; [vm_compute; reflexivity|].
  split; [vm_compute; reflexivity|].
  repeat split.
Qed.

(** The same scan with the worker done in time: the outcome is in the hands
    of [collectResults] when [Scan] closes the collector and returns with
    an empty snapshot; the [Submit] of the outcome then panics. *)
Example Scan_closes_collector_before_forwarding :
  exists s0 s r,
    one_task_scan = Next s0
    /\ run refusing_env early_collector_close_schedule s0 = Next s
    /\ orch s = OReturned None
    /\ forwarder s = FSubmit r
    /\ r = scan_result (probes refusing_env) (mkTask "127.0.0.1" 80)
    /\ GetResults s = []
    /\ Result.TotalScanned (GetSummary s) = 0
    /\ step refusing_env LForward s = Panic.
Proof.
  eexists. eexists. eexists.
  split; [vm_compute; reflexivity|].
  split; [vm_compute; reflexivity|].
  repeat split.
Qed.

Lemma step_orch_other e l s s' :
  step e l s = Next s' -> l <> LOrch -> l <> LOrchDone -> orch s' = orch s.
Proof.
  intros Hs H1 H2. destruct l; try congruence; simpl in Hs;
    unfold worker_step, worker_done_step, forward_step, progress_step,
      progress_done_step, lift, chan_recv, chan_send in Hs;
    repeat case_match; simplify_eq; reflexivity.
Qed.

(** Once [generateTasks] has returned [err], [Scan] returns [err], or the
    error of [WriteResults] if writing fails. *)
Lemma step_decided e cfg tg ps err l s s' :
  session_inv e cfg tg ps s ->
  step e l s = Next s' -> decided e err s -> decided e err s'.
Proof.
  intros Hinv Hs Hd.
  pose proof (step_session_inv e cfg tg ps l s s' Hs Hinv) as Hinv'.
  destruct Hinv as (_ & _ & _ & Hfmt & _).
  destruct Hinv' as (_ & _ & _ & Hfmt' & _).
  unfold decided in *. rewrite Hfmt'. rewrite Hfmt in Hd.
  destruct l;
    try (erewrite step_orch_other by (try eassumption; discriminate); exact Hd).
  - simpl in Hs. unfold orch_step, lift, chan_send, chan_close, Result.Close_channel,
      Result.Close_wait, Result.WriteResults, chan_close in Hs.
    unfold final_ret. rewrite <- Hfmt.
    destruct (orch s); try contradiction; subst;
      repeat case_match; simplify_eq; simpl in *; simplify_eq;
      try reflexivity; try congruence.
  - simpl in Hs. unfold orch_done_step in Hs.
    destruct (cancelled s); [|discriminate].
    destruct (orch s); try discriminate; contradiction.
Qed.

Lemma run_decided e cfg tg ps err sched : forall s s',
  session_inv e cfg tg ps s ->
  run e sched s = Next s' -> decided e err s -> decided e err s'.
Proof.
  induction sched as [|l sched IH]; intros s s' Hinv Hrun Hd; simpl in Hrun.
  - inversion Hrun; subst; assumption.
  - destruct (step e l s) as [s1| |] eqn:Hs; try discriminate.
    eapply IH; [| eassumption |].
    + eapply step_session_inv; eassumption.
    + eapply step_decided; eassumption.
Qed.

(** C4, as written, fails. The context is cancelled while [Pool.Submit] is
    at its [select] for the only task; the send case is taken, the loop
    ends, [Scan] returns [nil] and the exit code is 0. *)
Lemma cancel_missed_at_last_submit : ~ AsWritten.cancel_always_reported.
Proof.
  intros H.
  destruct one_task_scan as [s0| |] eqn:H0; try (vm_compute in H0; discriminate).
  destruct (run refusing_env before_last_submit s0) as [s1| |] eqn:H1;
    try (vm_compute in H0; inversion H0; subst; vm_compute in H1; discriminate).
  destruct (run refusing_env (LCancel :: send_wins_schedule) s1) as [s2| |] eqn:H2;
    try (vm_compute in H0; inversion H0; subst; vm_compute in H1; inversion H1; subst;
         vm_compute in H2; discriminate).
  specialize (H refusing_env _ _ _ _ s0 before_last_submit s1 send_wins_schedule s2 None
                H0 H1).
  vm_compute in H0; inversion H0; subst.
  vm_compute in H1; inversion H1; subst.
  vm_compute in H2; inversion H2; subst.
  destruct H as (Hret & _); [discriminate | reflexivity | reflexivity | discriminate].
Qed.

(** Writing the results fails (the encoder reports an error): [Scan] returns
    the write error although the cancellation was observed, and the exit
    code is 1. *)
Example Scan_write_error_hides_cancellation :
  let e := mkEnv (probes refusing_env) (Some "write: no space left on device") 2000 in
  match two_task_scan with
  | Next s0 =>
      match run e (first_task_done ++ LOrch :: shutdown_schedule) s0 with
      | Next s =>
          orch s = OReturned (Some (ErrWriteResults
                                      (Result.ErrWriter "write: no space left on device")))
          /\ Main.exit_code (Some (ErrWriteResults
                                     (Result.ErrWriter "write: no space left on device")))
             = 1
      | _ => False
      end
  | _ => False
  end.
Proof. vm_compute. split; reflexivity. Qed.

End Shutdown.

(** ** Expansion of CIDR blocks *)

Example parseCIDR_slash30 :
  Parser.parseCIDR 10 (Net.ParseCIDR (Net.Addr4 [192; 168; 1; 9]) 30)
  = Some (inr [[192; 168; 1; 9]; [192; 168; 1; 10]]).
Proof. vm_compute. reflexivity. Qed.

Example parseCIDR_slash31 :
  Parser.parseCIDR 10 (Net.ParseCIDR (Net.Addr4 [10; 0; 0; 255]) 31)
  = Some (inr [[10; 0; 0; 254]; [10; 0; 0; 255]]).
Proof. vm_compute. reflexivity. Qed.

Example parseCIDR_top_block :
  Parser.parseCIDR 10 (Net.ParseCIDR (Net.Addr4 [255; 255; 255; 255]) 30)
  = Some (inr [[255; 255; 255; 253]; [255; 255; 255; 254]]).
Proof. vm_compute. reflexivity. Qed.

Example parseCIDR_v6_slash126 :
  Parser.parseCIDR 10
    (Net.ParseCIDR (Net.Addr6 [32; 1; 13; 184; 0; 0; 0; 0; 0; 0; 0; 0; 0; 0; 0; 0]) 126)
  = Some (inr [[32; 1; 13; 184; 0; 0; 0; 0; 0; 0; 0; 0; 0; 0; 0; 1];
               [32; 1; 13; 184; 0; 0; 0; 0; 0; 0; 0; 0; 0; 0; 0; 2]]).
Proof. vm_compute. reflexivity. Qed.

Section ByteValues.
Import Net.

Lemma fold_value b : forall acc,
  fold_left (fun acc c => acc * 256 + c) b acc
  = acc * 256 ^ Z.of_nat (length b) + value b.
Proof.
  unfold value. induction b as [|c b IH]; intros acc; simpl fold_left.
  - simpl. lia.
  - rewrite IH, (IH (0 * 256 + c)). cbn [length].
    rewrite Nat2Z.inj_succ, Z.pow_succ_r by lia. ring.
Qed.

Lemma value_cons c b : value (c :: b) = c * 256 ^ Z.of_nat (length b) + value b.
Proof. unfold value at 1. simpl fold_left. rewrite fold_value. ring. Qed.

Lemma value_snoc b c : value (b ++ [c]) = value b * 256 + c.
Proof. unfold value. rewrite fold_left_app. reflexivity. Qed.

Lemma value_bound b :
  Forall byte_range b -> 0 <= value b < 256 ^ Z.of_nat (length b).
Proof.
  induction 1 as [|c b Hc _ IH].
  - unfold value; simpl. lia.
  - rewrite value_cons. cbn [length]. rewrite Nat2Z.inj_succ, Z.pow_succ_r by lia.
    unfold byte_range in Hc. 
    assert (0 < 256 ^ Z.of_nat (length b)) by (apply Z.pow_pos_nonneg; lia).
    nia.
Qed.

Lemma value_inj a : forall b,
  length a = length b -> Forall byte_range a -> Forall byte_range b ->
  value a = value b -> a = b.
Proof.
  induction a as [|x a IH]; intros [|y b] Hlen Ha Hb Hv; try discriminate; [reflexivity|].
  inversion Ha as [|? ? Hx Ha']; inversion Hb as [|? ? Hy Hb']; subst.
  injection Hlen as Hlen. rewrite !value_cons, <- Hlen in Hv.
  pose proof (value_bound a Ha') as Ba. pose proof (value_bound b Hb') as Bb.
  rewrite <- Hlen in Bb.
  assert (x = y) by nia. subst y.
  f_equal. apply IH; auto. lia.
Qed.

Lemma land_byte_range x y : byte_range x -> byte_range (Z.land x y).
Proof.
  unfold byte_range. intros Hx.
  assert (E : Z.land x y = Z.land x y mod 2 ^ 8).
  { rewrite <- Z.land_ones by lia.
    rewrite <- Z.land_assoc, (Z.land_comm y), Z.land_assoc.
    rewrite Z.land_ones by lia. rewrite (Z.mod_small x) by (simpl; lia). reflexivity. }
  rewrite E. change (2 ^ 8) with 256. apply Z.mod_pos_bound. lia.
Qed.

Lemma zip_land_range a : forall m,
  Forall byte_range a -> Forall byte_range (zip_with Z.land a m).
Proof.
  induction a as [|x a IH]; intros [|y m] Ha; simpl; try constructor.
  - inversion Ha; subst. apply land_byte_range. assumption.
  - inversion Ha; subst. apply IH. assumption.
Qed.

(** [land] on two numbers written in base [2^k]. *)
Lemma land_split k x y A B :
  0 <= k -> 0 <= A < 2 ^ k -> 0 <= B < 2 ^ k ->
  Z.land (x * 2 ^ k + A) (y * 2 ^ k + B) = Z.land x y * 2 ^ k + Z.land A B.
Proof.
  intros Hk HA HB.
  assert (Hpos : 0 < 2 ^ k) by (apply Z.pow_pos_nonneg; lia).
  set (V := Z.land (x * 2 ^ k + A) (y * 2 ^ k + B)).
  assert (Hdiv : V / 2 ^ k = Z.land x y).
  { unfold V. rewrite <- !Z.shiftr_div_pow2, Z.shiftr_land, !Z.shiftr_div_pow2 by lia.
    rewrite !Z.div_add_l by lia. rewrite !Z.div_small by lia. f_equal; lia. }
  assert (Hmod : V mod 2 ^ k = Z.land A B).
  { unfold V. rewrite <- Z.land_ones by lia.
    rewrite <- (Z.land_diag (Z.ones k)).
    rewrite <- Z.land_assoc, (Z.land_assoc (y * 2 ^ k + B)),
      (Z.land_comm (y * 2 ^ k + B) (Z.ones k)), <- Z.land_assoc, Z.land_assoc.
    rewrite !Z.land_ones by lia.
    rewrite !(Z.add_comm (_ * 2 ^ k)), !Z.mod_add by lia.
    rewrite !Z.mod_small by lia. reflexivity. }
  rewrite (Z.div_mod V (2 ^ k)) by lia. rewrite Hdiv, Hmod. ring.
Qed.

Lemma value_land a : forall m,
  length a = length m -> Forall byte_range a -> Forall byte_range m ->
  value (zip_with Z.land a m) = Z.land (value a) (value m).
Proof.
  induction a as [|x a IH]; intros [|y m] Hlen Ha Hm; try discriminate.
  - reflexivity.
  - inversion Ha as [|? ? Hx Ha']; inversion Hm as [|? ? Hy Hm']; subst.
    injection Hlen as Hlen. simpl zip_with. rewrite !value_cons.
    rewrite length_zip_with, <- Hlen, Nat.min_id.
    pose proof (value_bound a Ha') as Ba. pose proof (value_bound m Hm') as Bm.
    rewrite <- Hlen in Bm.
    replace (256 ^ Z.of_nat (length a)) with (2 ^ (8 * Z.of_nat (length a))) in *
      by (rewrite Z.pow_mul_r by lia; reflexivity).
    rewrite land_split by lia. rewrite IH by auto. reflexivity.
Qed.

(** The mask of a prefix of [n] ones among 32 bits clears the low [32 - n]
    bits of a 32-bit number. *)
Lemma land_prefix_mask x k :
  0 <= x < 2 ^ 32 -> 0 <= k <= 32 ->
  Z.land x (Z.ldiff (Z.ones 32) (Z.ones k)) = x / 2 ^ k * 2 ^ k.
Proof.
  intros Hx Hk.
  assert (E : Z.land x (Z.ldiff (Z.ones 32) (Z.ones k))
              = Z.ldiff (Z.land x (Z.ones 32)) (Z.ones k)).
  { apply Z.bits_inj'. intros i Hi.
    rewrite Z.land_spec, !Z.ldiff_spec, Z.land_spec.
    destruct (Z.testbit x i), (Z.testbit (Z.ones 32) i), (Z.testbit (Z.ones k) i);
      reflexivity. }
  rewrite E, Z.land_ones by lia. rewrite Z.mod_small by lia.
  rewrite Z.ldiff_ones_r by lia.
  rewrite Z.shiftr_div_pow2, Z.shiftl_mul_pow2 by lia. reflexivity.
Qed.

Lemma CIDRMask_loop_value n :
  0 <= n <= 32 ->
  let m := CIDRMask_loop 4 n in
  value m = Z.ldiff (Z.ones 32) (Z.ones (32 - n))
  /\ length m = 4%nat /\ Forall byte_range m.
Proof.
  intros Hn m.
  assert (Hall : forallb mask_check (seqZ 0 33) = true) by (vm_compute; reflexivity).
  rewrite forallb_forall in Hall.
  assert (Hin : In n (seqZ 0 33)).
  { apply list_elem_of_In, elem_of_seqZ. lia. }
  specialize (Hall n Hin). unfold mask_check in Hall. fold m in Hall.
  apply andb_prop in Hall as (Hall & Hr). apply andb_prop in Hall as (Hv & Hl).
  split; [apply Z.eqb_eq; assumption|].
  split; [apply Nat.eqb_eq; assumption|].
  rewrite forallb_forall in Hr. apply List.Forall_forall. intros c Hc.
  specialize (Hr c Hc). unfold byte_range. lia.
Qed.

End ByteValues.

Section CIDRExpansion.
Import Net Parser.

Lemma incrementIP_from_last_spec r :
  Forall byte_range r ->
  length (incrementIP_from_last r) = length r
  /\ Forall byte_range (incrementIP_from_last r)
  /\ value (rev (incrementIP_from_last r))
     = (value (rev r) + 1) mod 256 ^ Z.of_nat (length r).
Proof.
  induction 1 as [|c r Hc Hr IH]; [repeat split; constructor|].
  destruct IH as (IHlen & IHrange & IHval).
  assert (Hrev : Forall byte_range (rev r)) by (apply Forall_rev; assumption).
  pose proof (value_bound _ Hrev) as Hb. rewrite length_rev in Hb.
  unfold byte_range in Hc.
  assert (Hpos : 0 < 256 ^ Z.of_nat (length r)) by (apply Z.pow_pos_nonneg; lia).
  cbn [incrementIP_from_last length]. rewrite Nat2Z.inj_succ, Z.pow_succ_r by lia.
  destruct (Z.eq_dec c 255) as [->|Hne].
  - change ((255 + 1) mod 256) with 0. change (0 >? 0) with false. cbv iota.
    cbn [length rev]. rewrite IHlen, !value_snoc, IHval.
    split; [reflexivity|]. split; [constructor; [unfold byte_range; lia | assumption]|].
    replace (value (rev r) * 256 + 255 + 1) with ((value (rev r) + 1) * 256) by ring.
    rewrite (Z.mul_comm 256), Z.mul_mod_distr_r by lia. ring.
  - rewrite (Z.mod_small (c + 1)) by lia.
    destruct (Z.gtb_spec (c + 1) 0); [|lia].
    cbn [length rev]. rewrite !value_snoc.
    split; [reflexivity|]. split; [constructor; [unfold byte_range; lia | assumption]|].
    rewrite Z.mod_small by nia. ring.
Qed.

Lemma incrementIP_spec len ip :
  bytes len ip ->
  bytes len (incrementIP ip)
  /\ value (incrementIP ip) = (value ip + 1) mod 256 ^ Z.of_nat len.
Proof.
  intros (Hlen & Hr). unfold incrementIP, bytes.
  assert (Hrev : Forall byte_range (rev ip)) by (apply Forall_rev; assumption).
  destruct (incrementIP_from_last_spec _ Hrev) as (Hl & Hrange & Hv).
  rewrite length_rev, Hl, length_rev. rewrite rev_involutive, length_rev, Hlen in Hv.
  split; [split; [assumption | apply Forall_rev; assumption]|]. exact Hv.
Qed.

Lemma Contains_loop_spec nn : forall m ip,
  length nn = length m -> length nn = length ip ->
  (Contains_loop nn m ip = true <-> zip_with Z.land nn m = zip_with Z.land ip m).
Proof.
  induction nn as [|x nn IH]; intros [|y m] [|z ip] Hm Hip; try discriminate; simpl.
  - split; reflexivity.
  - injection Hm as Hm. injection Hip as Hip.
    destruct (Z.eqb_spec (Z.land x y) (Z.land z y)) as [E|N].
    + rewrite IH by assumption. split; [intros ->; rewrite E; reflexivity|].
      intros H; inversion H; reflexivity.
    + split; [discriminate | intros H; inversion H; contradiction].
Qed.

Lemma Contains_v4 nn m ip :
  length nn = 4%nat -> length m = 4%nat -> length ip = 4%nat ->
  Contains (mkIPNet nn m) ip = Contains_loop nn m ip.
Proof.
  intros Hn Hm Hi. unfold Contains, networkNumberAndMask, To4. simpl.
  repeat (rewrite ?Hn, ?Hm, ?Hi; simpl). reflexivity.
Qed.

Lemma ParseCIDR_v4 ip4 n :
  length ip4 = 4%nat -> 0 <= n <= 32 ->
  ParseCIDR (Addr4 ip4) n
  = Some (v4InV6Prefix ++ ip4,
          mkIPNet (zip_with Z.land ip4 (CIDRMask_loop 4 n)) (CIDRMask_loop 4 n))
  /\ Mask (v4InV6Prefix ++ ip4) (CIDRMask_loop 4 n)
     = zip_with Z.land ip4 (CIDRMask_loop 4 n).
Proof.
  intros Hlen Hn.
  destruct (CIDRMask_loop_value n Hn) as (_ & Hml & _).
  assert (HM : Mask (v4InV6Prefix ++ ip4) (CIDRMask_loop 4 n)
               = zip_with Z.land ip4 (CIDRMask_loop 4 n)).
  { generalize dependent (CIDRMask_loop 4 n). intros m Hm.
    destruct ip4 as [|a [|b [|c [|d [|]]]]]; try discriminate.
    destruct m as [|m0 [|m1 [|m2 [|m3 [|]]]]]; try discriminate.
    reflexivity. }
  split; [|exact HM].
  unfold ParseCIDR, CIDRMask. cbn [BitLen As16].
  destruct (Z.ltb_spec n 0); [lia|]. destruct (Z.gtb_spec n 32); [lia|].
  cbn [negb andb orb Z.eqb Pos.eqb].
  change (Z.to_nat (32 / 8)) with 4%nat. rewrite HM. reflexivity.
Qed.

Section Block.
Variable ip4 : IP.
Variable n : Z.
Hypothesis Hip4 : bytes 4 ip4.
Hypothesis Hn : 0 <= n <= 32.

Let m := CIDRMask_loop 4 n.
Let base := zip_with Z.land ip4 m.
Let size := block_size n.

Lemma size_pos : 0 < size.
Proof. unfold size, block_size. apply Z.pow_pos_nonneg; lia. Qed.

Lemma size_le : size <= 2 ^ 32.
Proof. unfold size, block_size. apply Z.pow_le_mono_r; lia. Qed.

Lemma value32 ip : bytes 4 ip -> 0 <= value ip < 2 ^ 32.
Proof.
  intros (Hl & Hr). pose proof (value_bound ip Hr) as Hb. rewrite Hl in Hb.
  exact Hb.
Qed.

Lemma masked_value ip :
  bytes 4 ip -> value (zip_with Z.land ip m) = value ip / size * size.
Proof.
  intros Hip. destruct (CIDRMask_loop_value n Hn) as (Hmv & Hml & Hmr).
  destruct Hip as (Hl & Hr).
  unfold m. rewrite value_land by (auto; congruence).
  rewrite Hmv. apply land_prefix_mask; [apply value32; split; assumption | lia].
Qed.

Lemma base_bytes : bytes 4 base.
Proof.
  destruct (CIDRMask_loop_value n Hn) as (_ & Hml & _). destruct Hip4 as (Hl & Hr).
  split.
  - unfold base, m. rewrite length_zip_with, Hl, Hml. reflexivity.
  - apply zip_land_range. assumption.
Qed.

Lemma base_value : value base = block_base ip4 n.
Proof. unfold base. rewrite masked_value by assumption. reflexivity. Qed.

Lemma base_bounds :
  0 <= block_base ip4 n /\ block_base ip4 n + size <= 2 ^ 32
  /\ block_base ip4 n / size * size = block_base ip4 n.
Proof.
  pose proof size_pos as Hs. pose proof (value32 ip4 Hip4) as Hv.
  unfold block_base. fold size.
  assert (Hdiv : 2 ^ 32 = 2 ^ n * size).
  { unfold size, block_size. rewrite <- Z.pow_add_r by lia. f_equal. lia. }
  assert (Hq : 0 <= value ip4 / size < 2 ^ n).
  { split; [apply Z.div_pos; lia|].
    apply Z.div_lt_upper_bound; [lia|]. rewrite Z.mul_comm, <- Hdiv. lia. }
  rewrite Z.div_mul by lia. nia.
Qed.

(** An address is in the network exactly when it has the quotient of the
    base by the block size. *)
Lemma Contains_block ip :
  bytes 4 ip ->
  (Contains (mkIPNet base m) ip = true
   <-> value ip / size = block_base ip4 n / size).
Proof.
  intros Hip. destruct (CIDRMask_loop_value n Hn) as (Hmv & Hml & Hmr).
  pose proof base_bytes as (Hbl & Hbr). pose proof Hip as (Hl & Hr).
  pose proof size_pos as Hs. pose proof base_bounds as (_ & _ & Hbb).
  rewrite Contains_v4 by (unfold m; auto; congruence).
  rewrite Contains_loop_spec by (unfold m; congruence).
  split.
  - intros E. apply (f_equal value) in E.
    fold m in E. rewrite (masked_value ip Hip) in E.
    rewrite (masked_value base base_bytes), base_value, Hbb in E.
    rewrite E. rewrite Z.div_mul by lia. reflexivity.
  - intros E. apply value_inj.
    + rewrite !length_zip_with. unfold m. congruence.
    + apply zip_land_range. assumption.
    + apply zip_land_range. assumption.
    + fold m. rewrite (masked_value ip Hip), (masked_value base base_bytes), base_value.
      rewrite E. reflexivity.
Qed.

(** The loop from the [j]-th address of the block on: it appends the
    addresses up to the end of the block and stops, unless the prefix length
    is 0. *)
Lemma parseCIDR_loop_block (k : nat) : forall j ip ips fuel,
  1 <= n ->
  Z.of_nat k = size - j -> 0 <= j ->
  bytes 4 ip -> value ip = (block_base ip4 n + j) mod 2 ^ 32 ->
  (k < fuel)%nat ->
  exists rest,
    parseCIDR_loop fuel (mkIPNet base m) ip ips = Some (ips ++ rest)
    /\ Forall (bytes 4) rest
    /\ map value rest = seqZ (block_base ip4 n + j) (size - j).
Proof.
  pose proof size_pos as Hs. pose proof base_bounds as (Hb0 & Hb1 & Hbb).
  induction k as [|k IH]; intros j ip ips fuel Hn1 Hk Hj Hip Hv Hfuel.
  - (* the address after the block *)
    assert (j = size) by lia. subst j.
    destruct fuel as [|fuel]; [lia|]. simpl.
    assert (Hout : Contains (mkIPNet base m) ip = false).
    { destruct (Contains (mkIPNet base m) ip) eqn:Hc; [|reflexivity].
      apply (Contains_block ip Hip) in Hc. exfalso.
      assert (Hsz : size <= 2 ^ 31).
      { unfold size, block_size. apply Z.pow_le_mono_r; lia. }
      destruct (Z.eq_dec (block_base ip4 n + size) (2 ^ 32)) as [Ew|Nw].
      - rewrite Ew, Z.mod_same in Hv by lia. rewrite Hv in Hc.
        rewrite Z.div_0_l in Hc by lia.
        assert (block_base ip4 n = 0) by (rewrite <- Hbb, <- Hc; lia). lia.
      - rewrite Z.mod_small in Hv by lia. rewrite Hv in Hc.
        assert (Hq : (block_base ip4 n + size) / size = block_base ip4 n / size + 1).
        { rewrite <- Hbb at 1.
          replace (block_base ip4 n / size * size + size)
            with ((block_base ip4 n / size + 1) * size) by ring.
          apply Z.div_mul. lia. }
        lia. }
    rewrite Hout. exists []. rewrite app_nil_r, seqZ_nil by lia.
    repeat split; constructor.
  - destruct fuel as [|fuel]; [lia|]. simpl.
    assert (Hlt : j < size) by lia.
    rewrite Z.mod_small in Hv by lia.
    assert (Hin : Contains (mkIPNet base m) ip = true).
    { apply (Contains_block ip Hip). rewrite Hv.
      rewrite <- Hbb at 1. rewrite Z.div_add_l by lia.
      rewrite (Z.div_small j) by lia. lia. }
    rewrite Hin.
    destruct (incrementIP_spec 4 ip Hip) as (Hip' & Hv').
    destruct (IH (j + 1) (incrementIP ip) (ips ++ [ip]) fuel) as (rest & Hrun & Hr & Hm);
      try lia; try assumption.
    { rewrite Hv', Hv. change (256 ^ Z.of_nat 4) with (2 ^ 32). f_equal. lia. }
    exists (ip :: rest).
    split; [rewrite <- app_assoc in Hrun; exact Hrun|].
    split; [constructor; assumption|].
    cbn [map]. rewrite Hm, Hv. rewrite (seqZ_cons (block_base ip4 n + j)) by lia.
    f_equal. f_equal; lia.
Qed.

End Block.

Lemma strip_ends_seqZ b size :
  2 <= size ->
  take (Z.to_nat size - 2) (drop 1 (seqZ b size)) = seqZ (b + 1) (size - 2).
Proof.
  intros Hs. rewrite (seqZ_cons b size) by lia. cbn [drop skipn].
  replace (Z.pred size) with ((size - 2) + 1) by lia.
  rewrite seqZ_app by lia. rewrite ?drop_0.
  replace (Z.to_nat size - 2)%nat with (length (seqZ (Z.succ b) (size - 2)))
    by (rewrite length_seqZ; lia).
  rewrite take_app_length. f_equal; lia.
Qed.

(** For an IPv4 block of prefix length 1 to 32 the expansion returns, given
    fuel, exactly the addresses of the block, without the first and the last
    of them when the block has more than 2 addresses. *)
Lemma parseCIDR_v4_block ip4 n :
  bytes 4 ip4 -> 1 <= n <= 32 ->
  exists fuel ips,
    parseCIDR fuel (ParseCIDR (Addr4 ip4) n) = Some (inr ips)
    /\ Forall (bytes 4) ips
    /\ map value ips
       = if 2 <? block_size n
         then seqZ (block_base ip4 n + 1) (block_size n - 2)
         else seqZ (block_base ip4 n) (block_size n).
Proof.
  intros Hip Hn.
  assert (Hn0 : 0 <= n <= 32) by lia.
  destruct (ParseCIDR_v4 ip4 n (proj1 Hip) Hn0) as (Hparse & Hmask).
  pose proof (size_pos n Hn0) as Hs.
  pose proof (base_bounds ip4 n Hip Hn0) as (Hb0 & Hb1 & _).
  destruct (parseCIDR_loop_block ip4 n Hip Hn0 (Z.to_nat (block_size n)) 0
              (zip_with Z.land ip4 (CIDRMask_loop 4 n)) []
              (S (Z.to_nat (block_size n))))
    as (rest & Hrun & Hr & Hm); try lia.
  { apply base_bytes; assumption. }
  { rewrite base_value by assumption. rewrite Z.add_0_r, Z.mod_small; lia. }
  rewrite Z.add_0_r, Z.sub_0_r in Hm. simpl app in Hrun.
  assert (Hlen : length rest = Z.to_nat (block_size n)).
  { rewrite <- (length_map value), Hm, length_seqZ. reflexivity. }
  exists (S (Z.to_nat (block_size n))).
  unfold parseCIDR. rewrite Hparse. cbn [NetMask]. rewrite Hmask, Hrun, Hlen.
  destruct (Z.ltb_spec 2 (block_size n)) as [Hbig|Hsmall].
  - destruct (Nat.ltb_spec 2 (Z.to_nat (block_size n))); [|lia].
    exists (strip_ends rest). split; [reflexivity|].
    unfold strip_ends. split.
    + apply Forall_take, Forall_drop. assumption.
    + rewrite Hlen.
      unfold IP in *.
      rewrite <- (firstn_map value), <- (skipn_map value 1 rest), Hm.
      apply strip_ends_seqZ. lia.
  - destruct (Nat.ltb_spec 2 (Z.to_nat (block_size n))); [lia|].
    exists rest. auto.
Qed.

(** With a prefix length of 0 every address is in the network, also the
    address 0.0.0.0 that follows 255.255.255.255: the loop has no end. *)
Lemma parseCIDR_loop_prefix_zero ip4 (Hip4 : bytes 4 ip4) fuel : forall ip ips,
  bytes 4 ip ->
  parseCIDR_loop fuel
    (mkIPNet (zip_with Z.land ip4 (CIDRMask_loop 4 0)) (CIDRMask_loop 4 0)) ip ips
  = None.
Proof.
  induction fuel as [|fuel IH]; intros ip ips Hip; [reflexivity|].
  cbn [parseCIDR_loop].
  assert (Hin : Contains (mkIPNet (zip_with Z.land ip4 (CIDRMask_loop 4 0))
                            (CIDRMask_loop 4 0)) ip = true).
  { apply (Contains_block ip4 0 Hip4 ltac:(lia) ip Hip).
    pose proof (value32 ip Hip) as Hv.
    pose proof (base_bounds ip4 0 Hip4 ltac:(lia)) as (Hb0 & Hb1 & _).
    change (block_size 0) with (2 ^ 32) in *.
    rewrite !Z.div_small by lia. reflexivity. }
  rewrite Hin. apply IH. apply (incrementIP_spec 4 ip Hip).
Qed.

Lemma parseCIDR_v4_prefix_zero ip4 fuel :
  bytes 4 ip4 -> parseCIDR fuel (ParseCIDR (Addr4 ip4) 0) = None.
Proof.
  intros Hip.
  destruct (ParseCIDR_v4 ip4 0 (proj1 Hip) ltac:(lia)) as (Hparse & Hmask).
  unfold parseCIDR. rewrite Hparse. cbn [NetMask]. rewrite Hmask.
  rewrite parseCIDR_loop_prefix_zero; [reflexivity | assumption |].
  apply base_bytes; [assumption | lia].
Qed.

(** C6: the expansion of 0.0.0.0/0, evaluated. The block has 2^32
    addresses, more than 2, and no amount of fuel makes [parseCIDR] return:
    after 255.255.255.255 the address wraps to 0.0.0.0, which is in the
    block again. *)
Theorem parseCIDR_slash_zero_never_returns :
  forall fuel, parseCIDR fuel (ParseCIDR (Addr4 [0; 0; 0; 0]) 0) = None.
Proof.
  intros fuel. apply parseCIDR_v4_prefix_zero.
  split; [reflexivity|]. repeat constructor; lia.
Qed.

End CIDRExpansion.

(** ** More on port expansion *)

Section PortSets.
Import Parser Expansion.

Lemma first_seen_acc {K : Type} `{EqDecision K} (l : list K) : forall acc,
  NoDup acc ->
  NoDup (first_seen acc l)
  /\ (forall x, x ∈ first_seen acc l <-> x ∈ acc \/ x ∈ l)
  /\ exists new, first_seen acc l = acc ++ new.
Proof.
  induction l as [|x l IH]; intros acc Hnd; simpl.
  - split; [assumption|]. split; [|exists []; rewrite app_nil_r; reflexivity].
    intros y. rewrite elem_of_nil. tauto.
  - destruct (decide (x ∈ acc)) as [Hin|Hnin].
    + destruct (IH acc Hnd) as (H1 & H2 & H3). split; [assumption|]. split; [|assumption].
      intros y. rewrite H2, elem_of_cons. split; [tauto|].
      intros [?|[->|?]]; auto.
    + assert (Hnd' : NoDup (acc ++ [x])).
      { apply NoDup_app. split; [assumption|]. split; [|apply NoDup_singleton].
        intros y Hy Hy'. apply list_elem_of_singleton in Hy'. subst. contradiction. }
      destruct (IH (acc ++ [x]) Hnd') as (H1 & H2 & (new & H3)).
      split; [assumption|]. split.
      * intros y. rewrite H2, elem_of_app, list_elem_of_singleton, elem_of_cons. tauto.
      * exists (x :: new). rewrite H3, <- app_assoc. reflexivity.
Qed.

Lemma seen_ports_empty : seen_ports ([], ∅).
Proof.
  intros p. unfold seen_get. simpl. rewrite lookup_empty. simpl.
  rewrite elem_of_nil. split; [discriminate | tauto].
Qed.

(** One [if !seen[p] { append; seen[p] = true }] is one step of
    [first_seen]. *)
Lemma add_port_first_seen st p :
  seen_ports st ->
  seen_ports (add_port st p) /\ fst (add_port st p) = first_seen (fst st) [p].
Proof.
  destruct st as [ports seen]. intros Hs. unfold add_port. simpl.
  destruct (seen_get seen p) eqn:Hp.
  - apply (Hs p) in Hp. simpl in Hp.
    destruct (decide (p ∈ ports)); [|contradiction]. split; [assumption | reflexivity].
  - assert (Hnin : p ∉ ports).
    { intros Hin. apply (Hs p) in Hin. simpl in Hin. congruence. }
    destruct (decide (p ∈ ports)); [contradiction|]. split; [|reflexivity].
    intros q. unfold seen_get. simpl. rewrite elem_of_app, list_elem_of_singleton.
    destruct (decide (q = p)) as [->|Hne].
    + rewrite lookup_insert_eq. simpl. tauto.
    + rewrite lookup_insert_ne by congruence. specialize (Hs q).
      unfold seen_get in Hs. simpl in Hs. rewrite Hs. tauto.
Qed.

Lemma first_seen_app {K : Type} `{EqDecision K} (l1 l2 acc : list K) :
  first_seen acc (l1 ++ l2) = first_seen (first_seen acc l1) l2.
Proof.
  revert acc. induction l1 as [|x l1 IH]; intros acc; simpl; [reflexivity|].
  destruct (decide (x ∈ acc)); apply IH.
Qed.

Lemma fold_add_port_first_seen l : forall st,
  seen_ports st ->
  seen_ports (fold_left add_port l st)
  /\ fst (fold_left add_port l st) = first_seen (fst st) l.
Proof.
  induction l as [|p l IH]; intros st Hs; simpl; [auto|].
  destruct (add_port_first_seen st p Hs) as (Hs' & Hf).
  destruct (IH _ Hs') as (Hs'' & Hf'). split; [assumption|].
  rewrite Hf', Hf. simpl. destruct (decide (p ∈ fst st)); reflexivity.
Qed.

Lemma parsePortRange_ok rangeSpec ports :
  parsePortRange rangeSpec = inr ports ->
  exists p0 p1 start end_,
    Strings.Split rangeSpec "-" = [p0; p1]
    /\ Strconv.Atoi (Strings.TrimSpace p0) = Some start
    /\ Strconv.Atoi (Strings.TrimSpace p1) = Some end_
    /\ 1 <= start /\ start <= end_ /\ end_ <= 65535
    /\ ports = seqZ start (end_ - start + 1).
Proof.
  unfold parsePortRange. intros H.
  destruct (Strings.Split rangeSpec "-") as [|p0 [|p1 [|p2 ps]]]; try discriminate.
  destruct (Strconv.Atoi (Strings.TrimSpace p0)) as [start|] eqn:Ha0; [|discriminate].
  destruct (Strconv.Atoi (Strings.TrimSpace p1)) as [end_|] eqn:Ha1; [|discriminate].
  destruct (validatePort start) eqn:Hs; [discriminate|].
  destruct (validatePort end_) eqn:He; [discriminate|].
  apply validatePort_None in Hs, He.
  destruct (Z.gtb_spec start end_); [discriminate|].
  destruct (int_wrap (end_ - start) >? 65535); [discriminate|].
  inversion H; subst; clear H.
  exists p0, p1, start, end_. repeat split; try lia; try assumption.
  rewrite range_loop_seqZ by (unfold min_int, max_int; lia). reflexivity.
Qed.

(** X1. A range token [a-b] expands to exactly a, a+1, ..., b, and only when
    it has the form of two integers around one dash with
    1 <= a <= b <= 65535. *)
Theorem parsePortRange_expands_interval :
  forall rangeSpec ports,
    parsePortRange rangeSpec = inr ports <->
    exists p0 p1 start end_,
      Strings.Split rangeSpec "-" = [p0; p1]
      /\ Strconv.Atoi (Strings.TrimSpace p0) = Some start
      /\ Strconv.Atoi (Strings.TrimSpace p1) = Some end_
      /\ 1 <= start /\ start <= end_ /\ end_ <= 65535
      /\ ports = seqZ start (end_ - start + 1).
Proof.
  intros rangeSpec ports. split; [apply parsePortRange_ok|].
  unfold parsePortRange.
  intros (p0 & p1 & start & end_ & -> & -> & -> & H1 & H2 & H3 & ->).
  assert (Hs : validatePort start = None).
  { unfold validatePort. destruct (Z.ltb_spec start 1); [lia|].
    destruct (Z.gtb_spec start 65535); [lia | reflexivity]. }
  assert (He : validatePort end_ = None).
  { unfold validatePort. destruct (Z.ltb_spec end_ 1); [lia|].
    destruct (Z.gtb_spec end_ 65535); [lia | reflexivity]. }
  rewrite Hs, He. destruct (Z.gtb_spec start end_); [lia|].
  pose proof (range_size_bound start end_ Hs He) as Hb.
  destruct (Z.gtb_spec (int_wrap (end_ - start)) 65535); [lia|].
  rewrite range_loop_seqZ by (unfold min_int, max_int; lia). reflexivity.
Qed.

Lemma ports_of_token_valid t :
  Forall valid_port (ports_of_token t).
Proof.
  unfold ports_of_token, token_result.
  destruct (String.eqb (Strings.TrimSpace t) ""); [constructor|].
  destruct (Strings.Contains (Strings.TrimSpace t) "-").
  - destruct (parsePortRange (Strings.TrimSpace t)) as [err|ports] eqn:Hr; [constructor|].
    apply parsePortRange_ok in Hr
      as (p0 & p1 & start & end_ & _ & _ & _ & H1 & H2 & H3 & ->).
    apply Forall_seqZ. intros p Hp. unfold valid_port. lia.
  - destruct (Strconv.Atoi (Strings.TrimSpace t)) as [port|]; [|constructor].
    destruct (validatePort port) eqn:Hv; [constructor|].
    apply validatePort_None in Hv. repeat constructor; unfold valid_port; lia.
Qed.

(** The loop over valid tokens collects their ports, first seen first. *)
Lemma ParsePorts_loop_first_seen parts : forall st,
  Forall token_valid parts -> seen_ports st ->
  exists seen',
    ParsePorts_loop parts st
    = inr (first_seen (fst st) (concat (map ports_of_token parts)), seen').
Proof.
  induction parts as [|t parts IH]; intros st Hv Hs.
  - destruct st as [ports seen]. exists seen. reflexivity.
  - inversion Hv as [|? ? Ht Hrest]; subst.
    cbn [map concat]. rewrite first_seen_app.
    unfold token_valid in Ht. unfold ports_of_token at 1.
    cbn [ParsePorts_loop]. unfold token_result in *.
    destruct (String.eqb (Strings.TrimSpace t) ""); [apply IH; assumption|].
    destruct (Strings.Contains (Strings.TrimSpace t) "-").
    + destruct (parsePortRange (Strings.TrimSpace t)) as [err|rp]; [contradiction|].
      destruct (fold_add_port_first_seen rp st Hs) as (Hs' & Hf).
      destruct (IH _ Hrest Hs') as (seen' & ->). rewrite Hf. eauto.
    + destruct (Strconv.Atoi (Strings.TrimSpace t)) as [port|]; [|contradiction].
      destruct (validatePort port); [contradiction|].
      destruct (add_port_first_seen st port Hs) as (Hs' & Hf).
      destruct (IH _ Hrest Hs') as (seen' & ->). rewrite Hf. eauto.
Qed.

Lemma ParsePorts_loop_ok_valid parts : forall st st',
  ParsePorts_loop parts st = inr st' -> Forall token_valid parts.
Proof.
  induction parts as [|t parts IH]; intros st st' H; [constructor|].
  cbn [ParsePorts_loop] in H. constructor.
  - unfold token_valid, token_result.
    destruct (String.eqb (Strings.TrimSpace t) ""); [exact I|].
    destruct (Strings.Contains (Strings.TrimSpace t) "-").
    + destruct (parsePortRange (Strings.TrimSpace t)); [discriminate | exact I].
    + destruct (Strconv.Atoi (Strings.TrimSpace t)) as [port|]; [|discriminate].
      destruct (validatePort port); [discriminate | exact I].
  - destruct (String.eqb (Strings.TrimSpace t) ""); [eauto|].
    destruct (Strings.Contains (Strings.TrimSpace t) "-").
    + destruct (parsePortRange (Strings.TrimSpace t)); [discriminate | eauto].
    + destruct (Strconv.Atoi (Strings.TrimSpace t)) as [port|]; [|discriminate].
      destruct (validatePort port); [discriminate | eauto].
Qed.

(** X2. When every token of a port specification is blank or valid, the
    expansion is the ports of the tokens in the order of the specification,
    each port kept where it is first met; it is the no-valid-ports error when
    there is none (an empty specification, or only blank tokens). *)
Theorem ParsePorts_keeps_first_occurrences :
  forall portSpec,
    Forall token_valid (Strings.Split portSpec ",") ->
    ParsePorts portSpec
    = match first_seen [] (concat (map ports_of_token (Strings.Split portSpec ","))) with
      | [] => inl ErrNoValidPorts
      | ports => inr ports
      end.
Proof.
  intros portSpec Hv. unfold ParsePorts.
  destruct (ParsePorts_loop_first_seen _ ([], ∅) Hv seen_ports_empty) as (seen' & ->).
  cbn [fst].
  destruct (first_seen [] _) as [|p ports]; reflexivity.
Qed.

Lemma ParsePorts_keeps_first_occurrences_witness :
  ParsePorts "443, 80-82,,81,443 ,22" = inr [443; 80; 81; 82; 22]
  /\ ParsePorts " , ," = inl ErrNoValidPorts.
Proof.
  split.
  - rewrite ParsePorts_keeps_first_occurrences.
    + vm_compute. reflexivity.
    + repeat constructor; vm_compute; exact I.
  - rewrite ParsePorts_keeps_first_occurrences.
    + vm_compute. reflexivity.
    + repeat constructor; vm_compute; exact I.
Defined.

(** X3. A successful port expansion has no duplicates, is not empty, holds
    only ports in 1..65535 (so at most 65535 of them), and holds exactly the
    ports that some token of the specification denotes. *)
Theorem ParsePorts_result_is_a_port_set :
  forall portSpec ports,
    ParsePorts portSpec = inr ports ->
    NoDup ports /\ ports <> [] /\ Forall valid_port ports
    /\ Z.of_nat (length ports) <= 65535
    /\ (forall p, p ∈ ports <->
                  exists t, t ∈ Strings.Split portSpec "," /\ p ∈ ports_of_token t).
Proof.
  intros portSpec ports H.
  assert (Hv : Forall token_valid (Strings.Split portSpec ",")).
  { unfold ParsePorts in H.
    destruct (ParsePorts_loop _ _) as [err|st'] eqn:Hl; [discriminate|].
    eapply ParsePorts_loop_ok_valid; eassumption. }
  unfold ParsePorts in H.
  destruct (ParsePorts_loop_first_seen _ ([], ∅) Hv seen_ports_empty)
    as (seen' & Hloop).
  rewrite Hloop in H. cbn [fst] in H.
  destruct (first_seen_acc (concat (map ports_of_token (Strings.Split portSpec ",")))
              [] (NoDup_nil_2)) as (Hnd & Hmem & _).
  destruct (first_seen [] _) as [|p0 ps] eqn:Hfs; [discriminate|].
  simpl in H. inversion H; subst ports; clear H.
  assert (Hmem' : forall p, p ∈ p0 :: ps <->
            exists t, t ∈ Strings.Split portSpec "," /\ p ∈ ports_of_token t).
  { intros p. rewrite Hmem, elem_of_nil.
    split.
    - intros [[]|Hin]. apply list_elem_of_In, in_concat in Hin as (l & Hl & Hp).
      apply in_map_iff in Hl as (t & <- & Ht).
      exists t. split; apply list_elem_of_In; assumption.
    - intros (t & Ht & Hp). right. apply list_elem_of_In, in_concat.
      exists (ports_of_token t). split; [|apply list_elem_of_In; assumption].
      apply in_map_iff. exists t. split; [reflexivity|].
      apply list_elem_of_In; assumption. }
  assert (Hrange : Forall valid_port (p0 :: ps)).
  { apply Forall_forall. intros p Hp. apply Hmem' in Hp as (t & _ & Hp).
    pose proof (ports_of_token_valid t) as Hall.
    rewrite Forall_forall in Hall. auto. }
  split; [assumption|]. split; [discriminate|]. split; [assumption|].
  split; [|assumption].
  assert (Hsub : p0 :: ps ⊆+ seqZ 1 65535).
  { apply NoDup_submseteq; [assumption|]. intros p Hp.
    rewrite Forall_forall in Hrange. specialize (Hrange p Hp).
    apply elem_of_seqZ. unfold valid_port in Hrange. lia. }
  apply submseteq_length in Hsub. rewrite length_seqZ in Hsub. lia.
Qed.

Lemma ParsePorts_result_is_a_port_set_witness :
  NoDup [443; 80; 81; 82; 22] /\ Forall valid_port [443; 80; 81; 82; 22].
Proof.
  destruct (ParsePorts_result_is_a_port_set "443, 80-82,,81,443 ,22"
              [443; 80; 81; 82; 22]) as (H1 & _ & H3 & _).
  - vm_compute. reflexivity.
  - split; assumption.
Defined.

Lemma parsePortRange_expands_interval_witness :
  parsePortRange " 8000 - 8003" = inr (seqZ 8000 4).
Proof.
  apply parsePortRange_expands_interval.
  exists " 8000 ", " 8003", 8000, 8003.
  repeat split; try lia; vm_compute; reflexivity.
Defined.

End PortSets.

(** ** More on the expansion of CIDR blocks *)

Section CIDRBlocks.
Import Net Parser.

(** X4. [incrementIP] adds one to the number that the bytes of the address
    denote and keeps the length; the address of all 255 wraps to all 0. *)
Theorem incrementIP_adds_one :
  forall len ip,
    bytes len ip ->
    bytes len (incrementIP ip)
    /\ (value ip + 1 < 256 ^ Z.of_nat len -> value (incrementIP ip) = value ip + 1)
    /\ (value ip + 1 = 256 ^ Z.of_nat len ->
        value (incrementIP ip) = 0 /\ incrementIP ip = replicate len 0).
Proof.
  intros len ip Hip. destruct (incrementIP_spec len ip Hip) as (Hb & Hv).
  pose proof (value_bound ip (proj2 Hip)) as Hbound. rewrite (proj1 Hip) in Hbound.
  split; [assumption|]. split.
  - intros Hlt. rewrite Hv. apply Z.mod_small. lia.
  - intros Heq. assert (H0 : value (incrementIP ip) = 0).
    { rewrite Hv, Heq. apply Z.mod_same. lia. }
    split; [assumption|].
    apply value_inj.
    + rewrite length_replicate. apply Hb.
    + apply Hb.
    + apply Forall_replicate. unfold byte_range. lia.
    + rewrite H0. clear. induction len as [|len IH]; [reflexivity|].
      simpl replicate. rewrite value_cons, <- IH. lia.
Qed.

Lemma incrementIP_adds_one_witness :
  value (incrementIP [10; 0; 255; 255]) = value [10; 0; 255; 255] + 1
  /\ incrementIP [255; 255; 255; 255] = [0; 0; 0; 0].
Proof.
  split.
  - apply (incrementIP_adds_one 4 [10; 0; 255; 255]).
    + split; [reflexivity|]. repeat constructor; lia.
    + vm_compute. reflexivity.
  - apply (incrementIP_adds_one 4 [255; 255; 255; 255]).
    + split; [reflexivity|]. repeat constructor; lia.
    + vm_compute. reflexivity.
Defined.

Lemma parseCIDR_loop_more_fuel fuel : forall fuel' ipNet ip ips r,
  parseCIDR_loop fuel ipNet ip ips = Some r -> (fuel <= fuel')%nat ->
  parseCIDR_loop fuel' ipNet ip ips = Some r.
Proof.
  induction fuel as [|fuel IH]; intros fuel' ipNet ip ips r H Hle; [discriminate|].
  destruct fuel' as [|fuel']; [lia|]. cbn [parseCIDR_loop] in *.
  destruct (Contains ipNet ip); [|assumption].
  apply IH with (fuel' := fuel') in H; [assumption | lia].
Qed.

Lemma parseCIDR_more_fuel fuel fuel' parsed r :
  parseCIDR fuel parsed = Some r -> (fuel <= fuel')%nat ->
  parseCIDR fuel' parsed = Some r.
Proof.
  unfold parseCIDR. destruct parsed as [[ip ipNet]|]; [|auto].
  destruct (parseCIDR_loop fuel _ _ _) as [ips|] eqn:Hl; [|discriminate].
  intros H Hle. rewrite (parseCIDR_loop_more_fuel _ _ _ _ _ _ Hl Hle). assumption.
Qed.

(** X5. For an IPv4 address and a prefix length from 1 to 32, [parseCIDR]
    returns the addresses of the block in ascending order: all of them when
    the block has 1 or 2 addresses (/32, /31), and all but the first
    (network) and the last (broadcast) otherwise, that is 2^(32-n) - 2
    addresses. *)
Theorem parseCIDR_v4_returns_block :
  forall ip4 n,
    bytes 4 ip4 -> 1 <= n <= 32 ->
    exists fuel ips,
      parseCIDR fuel (ParseCIDR (Addr4 ip4) n) = Some (inr ips)
      /\ Forall (bytes 4) ips
      /\ map value ips
         = (if 2 <? block_size n
            then seqZ (block_base ip4 n + 1) (block_size n - 2)
            else seqZ (block_base ip4 n) (block_size n))
      /\ Z.of_nat (length ips)
         = (if 2 <? block_size n then block_size n - 2 else block_size n).
Proof.
  intros ip4 n Hip Hn.
  destruct (parseCIDR_v4_block ip4 n Hip Hn) as (fuel & ips & Hrun & Hb & Hm).
  exists fuel, ips. split; [assumption|]. split; [assumption|]. split; [assumption|].
  rewrite <- (length_map value), Hm.
  pose proof (size_pos n ltac:(lia)) as Hs.
  destruct (2 <? block_size n) eqn:Hbig; rewrite length_seqZ.
  - apply Z.ltb_lt in Hbig. lia.
  - lia.
Qed.

Lemma parseCIDR_v4_returns_block_witness :
  exists fuel ips,
    parseCIDR fuel (ParseCIDR (Addr4 [192; 168; 1; 77]) 29) = Some (inr ips)
    /\ map value ips = seqZ (value [192; 168; 1; 72] + 1) 6.
Proof.
  destruct (parseCIDR_v4_returns_block [192; 168; 1; 77] 29)
    as (fuel & ips & Hrun & _ & Hm & _).
  - split; [reflexivity|]. repeat constructor; lia.
  - lia.
  - exists fuel, ips. split; [exact Hrun|]. rewrite Hm. vm_compute. reflexivity.
Defined.

(** X6. The host bits of the address of an IPv4 CIDR are ignored: two
    addresses of the same block expand to the same list. *)
Theorem parseCIDR_v4_ignores_host_bits :
  forall a b n,
    bytes 4 a -> bytes 4 b -> 1 <= n <= 32 ->
    value a / block_size n = value b / block_size n ->
    exists fuel ips,
      parseCIDR fuel (ParseCIDR (Addr4 a) n) = Some (inr ips)
      /\ parseCIDR fuel (ParseCIDR (Addr4 b) n) = Some (inr ips).
Proof.
  intros a b n Ha Hb Hn Hq.
  destruct (parseCIDR_v4_block a n Ha Hn) as (fa & ia & Hra & Hba & Hma).
  destruct (parseCIDR_v4_block b n Hb Hn) as (fb & ib & Hrb & Hbb & Hmb).
  assert (Hbase : block_base a n = block_base b n)
    by (unfold block_base; rewrite Hq; reflexivity).
  rewrite Hbase, <- Hmb in Hma.
  assert (Heq : ia = ib).
  { clear - Hma Hba Hbb. revert ib Hma Hbb.
    induction Hba as [|x ia Hx _ IH]; intros [|y ib] Hm Hbb; try discriminate;
      [reflexivity|].
    inversion Hbb as [|? ? Hy Hbb']; subst. injection Hm as Hv Hm.
    f_equal; [|apply IH; assumption].
    destruct Hx as (Hlx & Hrx), Hy as (Hly & Hry).
    apply value_inj; auto; congruence. }
  subst ib. exists (Nat.max fa fb), ia. split.
  - eapply parseCIDR_more_fuel; [eassumption | lia].
  - eapply parseCIDR_more_fuel; [eassumption | lia].
Qed.

Lemma parseCIDR_v4_ignores_host_bits_witness :
  exists fuel ips,
    parseCIDR fuel (ParseCIDR (Addr4 [10; 1; 2; 3]) 30) = Some (inr ips)
    /\ parseCIDR fuel (ParseCIDR (Addr4 [10; 1; 2; 0]) 30) = Some (inr ips).
Proof.
  apply parseCIDR_v4_ignores_host_bits.
  - split; [reflexivity|]. repeat constructor; lia.
  - split; [reflexivity|]. repeat constructor; lia.
  - lia.
  - vm_compute. reflexivity.
Defined.

End CIDRBlocks.

(** ** Delivery of outcomes to the collector *)

Section DeliveryOrder.
Import Result Aggregator Delivery.

Lemma concat_insert_cons (pending : list (list Result)) i r rest :
  pending !! i = Some (r :: rest) ->
  concat pending ≡ₚ r :: concat (<[i := rest]> pending).
Proof.
  revert i. induction pending as [|l pending IH]; intros [|i] H; simpl in *;
    try discriminate.
  - inversion H; subst. reflexivity.
  - rewrite (IH i H). rewrite Permutation_middle. reflexivity.
Qed.

Lemma step_delivery l h h' :
  step l h = Next h' ->
  results (coll h') ++ in_flight (coll h')
  = results (coll h) ++ in_flight (coll h) ++ submitted [l] (pending h)
  /\ submitted [l] (pending h) ++ concat (pending h') ≡ₚ concat (pending h)
  /\ forall sched, submitted (l :: sched) (pending h)
                   = submitted [l] (pending h) ++ submitted sched (pending h').
Proof.
  intros Hs. destruct l as [i | | now]; simpl in Hs.
  - destruct (pending h !! i) as [[|r rest]|] eqn:Hp; try discriminate.
    destruct (Submit (coll h) r) as [c| |] eqn:Hsub; inversion Hs; subst; clear Hs.
    apply Submit_spec in Hsub as (_ & ->). cbn [submitted]. rewrite Hp. simpl.
    split; [|split; [|reflexivity]].
    + unfold in_flight. simpl. destruct (collect (coll h)); simpl;
        rewrite <- ?app_assoc; reflexivity.
    + symmetry. apply concat_insert_cons. assumption.
  - destruct (collect_step (coll h)) as [c| |] eqn:Hc; inversion Hs; subst; clear Hs.
    simpl. rewrite !app_nil_r. split; [|split; reflexivity].
    unfold collect_step, in_flight, chan_recv in *.
    destruct (collect (coll h)) eqn:Hpc.
    + destruct (buf (resultChan (coll h))) as [|x rest] eqn:Hb.
      * destruct (closed (resultChan (coll h))); inversion Hc; subst; simpl.
        rewrite Hb. reflexivity.
      * inversion Hc; subst; simpl. reflexivity.
    + inversion Hc; subst; simpl. rewrite <- app_assoc. reflexivity.
    + discriminate.
  - simpl. rewrite !app_nil_r. destruct (closer h).
    + destruct (Close_channel (coll h)) as [c| |] eqn:Hc; inversion Hs; subst; clear Hs.
      apply Close_channel_spec in Hc as (_ & ->). simpl.
      split; [|split; reflexivity]. unfold in_flight. simpl. reflexivity.
    + destruct (Close_wait (coll h) now) as [c| |] eqn:Hc; inversion Hs; subst; clear Hs.
      apply Close_wait_spec in Hc as (Hd1 & Hd2 & Hres & Hch & _). simpl.
      split; [|split; reflexivity]. unfold in_flight. rewrite Hd1, Hd2, Hres, Hch.
      reflexivity.
    + discriminate.
Qed.

Lemma run_delivery sched : forall h h',
  run sched h = Next h' ->
  results (coll h') ++ in_flight (coll h')
  = results (coll h) ++ in_flight (coll h) ++ submitted sched (pending h)
  /\ submitted sched (pending h) ++ concat (pending h') ≡ₚ concat (pending h).
Proof.
  induction sched as [|l sched IH]; intros h h' Hrun; simpl in Hrun.
  - inversion Hrun; subst. simpl. rewrite !app_nil_r. split; reflexivity.
  - destruct (step l h) as [h1| |] eqn:Hs; try discriminate.
    destruct (step_delivery l h h1 Hs) as (H1 & H2 & H3).
    destruct (IH h1 h' Hrun) as (H4 & H5).
    rewrite H3. split.
    + rewrite H4, app_assoc, H1, <- !app_assoc. reflexivity.
    + rewrite <- app_assoc, H5. assumption.
Qed.

Lemma run_inv sched : forall h h', run sched h = Next h' -> inv h -> inv h'.
Proof.
  induction sched as [|l sched IH]; intros h h' Hrun Hinv; simpl in Hrun.
  - inversion Hrun; subst; assumption.
  - destruct (step l h) as [h1| |] eqn:Hs; try discriminate.
    eapply IH; [eassumption|]. eapply step_inv; eassumption.
Qed.

Lemma run_accounted sched : forall h h',
  run sched h = Next h' ->
  accounted (coll h') = (accounted (coll h) + submissions sched)%nat.
Proof.
  induction sched as [|l sched IH]; intros h h' Hrun; simpl in Hrun.
  - inversion Hrun; subst. simpl. lia.
  - destruct (step l h) as [h1| |] eqn:Hs; try discriminate.
    rewrite (IH h1 h' Hrun), (step_accounted _ _ _ Hs). simpl.
    destruct l; simpl; lia.
Qed.

Lemma init_inv subs fmt verb now : inv (init subs fmt verb now).
Proof. split; [split|]; simpl; [apply folded_nil | discriminate | discriminate]. Qed.

(** X7. The collector folds the outcomes in the order in which they were
    submitted, each of them once: at any moment the results followed by what
    is in flight are the submitted outcomes in order; with what the
    submitters still hold they make up what the submitters started with; and
    once [Close] has returned the results are all the submitted outcomes. *)
Theorem collector_folds_in_submission_order :
  forall subs fmt verb now sched h,
    run sched (init subs fmt verb now) = Next h ->
    GetResults (coll h) ++ in_flight (coll h) = submitted sched subs
    /\ submitted sched subs ++ concat (pending h) ≡ₚ concat subs
    /\ (closer h = CloseReturned -> GetResults (coll h) = submitted sched subs).
Proof.
  intros subs fmt verb now sched h Hrun.
  destruct (run_delivery sched _ _ Hrun) as (H1 & H2). simpl in H1, H2.
  split; [exact H1|]. split; [exact H2|].
  intros Hret.
  destruct (run_inv sched _ _ Hrun (init_inv subs fmt verb now)) as ((_ & Hd) & Hc).
  specialize (Hc Hret). destruct (Hd Hc) as (Hb & _).
  unfold in_flight in H1. rewrite Hc, Hb, app_nil_r in H1. exact H1.
Qed.

Lemma collector_folds_in_submission_order_witness :
  match run Scenario.unsorted_arrival
          (init [[Scenario.outcome_of "10.0.0.2"; Scenario.outcome_of "10.0.0.1"]]
             "text" false 1) with
  | Next h => GetResults (coll h)
              = [Scenario.outcome_of "10.0.0.2"; Scenario.outcome_of "10.0.0.1"]
  | _ => False
  end.
Proof.
  destruct (run _ _) as [h| |] eqn:Hrun; try (vm_compute in Hrun; discriminate).
  destruct (collector_folds_in_submission_order _ _ _ _ _ h Hrun) as (_ & _ & H).
  rewrite H.
  - vm_compute. reflexivity.
  - vm_compute in Hrun. inversion Hrun. reflexivity.
Defined.

(** In a closed collector the goroutine [collect], left to run, folds what
    is in flight and ends. *)
Lemma collect_steps_drain_recv (n : nat) : forall c,
  closed (resultChan c) = true -> collect c = CollectRecv ->
  length (buf (resultChan c)) = n ->
  exists c',
    collect_steps (drain_steps c) c = Next c'
    /\ collect c' = CollectDone
    /\ results c' = results c ++ in_flight c.
Proof.
  induction n as [|n IH]; intros c Hcl Hpc Hlen.
  - destruct (buf (resultChan c)) eqn:Hb; [|discriminate].
    unfold drain_steps, in_flight. rewrite Hpc, Hb. simpl.
    unfold collect_step, chan_recv. rewrite Hpc, Hb, Hcl.
    eexists. split; [reflexivity|]. simpl. rewrite app_nil_r. auto.
  - destruct (buf (resultChan c)) as [|r rest] eqn:Hb; [discriminate|].
    injection Hlen as Hlen.
    unfold drain_steps, in_flight. rewrite Hpc, Hb.
    cbn [length Nat.mul]. cbn [collect_steps].
    unfold collect_step at 1, chan_recv. rewrite Hpc, Hb.
    replace (S (length rest) + (S (length rest) + 0))%nat
      with (S (S (2 * length rest)))%nat by lia.
    cbn [collect_steps]. unfold collect_step at 1. cbn [collect with_collect].
    destruct (IH (mkCollector (results c ++ [r]) (updateSummary (summary c) r)
                    (mkChan rest (cap (resultChan c)) (closed (resultChan c)))
                    CollectRecv (format c) (verbose c)))
      as (c' & Hrun & Hd & Hres); simpl; auto.
    exists c'. split; [exact Hrun|]. split; [exact Hd|].
    rewrite Hres. unfold in_flight. simpl. rewrite <- app_assoc. reflexivity.
Qed.

Lemma collect_steps_drain c :
  closed (resultChan c) = true -> collector_inv c ->
  exists c',
    collect_steps (drain_steps c) c = Next c'
    /\ collect c' = CollectDone
    /\ results c' = results c ++ in_flight c.
Proof.
  intros Hcl (_ & Hdone). destruct (collect c) as [|r|] eqn:Hpc.
  - apply (collect_steps_drain_recv _ c Hcl Hpc eq_refl).
  - unfold drain_steps. rewrite Hpc. cbn [collect_steps].
    unfold collect_step at 1. rewrite Hpc.
    destruct (collect_steps_drain_recv _
                (mkCollector (results c ++ [r]) (updateSummary (summary c) r)
                   (resultChan c) CollectRecv (format c) (verbose c))
                Hcl eq_refl eq_refl) as (c' & Hrun & Hd & Hres).
    unfold drain_steps in Hrun. simpl in Hrun.
    exists c'. split; [exact Hrun|]. split; [exact Hd|].
    rewrite Hres. unfold in_flight. rewrite Hpc. simpl.
    rewrite <- app_assoc. reflexivity.
  - destruct (Hdone eq_refl) as (Hb & _).
    unfold drain_steps, in_flight. rewrite Hpc, Hb. simpl.
    exists c. rewrite app_nil_r. auto.
Qed.

Lemma run_collect_steps k : forall h c',
  collect_steps k (coll h) = Next c' ->
  forall tail, run (replicate k LCollect ++ tail) h
               = run tail (mkDriver c' (pending h) (closer h)).
Proof.
  induction k as [|k IH]; intros h c' Hk tail; simpl in *.
  - inversion Hk; subst. destruct h; reflexivity.
  - destruct (collect_step (coll h)) as [c1| |]; try discriminate.
    apply (IH (mkDriver c1 (pending h) (closer h)) c' Hk).
Qed.

Lemma step_open_until_close l h h' :
  step l h = Next h' ->
  (closer h = CloseNotCalled -> closed (resultChan (coll h)) = false) ->
  (closer h' = CloseNotCalled -> closed (resultChan (coll h')) = false).
Proof.
  intros Hs Hopen. destruct l as [i | | now]; simpl in Hs.
  - destruct (pending h !! i) as [[|r rest]|]; try discriminate.
    destruct (Submit (coll h) r) as [c| |] eqn:Hsub; inversion Hs; subst; clear Hs.
    apply Submit_spec in Hsub as (_ & ->). reflexivity.
  - destruct (collect_step (coll h)) as [c| |] eqn:Hc; inversion Hs; subst; clear Hs.
    simpl. intros Hn. specialize (Hopen Hn).
    unfold collect_step, chan_recv in Hc.
    destruct (collect (coll h)).
    + destruct (buf (resultChan (coll h))).
      * destruct (closed (resultChan (coll h))) eqn:Hcl;
          inversion Hc; subst; simpl; congruence.
      * inversion Hc; subst; simpl; auto.
    + inversion Hc; subst; simpl; auto.
    + discriminate.
  - destruct (closer h).
    + destruct (Close_channel (coll h)); inversion Hs; subst; discriminate.
    + destruct (Close_wait (coll h) now); inversion Hs; subst; discriminate.
    + discriminate.
Qed.

Lemma run_open_until_close sched : forall h h',
  run sched h = Next h' ->
  (closer h = CloseNotCalled -> closed (resultChan (coll h)) = false) ->
  (closer h' = CloseNotCalled -> closed (resultChan (coll h')) = false).
Proof.
  induction sched as [|l sched IH]; intros h h' Hrun Hopen; simpl in Hrun.
  - inversion Hrun; subst; assumption.
  - destruct (step l h) as [h1| |] eqn:Hs; try discriminate.
    eapply IH; [eassumption|]. eapply step_open_until_close; eassumption.
Qed.

(** X8. [Close] always completes. At any moment before [Close] is called,
    calling it and letting the goroutine [collect] run makes [Close] return
    after finitely many steps, and it returns with every outcome submitted so
    far folded into the results, in the order of submission. *)
Theorem Close_drains_and_returns :
  forall subs fmt verb now sched h t1 t2,
    run sched (init subs fmt verb now) = Next h ->
    closer h = CloseNotCalled ->
    exists k h',
      run (LClose t1 :: replicate k LCollect ++ [LClose t2]) h = Next h'
      /\ closer h' = CloseReturned
      /\ GetResults (coll h') = submitted sched subs
      /\ length (GetResults (coll h')) = submissions sched
      /\ pending h' = pending h.
Proof.
  intros subs fmt verb now sched h t1 t2 Hrun Hnc.
  pose proof (run_inv sched _ _ Hrun (init_inv subs fmt verb now)) as Hinv.
  assert (Hopen : closed (resultChan (coll h)) = false).
  { apply (run_open_until_close sched _ _ Hrun); [reflexivity | assumption]. }
  destruct (run_delivery sched _ _ Hrun) as (Hdel & _). simpl in Hdel.
  (* the first statement of Close *)
  set (c1 := with_chan (coll h)
               (mkChan (buf (resultChan (coll h))) (cap (resultChan (coll h))) true)).
  assert (Hs1 : step (LClose t1) h = Next (mkDriver c1 (pending h) CloseWaiting)).
  { simpl. rewrite Hnc. unfold Close_channel, chan_close. rewrite Hopen. reflexivity. }
  assert (Hinv1 : collector_inv c1).
  { apply (step_inv _ _ _ Hs1 Hinv). }
  destruct (collect_steps_drain c1 eq_refl Hinv1) as (c2 & Hdrain & Hd & Hres).
  exists (drain_steps c1).
  cbn [run]. rewrite Hs1.
  rewrite (run_collect_steps _ (mkDriver c1 (pending h) CloseWaiting) c2 Hdrain).
  cbn [run step closer coll pending].
  unfold Close_wait, doneChan_closed. rewrite Hd.
  eexists. split; [reflexivity|]. cbn [closer coll pending GetResults results].
  split; [reflexivity|].
  assert (Hall : results c2 = submitted sched subs).
  { rewrite Hres. unfold c1, in_flight. simpl. exact Hdel. }
  split; [exact Hall|]. split; [|reflexivity].
  rewrite Hall, <- Hdel, length_app.
  pose proof (run_accounted sched _ _ Hrun) as Hacc.
  unfold accounted in Hacc. simpl in Hacc. lia.
Qed.

Lemma Close_drains_and_returns_witness :
  let r1 := Scenario.outcome_of "10.0.0.2" in
  let r2 := Scenario.outcome_of "10.0.0.1" in
  match run [LSubmit 0; LSubmit 0; LCollect] (init [[r1; r2]] "text" false 1) with
  | Next h =>
      exists k h',
        run (LClose 7 :: replicate k LCollect ++ [LClose 9]) h = Next h'
        /\ closer h' = CloseReturned
        /\ GetResults (coll h') = [r1; r2]
  | _ => False
  end.
Proof.
  intros r1 r2.
  destruct (run _ _) as [h| |] eqn:Hrun; try (vm_compute in Hrun; discriminate).
  destruct (Close_drains_and_returns _ _ _ _ _ h 7 9 Hrun)
    as (k & h' & H1 & H2 & H3 & _).
  - vm_compute in Hrun. inversion Hrun. reflexivity.
  - exists k, h'. split; [exact H1|]. split; [exact H2|]. rewrite H3. reflexivity.
Defined.

Lemma step_closed_after_close l h h' :
  step l h = Next h' ->
  (closer h <> CloseNotCalled -> closed (resultChan (coll h)) = true) ->
  (closer h' <> CloseNotCalled -> closed (resultChan (coll h')) = true).
Proof.
  intros Hs Hcl. destruct l as [i | | now]; simpl in Hs.
  - destruct (pending h !! i) as [[|r rest]|]; try discriminate.
    destruct (Submit (coll h) r) as [c| |] eqn:Hsub; inversion Hs; subst; clear Hs.
    apply Submit_spec in Hsub as (Hopen & ->). simpl. intros Hn.
    specialize (Hcl Hn). congruence.
  - destruct (collect_step (coll h)) as [c| |] eqn:Hc; inversion Hs; subst; clear Hs.
    simpl. intros Hn. specialize (Hcl Hn).
    unfold collect_step, chan_recv in Hc.
    destruct (collect (coll h)).
    + destruct (buf (resultChan (coll h))).
      * destruct (closed (resultChan (coll h))) eqn:Hc';
          inversion Hc; subst; simpl; congruence.
      * inversion Hc; subst; simpl; auto.
    + inversion Hc; subst; simpl; auto.
    + discriminate.
  - destruct (closer h) eqn:Hpc.
    + destruct (Close_channel (coll h)) as [c| |] eqn:Hc; inversion Hs; subst; clear Hs.
      apply Close_channel_spec in Hc as (_ & ->). reflexivity.
    + destruct (Close_wait (coll h) now) as [c| |] eqn:Hc; inversion Hs; subst; clear Hs.
      apply Close_wait_spec in Hc as (_ & _ & _ & Hch & _). simpl. rewrite Hch.
      intros _. apply Hcl. discriminate.
    + discriminate.
Qed.

Lemma run_closed_after_close sched : forall h h',
  run sched h = Next h' ->
  (closer h <> CloseNotCalled -> closed (resultChan (coll h)) = true) ->
  (closer h' <> CloseNotCalled -> closed (resultChan (coll h')) = true).
Proof.
  induction sched as [|l sched IH]; intros h h' Hrun Hcl; simpl in Hrun.
  - inversion Hrun; subst; assumption.
  - destruct (step l h) as [h1| |] eqn:Hs; try discriminate.
    eapply IH; [eassumption|]. eapply step_closed_after_close; eassumption.
Qed.

(** X9. The collector stays closed. Once [Close] has been called, at any
    later moment a [Submit] panics (send on the closed channel) and so does
    a second [Close]. *)
Theorem closed_collector_rejects_Submit_and_Close :
  forall subs fmt verb now sched h,
    run sched (init subs fmt verb now) = Next h ->
    closer h <> CloseNotCalled ->
    (forall r, Submit (coll h) r = Panic)
    /\ Close_channel (coll h) = Panic
    /\ (forall i r rest, pending h !! i = Some (r :: rest) ->
                         step (LSubmit i) h = Panic).
Proof.
  intros subs fmt verb now sched h Hrun Hc.
  assert (Hcl : closed (resultChan (coll h)) = true).
  { apply (run_closed_after_close sched _ _ Hrun); [|assumption].
    simpl. intros Hn. contradiction. }
  assert (HS : forall r, Submit (coll h) r = Panic).
  { intros r. unfold Submit, chan_send. rewrite Hcl. reflexivity. }
  split; [exact HS|]. split.
  - unfold Close_channel, chan_close. rewrite Hcl. reflexivity.
  - intros i r rest Hp. simpl. rewrite Hp, HS. reflexivity.
Qed.

Lemma closed_collector_rejects_Submit_and_Close_witness :
  let r1 := Scenario.outcome_of "10.0.0.2" in
  match run [LSubmit 0; LClose 7] (init [[r1; r1]] "text" false 1) with
  | Next h => step (LSubmit 0) h = Panic /\ Close_channel (coll h) = Panic
  | _ => False
  end.
Proof.
  intros r1.
  destruct (run _ _) as [h| |] eqn:Hrun; try (vm_compute in Hrun; discriminate).
  destruct (closed_collector_rejects_Submit_and_Close _ _ _ _ _ h Hrun)
    as (_ & H2 & H3).
  - vm_compute in Hrun. inversion Hrun. discriminate.
  - split; [|exact H2]. apply (H3 0%nat r1 []).
    vm_compute in Hrun. inversion Hrun. reflexivity.
Defined.

End DeliveryOrder.

(** ** The comparison that sorts the results *)

Section Comparison.
Import Result.

(** X10. The function [less] that [WriteResults] hands to [sort.Slice] is a
    strict weak order, as sorting requires: nothing is less than itself, it
    is asymmetric and transitive, two results are unordered exactly when
    they have the same IP and port, and being unordered is transitive. *)
Theorem less_is_a_strict_weak_order :
  (forall a, less a a = false)
  /\ (forall a b, less a b = true -> less b a = false)
  /\ (forall a b c, less a b = true -> less b c = true -> less a c = true)
  /\ (forall a b, less a b = false /\ less b a = false
                  <-> IP a = IP b /\ Port a = Port b)
  /\ (forall a b c, less a b = false -> less b c = false -> less a c = false).
Proof.
  assert (Hlt : forall a b, less a b = true <-> key_compare a b = Lt).
  { intros a b. rewrite less_key_compare.
    destruct (key_compare a b); split; congruence. }
  assert (Hnlt : forall a b, less a b = false <-> key_compare a b <> Lt).
  { intros a b. rewrite less_key_compare.
    destruct (key_compare a b); split; congruence. }
  assert (Heq : forall a b, key_compare a b = Eq <-> IP a = IP b /\ Port a = Port b).
  { intros a b. unfold key_compare.
    destruct (String.compare (IP a) (IP b)) eqn:Hc.
    - apply String.compare_eq_iff in Hc. rewrite Z.compare_eq_iff. tauto.
    - split; [discriminate|]. intros (E & _). rewrite E, string_compare_refl in Hc.
      discriminate.
    - split; [discriminate|]. intros (E & _). rewrite E, string_compare_refl in Hc.
      discriminate. }
  split; [|split; [|split; [|split]]].
  - intros a. apply Hnlt. rewrite (proj2 (Heq a a)); [discriminate | auto].
  - intros a b H. apply Hlt in H. apply Hnlt. intros H'.
    apply key_compare_gt_lt in H'. congruence.
  - intros a b c H1 H2. apply Hlt in H1, H2. apply Hlt.
    apply (key_compare_lt_trans a b c H1). congruence.
  - intros a b. rewrite !Hnlt, <- Heq. split.
    + intros (H1 & H2). destruct (key_compare a b) eqn:Hc; try congruence.
      apply key_compare_gt_lt in Hc. contradiction.
    + intros H. split; [congruence|]. intros H'.
      apply key_compare_gt_lt in H'. congruence.
  - intros a b c H1 H2. change (key_le b a) in H1. change (key_le c b) in H2.
    change (key_le c a). apply (key_le_trans c b a); assumption.
Qed.

Lemma less_is_a_strict_weak_order_witness :
  less (Scenario.outcome_of "10.0.0.2") (Scenario.outcome_of "10.0.0.10") = false.
Proof.
  apply (proj1 (proj2 less_is_a_strict_weak_order)). vm_compute. reflexivity.
Defined.

End Comparison.

(** ** Following the tasks through a scan *)

Section TaskTracking.
Import Worker Scanner Tracking.

Ltac step_split Hs :=
  unfold step, orch_step, orch_done_step, worker_step, worker_done_step,
    forward_step, progress_step, progress_done_step, lift, chan_send, chan_recv,
    chan_close, Result.Submit, Result.collect_step, Result.Close_channel,
    Result.Close_wait, Result.WriteResults, chan_send, chan_recv, chan_close
    in Hs;
  repeat case_match; simplify_eq.

Lemma task_of_scan_result env t : task_of (scan_result env t) = t.
Proof.
  unfold task_of, scan_result. destruct t as [ip port].
  destruct (dial env _); reflexivity.
Qed.

Lemma worker_tasks_replicate n : concat (map worker_tasks (replicate n WSelect)) = [].
Proof. induction n; simpl; auto. Qed.

Lemma worker_tasks_insert ws : forall i w w',
  ws !! i = Some w ->
  exists rest,
    concat (map worker_tasks ws) ≡ₚ worker_tasks w ++ rest
    /\ concat (map worker_tasks (<[i:=w']> ws)) ≡ₚ worker_tasks w' ++ rest.
Proof.
  induction ws as [|a ws IH]; intros [|i] w w' Hl; simpl in Hl; try discriminate.
  - inversion Hl; subst a. exists (concat (map worker_tasks ws)). split; reflexivity.
  - destruct (IH i w w' Hl) as (rest & H1 & H2).
    exists (worker_tasks a ++ rest). simpl. rewrite H1, H2.
    split; solve_Permutation.
Qed.

Lemma step_held_tasks e l s s' :
  step e l s = Next s' -> held_tasks s' ⊆+ held_tasks s.
Proof.
  intros Hs.
  destruct l; step_split Hs;
    unfold held_tasks, to_submit, Aggregator.in_flight; simpl in *;
    repeat match goal with
           | H : orch s = _ |- _ => rewrite H in *
           | H : forwarder s = _ |- _ => rewrite H in *
           | H : Result.collect _ = _ |- _ => rewrite H in *
           | H : buf _ = _ |- _ => rewrite H in *
           end; simpl in *; try reflexivity.
  all: repeat match goal with
             | |- context [Result.collect ?c] => destruct (Result.collect c)
             end; simpl;
    rewrite ?worker_tasks_replicate, ?map_app, ?sortSlice_perm; simpl;
    try match goal with
        | H : workers ?s !! ?i = Some ?w |- context [<[?i:=?w']> (workers ?s)] =>
            let rest := fresh "rest" in
            let H1 := fresh in
            let H2 := fresh in
            destruct (worker_tasks_insert _ _ _ w' H) as (rest & H1 & H2);
            rewrite H1, H2; simpl; rewrite ?task_of_scan_result
        end.
  all: solve_submseteq.
Qed.

Lemma run_held_tasks e sched : forall s s',
  run e sched s = Next s' -> held_tasks s' ⊆+ held_tasks s.
Proof.
  induction sched as [|l sched IH]; intros s s' Hrun; simpl in Hrun.
  - inversion Hrun; reflexivity.
  - destruct (step e l s) as [s1| |] eqn:Hs; try discriminate.
    etransitivity; [eapply IH; eassumption|]. eapply step_held_tasks; eassumption.
Qed.

Lemma New_held_tasks cfg tg ps now s0 :
  New cfg tg ps now = Next s0 -> held_tasks s0 = all_tasks tg ps.
Proof.
  unfold New. destruct (New_rateLimiter (RateLimit cfg)); try discriminate.
  intros H; inversion H; subst s0. unfold held_tasks, to_submit; simpl.
  apply app_nil_r.
Qed.

Lemma all_tasks_length tg ps :
  length (all_tasks tg ps) = (length tg * length ps)%nat.
Proof.
  unfold all_tasks. induction tg as [|a tg IH]; simpl; [reflexivity|].
  rewrite length_app, length_map, IH. reflexivity.
Qed.

Lemma all_tasks_elem tg ps t :
  t ∈ all_tasks tg ps <-> IP t ∈ tg /\ Port t ∈ ps.
Proof.
  unfold all_tasks. rewrite !list_elem_of_In, in_flat_map. split.
  - intros (a & Ha & Ht). apply in_map_iff in Ht as (p & <- & Hp). auto.
  - intros (Ha & Hp).
    exists (IP t). split; [assumption|].
    apply in_map_iff. exists (Port t). destruct t; auto.
Qed.

Lemma all_tasks_NoDup tg ps : NoDup tg -> NoDup ps -> NoDup (all_tasks tg ps).
Proof.
  intros Htg Hps. unfold all_tasks.
  induction Htg as [|a tg Ha Htg IH]; simpl; [constructor|].
  apply NoDup_app. split; [|split; [|assumption]].
  - assert (Inj eq eq (mkTask a)) by (intros p q Hpq; congruence).
    apply (NoDup_fmap_2 (mkTask a)). assumption.
  - intros t Ht Ht'. apply list_elem_of_In, in_map_iff in Ht as (p & <- & _).
    apply (all_tasks_elem tg ps) in Ht' as (Ht' & _). simpl in Ht'.
    exact (Ha Ht').
Qed.

Lemma step_returns_inv e l s s' :
  step e l s = Next s' -> returns_inv e s -> returns_inv e s'.
Proof.
  intros Hs Hinv.
  destruct l; step_split Hs; unfold returns_inv in *; simpl in *;
    repeat match goal with
           | H : orch s = _ |- _ => rewrite H in *
           end; simpl in *; unfold final_ret; simpl;
    repeat match goal with
           | H : Result.write_status _ _ = _ |- _ => rewrite H in *
           end; try tauto; try (destruct Hinv as [->| [-> ?]]; tauto).
  unfold final_ret in Hinv. destruct (orch s); tauto.
Qed.

Lemma held_tasks_results s :
  (length (Result.results (collector s)) <= length (held_tasks s))%nat.
Proof. unfold held_tasks. rewrite !length_app, !length_map. lia. Qed.

Lemma sortSlice_length rs : length (Result.sortSlice rs) = length rs.
Proof. apply Permutation_length, sortSlice_perm. Qed.

Lemma step_monitor_inv e cfg tg ps l s s' :
  step e l s = Next s' ->
  session_inv e cfg tg ps s ->
  held_tasks s ⊆+ all_tasks tg ps ->
  Z.of_nat (length tg) * Z.of_nat (length ps) <= max_int ->
  monitor_inv (length (all_tasks tg ps)) s ->
  monitor_inv (length (all_tasks tg ps)) s'.
Proof.
  intros Hs (Hcfg & Htg & Hps & _ & _ & (Htot & _) & _) Hheld Hb (M1 & M2).
  pose proof (held_tasks_results s) as Hlen.
  apply submseteq_length in Hheld.
  rewrite all_tasks_length in *.
  assert (Hcount : (Result.TotalScanned (Result.GetSummary (collector s))
                     >=? totalTasks s) = true ->
                   (length tg * length ps <= length (Result.results (collector s)))%nat).
  { unfold Result.GetSummary, totalTasks. rewrite Htot, Htg, Hps.
    rewrite !int_wrap_small by (unfold in_int, min_int, max_int in *; lia).
    intros H%Z.geb_le. lia. }
  unfold monitor_inv.
  destruct l; step_split Hs; simpl in *;
    repeat match goal with
           | H : orch s = _ |- _ => rewrite H in *
           | H : progress s = _ |- _ => rewrite H in *
           end; unfold Nat.ltb in *; simpl in *;
    rewrite ?length_app, ?sortSlice_length; simpl;
    (split; [try tauto; try congruence | try tauto]).
  all: intros; try discriminate.
  all: try (destruct M2 as [|]; [assumption | left; congruence | right; lia]).
  all: specialize (M1 ltac:(assumption) ltac:(assumption)); discriminate.
Qed.

Lemma step_channels_inv e l s s' :
  step e l s = Next s' -> channels_inv s -> channels_inv s'.
Proof.
  intros Hs (H1 & H2 & H3). unfold channels_inv.
  destruct l; step_split Hs; simpl in *;
    repeat match goal with
           | H : orch s = _ |- _ => rewrite H in *
           end; unfold Nat.ltb in *; simpl in *; try (split; [|split]);
    congruence.
Qed.

Lemma run_channels_inv e sched : forall s s',
  run e sched s = Next s' -> channels_inv s -> channels_inv s'.
Proof.
  induction sched as [|l sched IH]; intros s s' Hrun Hinv; simpl in Hrun.
  - congruence.
  - destruct (step e l s) as [s1| |] eqn:Hs; try discriminate.
    eapply IH; [eassumption|]. eapply step_channels_inv; eassumption.
Qed.

Lemma New_channels_inv cfg tg ps now s0 :
  New cfg tg ps now = Next s0 -> channels_inv s0.
Proof.
  unfold New. destruct (New_rateLimiter (RateLimit cfg)); try discriminate.
  intros H; inversion H; subst s0. repeat split.
Qed.

(** X11. A running session panics in two places only, and [Scan] itself in
    none: a worker that sends its result after [Scan] has closed the result
    channel, and [collectResults] that submits a result after [Scan] has
    closed the collector. *)
Theorem session_panics_only_on_the_channels_Scan_closed
  e cfg tg ps now s0 sched s l :
  New cfg tg ps now = Next s0 -> run e sched s0 = Next s ->
  step e l s = Panic <->
  (exists i r, l = LWorker i /\ workers s !! i = Some (WSend r)
               /\ (4 < stage (orch s))%nat)
  \/ (exists r, l = LForward /\ forwarder s = FSubmit r
                /\ (5 < stage (orch s))%nat).
Proof.
  intros HN Hrun.
  pose proof (run_channels_inv _ _ _ _ Hrun (New_channels_inv _ _ _ _ _ HN))
    as (H1 & H2 & H3).
  split.
  - intros Hs.
    destruct l; step_split Hs; simpl in *;
      repeat match goal with
             | H : orch s = _ |- _ => rewrite H in *
             end; simpl in *; try congruence.
    + left. exists i, r. repeat split; [assumption|].
      apply Nat.ltb_lt. congruence.
    + right. exists r. repeat split. apply Nat.ltb_lt. congruence.
  - intros [(i & r & -> & Hw & Hst)|(r & -> & Hf & Hst)]; simpl.
    + unfold worker_step. rewrite Hw. unfold chan_send.
      apply Nat.ltb_lt in Hst. rewrite H2, Hst. reflexivity.
    + unfold forward_step. rewrite Hf. unfold Result.Submit, chan_send.
      apply Nat.ltb_lt in Hst. rewrite H3, Hst. reflexivity.
Qed.

Lemma run_returns_inv e sched : forall s s',
  run e sched s = Next s' -> returns_inv e s -> returns_inv e s'.
Proof.
  induction sched as [|l sched IH]; intros s s' Hrun Hinv; simpl in Hrun.
  - congruence.
  - destruct (step e l s) as [s1| |] eqn:Hs; try discriminate.
    eapply IH; [eassumption|]. eapply step_returns_inv; eassumption.
Qed.

Lemma run_monitor_inv e cfg tg ps sched : forall s s',
  run e sched s = Next s' ->
  Z.of_nat (length tg) * Z.of_nat (length ps) <= max_int ->
  session_inv e cfg tg ps s ->
  held_tasks s ⊆+ all_tasks tg ps ->
  monitor_inv (length (all_tasks tg ps)) s ->
  monitor_inv (length (all_tasks tg ps)) s'.
Proof.
  induction sched as [|l sched IH]; intros s s' Hrun Hb Hses Hheld Hinv;
    simpl in Hrun.
  - congruence.
  - destruct (step e l s) as [s1| |] eqn:Hs; try discriminate.
    eapply IH; [eassumption|assumption| | |].
    + eapply step_session_inv; eassumption.
    + etransitivity; [eapply step_held_tasks; eassumption|assumption].
    + eapply step_monitor_inv; eassumption.
Qed.

Lemma session_panics_only_on_the_channels_Scan_closed_witness :
  match Scenario.one_task_scan with
  | Next s0 =>
      match run Scenario.refusing_env Scenario.early_close_schedule s0 with
      | Next s => step Scenario.refusing_env (LWorker 0) s = Panic
      | _ => False
      end
  | _ => False
  end.
Proof.
  destruct Scenario.one_task_scan as [s0| |] eqn:H0;
    try (vm_compute in H0; discriminate).
  destruct (run Scenario.refusing_env Scenario.early_close_schedule s0)
    as [s| |] eqn:H1;
    try (vm_compute in H0; inversion H0; subst; vm_compute in H1; discriminate).
  apply (proj2 (session_panics_only_on_the_channels_Scan_closed
                  _ _ _ _ _ _ _ _ (LWorker 0) H0 H1)).
  left. exists 0%nat.
  vm_compute in H0; inversion H0; subst; vm_compute in H1; inversion H1.
  eexists. split; [reflexivity|]. split; [reflexivity|]. simpl. lia.
Defined.

Lemma step_queue_inv e T l s s' :
  step e l s = Next s' -> queue_inv T s -> queue_inv T s'.
Proof.
  intros Hs (before & after & HT & Ha).
  destruct l; step_split Hs; unfold queue_inv, to_submit in *; simpl in *;
    repeat match goal with
           | H : orch s = _ |- _ => rewrite H in *
           | H : buf _ = _ |- _ => rewrite H in *
           end; simpl in *.
  all: try (exists before, after; split; [reflexivity|]; intros; try lia; auto; fail).
  all: try (rewrite (Ha ltac:(lia)); eexists before, _;
            split; [rewrite <- !app_assoc; reflexivity|]; intros; reflexivity).
  all: try (eexists (before ++ [_]), after;
            split; [rewrite <- !app_assoc; reflexivity|]; intros; auto).
Qed.

Lemma run_queue_inv e T sched : forall s s',
  run e sched s = Next s' -> queue_inv T s -> queue_inv T s'.
Proof.
  induction sched as [|l sched IH]; intros s s' Hrun Hinv; simpl in Hrun.
  - congruence.
  - destruct (step e l s) as [s1| |] eqn:Hs; try discriminate.
    eapply IH; [eassumption|]. eapply step_queue_inv; eassumption.
Qed.

(** X12. The task channel always holds a consecutive stretch of the task
    list, in its order: [generateTasks] submits the tasks target by target
    and port by port, the workers take them in that order, and while
    [generateTasks] runs, the tasks it has yet to submit are exactly those
    after the queue. *)
Theorem tasks_are_queued_in_order e cfg tg ps now s0 sched s :
  New cfg tg ps now = Next s0 -> run e sched s0 = Next s ->
  exists before after,
    all_tasks tg ps = before ++ buf (taskChan s) ++ after
    /\ ((stage (orch s) <= 1)%nat -> after = to_submit s).
Proof.
  intros HN Hrun.
  apply (run_queue_inv e (all_tasks tg ps) _ _ _ Hrun).
  revert HN. unfold New.
  destruct (New_rateLimiter (RateLimit cfg)); try discriminate.
  intros H; inversion H; subst s0.
  exists [], (all_tasks tg ps). split; reflexivity.
Qed.

Lemma tasks_are_queued_in_order_witness :
  match Scenario.two_task_scan with
  | Next s0 =>
      match run Scenario.refusing_env [LOrch; LOrch; LOrch] s0 with
      | Next s =>
          exists before after,
            all_tasks ["10.0.0.2"; "10.0.0.1"] [80]
            = before ++ buf (taskChan s) ++ after
      | _ => False
      end
  | _ => False
  end.
Proof.
  destruct Scenario.two_task_scan as [s0| |] eqn:H0;
    try (vm_compute in H0; discriminate).
  destruct (run Scenario.refusing_env [LOrch; LOrch; LOrch] s0) as [s| |] eqn:H1;
    try (vm_compute in H0; inversion H0; subst; vm_compute in H1; discriminate).
  destruct (tasks_are_queued_in_order _ _ _ _ _ _ _ _ H0 H1)
    as (before & after & HT & _).
  exists before, after. exact HT.
Defined.

Lemma results_of_their_tasks e T rs :
  Forall (from_task e T) rs -> rs = map (scan_result (probes e)) (map task_of rs).
Proof.
  induction 1 as [|r rs (t & _ & ->) _ IH]; simpl; [reflexivity|].
  rewrite task_of_scan_result. f_equal. assumption.
Qed.

Lemma results_sub_tasks e cfg tg ps now s0 sched s :
  New cfg tg ps now = Next s0 -> run e sched s0 = Next s ->
  map task_of (GetResults s) ⊆+ all_tasks tg ps.
Proof.
  intros HN Hrun.
  rewrite <- (New_held_tasks _ _ _ _ _ HN).
  etransitivity; [|eapply run_held_tasks; eassumption].
  unfold held_tasks, GetResults, Result.GetResults.
  solve_submseteq.
Qed.

(** X13. Whatever the schedule, the results that a session has collected are
    the probe outcomes of tasks of the scan, each task counted as often as
    the scan has it: no task is reported twice, and there are never more
    results than targets times ports. *)
Theorem Scan_reports_each_task_at_most_once e cfg tg ps now s0 sched s :
  New cfg tg ps now = Next s0 -> run e sched s0 = Next s ->
  map task_of (GetResults s) ⊆+ all_tasks tg ps
  /\ GetResults s = map (scan_result (probes e)) (map task_of (GetResults s))
  /\ (length (GetResults s) <= length tg * length ps)%nat
  /\ (NoDup tg -> NoDup ps -> NoDup (map task_of (GetResults s))).
Proof.
  intros HN Hrun.
  pose proof (results_sub_tasks e _ _ _ _ _ _ _ HN Hrun) as Hsub.
  pose proof (run_session_inv e cfg tg ps _ _ _ Hrun
                (New_session_inv e cfg tg ps now s0 HN))
    as (_ & _ & _ & _ & Hprov & _).
  destruct Hprov as (_ & _ & _ & _ & _ & _ & Hres).
  repeat split.
  - assumption.
  - eapply results_of_their_tasks. exact Hres.
  - apply submseteq_length in Hsub.
    rewrite length_map, all_tasks_length in Hsub. assumption.
  - intros Htg Hps.
    apply submseteq_Permutation in Hsub as (k & Hk).
    pose proof (all_tasks_NoDup tg ps Htg Hps) as Hnd.
    rewrite Hk in Hnd. apply NoDup_app in Hnd. tauto.
Qed.

Lemma Scan_reports_each_task_at_most_once_witness :
  match Scenario.two_task_scan with
  | Next s0 =>
      match run Scenario.refusing_env Scenario.first_task_done s0 with
      | Next s =>
          map task_of (GetResults s) ⊆+ all_tasks ["10.0.0.2"; "10.0.0.1"] [80]
      | _ => False
      end
  | _ => False
  end.
Proof.
  destruct Scenario.two_task_scan as [s0| |] eqn:H0;
    try (vm_compute in H0; discriminate).
  destruct (run Scenario.refusing_env Scenario.first_task_done s0) as [s| |] eqn:H1;
    try (vm_compute in H0; inversion H0; subst; vm_compute in H1; discriminate).
  exact (proj1 (Scan_reports_each_task_at_most_once _ _ _ _ _ _ _ _ H0 H1)).
Defined.

(** X14. With [Verbose], a [Scan] that has returned and whose context was
    not cancelled has collected the outcome of every task (provided the
    number of tasks fits an [int]): the results are a permutation of the
    probe outcomes of all the tasks, sorted by key, and the summary counts
    them all. *)
Theorem verbose_Scan_returns_with_every_outcome
  e cfg tg ps now s0 sched s ret :
  New cfg tg ps now = Next s0 -> run e sched s0 = Next s ->
  Verbose cfg = true ->
  Z.of_nat (length tg) * Z.of_nat (length ps) <= max_int ->
  orch s = OReturned ret -> cancelled s = false ->
  GetResults s ≡ₚ map (scan_result (probes e)) (all_tasks tg ps)
  /\ StronglySorted Result.key_le (GetResults s)
  /\ Result.TotalScanned (GetSummary s)
     = Z.of_nat (length tg) * Z.of_nat (length ps).
Proof.
  intros HN Hrun Hv Hb Ho Hc.
  pose proof (results_sub_tasks e _ _ _ _ _ _ _ HN Hrun) as Hsub.
  pose proof (New_session_inv e cfg tg ps now s0 HN) as Hses0.
  pose proof (run_session_inv e cfg tg ps _ _ _ Hrun Hses0)
    as (Hcfg & _ & _ & _ & Hprov & (Htot & _) & _ & Hsorted).
  destruct Hprov as (_ & _ & _ & _ & _ & _ & Hres).
  assert (Hmon0 : monitor_inv (length (all_tasks tg ps)) s0).
  { revert HN. unfold New.
    destruct (New_rateLimiter (RateLimit cfg)); try discriminate.
    intros H; inversion H; subst s0. split; simpl; intros; discriminate. }
  pose proof (run_monitor_inv e cfg tg ps _ _ _ Hrun Hb Hses0
                ltac:(rewrite (New_held_tasks _ _ _ _ _ HN); reflexivity) Hmon0)
    as (M1 & M2).
  rewrite Hcfg, Ho in M1. specialize (M1 Hv eq_refl).
  destruct (M2 M1) as [Hcan|Hlen]; [congruence|].
  assert (Hperm : map task_of (GetResults s) ≡ₚ all_tasks tg ps).
  { apply submseteq_length_Permutation; [assumption|].
    rewrite length_map. exact Hlen. }
  repeat split.
  - rewrite (results_of_their_tasks _ _ _ Hres) at 1.
    unfold GetResults, Result.GetResults in *.
    apply Permutation_map. exact Hperm.
  - apply Hsorted. rewrite Ho. reflexivity.
  - unfold GetSummary, Result.GetSummary. rewrite Htot.
    apply Permutation_length in Hperm.
    rewrite length_map, all_tasks_length in Hperm.
    unfold GetResults, Result.GetResults in Hperm. rewrite Hperm.
    rewrite Nat2Z.inj_mul.
    apply int_wrap_small. unfold in_int, min_int, max_int in *. lia.
Qed.

Lemma verbose_Scan_returns_with_every_outcome_witness :
  match Walkthrough.verbose_scan with
  | Next s0 =>
      match run Scenario.refusing_env Walkthrough.complete_schedule s0 with
      | Next s =>
          GetResults s
          ≡ₚ map (scan_result (probes Scenario.refusing_env))
               (all_tasks ["10.0.0.2"; "10.0.0.1"] [80])
      | _ => False
      end
  | _ => False
  end.
Proof.
  destruct Walkthrough.verbose_scan as [s0| |] eqn:H0;
    try (vm_compute in H0; discriminate).
  destruct (run Scenario.refusing_env Walkthrough.complete_schedule s0)
    as [s| |] eqn:H1;
    try (vm_compute in H0; inversion H0; subst; vm_compute in H1; discriminate).
  assert (Ho : orch s = OReturned None /\ cancelled s = false).
  { vm_compute in H0; inversion H0; subst; vm_compute in H1; inversion H1.
    split; reflexivity. }
  refine (proj1 (verbose_Scan_returns_with_every_outcome _ _ _ _ _ _ _ _ _
                   H0 H1 eq_refl _ (proj1 Ho) (proj2 Ho))).
  vm_compute. discriminate.
Defined.

Lemma returned_value e cfg tg ps now s0 sched s ret :
  New cfg tg ps now = Next s0 -> run e sched s0 = Next s ->
  orch s = OReturned ret ->
  match Result.write_status (OutputFormat cfg) (writer_err e) with
  | Some we => ret = Some (ErrWriteResults we)
  | None => ret = None \/ (ret = Some Canceled /\ cancelled s = true)
  end.
Proof.
  intros HN Hrun Ho.
  pose proof (run_session_inv e cfg tg ps _ _ _ Hrun
                (New_session_inv e cfg tg ps now s0 HN))
    as (_ & _ & _ & Hfmt & _).
  assert (Hret0 : returns_inv e s0).
  { revert HN. unfold New.
    destruct (New_rateLimiter (RateLimit cfg)); try discriminate.
    intros H; inversion H; subst s0. exact I. }
  pose proof (run_returns_inv _ _ _ _ Hrun Hret0) as Hret.
  unfold returns_inv in Hret. rewrite Ho, Hfmt in Hret. unfold final_ret in Hret.
  destruct (Result.write_status (OutputFormat cfg) (writer_err e)) as [we|].
  - tauto.
  - assumption.
Qed.

(** X15. [Scan] returns [nil], [context.Canceled] or the error of
    [WriteResults], which replaces the other two; it returns
    [context.Canceled] only if the context has been cancelled, so that
    [main] exits with 130 only then. *)
Theorem Scan_returns_nil_Canceled_or_write_error
  e cfg tg ps now s0 sched s ret :
  New cfg tg ps now = Next s0 -> run e sched s0 = Next s ->
  orch s = OReturned ret ->
  match Result.write_status (OutputFormat cfg) (writer_err e) with
  | Some we => ret = Some (ErrWriteResults we)
  | None => ret = None \/ (ret = Some Canceled /\ cancelled s = true)
  end
  /\ (Main.exit_code ret = 130 -> cancelled s = true).
Proof.
  intros HN Hrun Ho.
  pose proof (returned_value _ _ _ _ _ _ _ _ _ HN Hrun Ho) as Hret.
  split; [exact Hret|].
  destruct (Result.write_status (OutputFormat cfg) (writer_err e)) as [we|].
  - subst ret. discriminate.
  - destruct Hret as [->|[-> Hc]]; [discriminate|auto].
Qed.

Lemma Scan_returns_nil_Canceled_or_write_error_witness :
  match Scenario.one_task_scan with
  | Next s0 =>
      match run Scenario.refusing_env Scenario.early_close_schedule s0 with
      | Next s => orch s = OReturned None /\ Main.exit_code None <> 130
      | _ => False
      end
  | _ => False
  end.
Proof.
  destruct Scenario.one_task_scan as [s0| |] eqn:H0;
    try (vm_compute in H0; discriminate).
  destruct (run Scenario.refusing_env Scenario.early_close_schedule s0)
    as [s| |] eqn:H1;
    try (vm_compute in H0; inversion H0; subst; vm_compute in H1; discriminate).
  assert (Ho : orch s = OReturned None).
  { vm_compute in H0; inversion H0; subst; vm_compute in H1; inversion H1.
    reflexivity. }
  split; [exact Ho|].
  pose proof (Scan_returns_nil_Canceled_or_write_error _ _ _ _ _ _ _ _ _ H0 H1 Ho)
    as [_ _].
  discriminate.
Defined.

End TaskTracking.

(** ** The configuration *)

Section Configuration.
Import Config.

Lemma validFormats_spec f :
  default false (validFormats !! f) = true <-> f = "text" \/ f = "json" \/ f = "csv".
Proof.
  unfold validFormats. split.
  - intros H.
    destruct (decide (f = "text")) as [|H1]; [auto|].
    destruct (decide (f = "json")) as [|H2]; [auto|].
    destruct (decide (f = "csv")) as [|H3]; [auto|].
    rewrite !lookup_insert_ne in H by congruence.
    rewrite lookup_empty in H. discriminate.
  - intros [-> | [-> | ->]]; reflexivity.
Qed.

Lemma Validate_accepts c :
  Validate c = None <->
  Targets c <> [] /\ Ports c <> ""
  /\ 1 <= Workers c <= 10000
  /\ 1000000 <= Timeout c <= 300000000000
  /\ 0 <= RateLimit c
  /\ (OutputFormat c = "text" \/ OutputFormat c = "json" \/ OutputFormat c = "csv").
Proof.
  unfold Validate, Millisecond, Minute.
  rewrite <- validFormats_spec.
  destruct (Targets c) as [|t ts]; simpl.
  { split; [discriminate|]. intros (H & _). congruence. }
  destruct (String.eqb_spec (Ports c) "") as [Hp|Hp].
  { split; [discriminate|]. intros (_ & H & _). congruence. }
  destruct (Z.ltb_spec (Workers c) 1).
  { split; [discriminate|]. lia. }
  destruct (Z.gtb_spec (Workers c) 10000).
  { split; [discriminate|]. lia. }
  destruct (Z.ltb_spec (Timeout c) 1000000).
  { split; [discriminate|]. lia. }
  destruct (Z.gtb_spec (Timeout c) (5 * 60000000000)).
  { split; [discriminate|]. lia. }
  destruct (Z.ltb_spec (RateLimit c) 0).
  { split; [discriminate|]. lia. }
  destruct (default false (validFormats !! OutputFormat c)); simpl.
  - split; [intros _|reflexivity].
    repeat split; try lia; try congruence.
  - split; [discriminate|]. intros (_ & _ & _ & _ & _ & Hf). discriminate.
Qed.

Lemma validated_bufferSize c :
  Validate c = None ->
  Worker.bufferSize (Workers c) = Z.min (10 * Workers c) 10000.
Proof.
  intros (_ & _ & Hw & _)%Validate_accepts.
  unfold Worker.bufferSize.
  rewrite int_wrap_small by (unfold in_int, min_int, max_int; lia).
  destruct (Z.gtb_spec (Workers c * 10) 10000); lia.
Qed.

(** The last part of [scanner.New], for a configuration that [Validate]
    accepts. *)
Lemma Scanner_New_validated c tg ps now :
  Validate c = None ->
  (Scanner.New (for_scanner c) tg ps now = Panic <-> 1000000000 < RateLimit c)
  /\ (RateLimit c <= 1000000000 ->
      exists s0,
        Scanner.New (for_scanner c) tg ps now = Next s0
        /\ Z.of_nat (cap (Scanner.taskChan s0)) = Z.min (10 * Workers c) 10000
        /\ 10 <= Z.of_nat (cap (Scanner.taskChan s0)) <= 10000
        /\ cap (Scanner.resultChan s0) = 1000%nat
        /\ Scanner.rateLimiter s0
           = (if RateLimit c =? 0 then None else Some (1000000000 / RateLimit c))).
Proof.
  intros Hv. pose proof (validated_bufferSize c Hv) as Hbuf.
  apply Validate_accepts in Hv as (_ & _ & Hw & _ & Hr & _).
  unfold Scanner.New, Scanner.New_rateLimiter, Scanner.NewTicker,
    Scanner.interval, Scanner.Second. simpl.
  rewrite Hbuf.
  destruct (Z.gtb_spec (RateLimit c) 0) as [Hpos|Hzero].
  - rewrite Z.quot_div_nonneg by lia.
    destruct (Z.leb_spec (1000000000 / RateLimit c) 0) as [Hq|Hq].
    + assert (1000000000 < RateLimit c).
      { destruct (Z.le_gt_cases (RateLimit c) 1000000000) as [Hle|]; [|lia].
        assert (1 <= 1000000000 / RateLimit c)
          by (apply Z.div_le_lower_bound; lia). lia. }
      split; [tauto|]. lia.
    + assert (RateLimit c <= 1000000000).
      { destruct (Z.le_gt_cases (RateLimit c) 1000000000) as [|Hgt]; [assumption|].
        rewrite Z.div_small in Hq by lia. lia. }
      split; [split; [discriminate|lia]|].
      intros _. eexists. split; [reflexivity|]. simpl.
      destruct (Z.eqb_spec (RateLimit c) 0); [lia|].
      repeat split; lia.
  - split; [split; [discriminate|lia]|].
    intros _. eexists. split; [reflexivity|]. simpl.
    destruct (Z.eqb_spec (RateLimit c) 0); [|lia].
    repeat split; lia.
Qed.

(** X16. For a configuration that [Validate] accepts, [scanner.New] first
    returns the error of [ParseTargets], else that of [ParsePorts], else
    that of the creation of the collector. Only when all three succeed does
    it reach the rate limiter: it then panics, in [time.NewTicker], exactly
    when the rate limit exceeds 10^9 per second, which [Validate] lets
    through, and otherwise returns the scanner, with the parsed targets and
    ports, a task channel for ten tasks per worker and at most 10000, a
    result channel for 1000 results, and a ticker exactly when the limit is
    not 0. *)
Theorem New_of_a_validated_configuration
  net_ParseCIDR net_ParseIP IP_String os_Create fuel c now :
  Validate c = None ->
  (Targets.ParseTargets net_ParseCIDR net_ParseIP IP_String fuel (Targets c) = None ->
   Startup.New net_ParseCIDR net_ParseIP IP_String os_Create fuel c now = None)
  /\ (forall err,
        Targets.ParseTargets net_ParseCIDR net_ParseIP IP_String fuel (Targets c)
        = Some (inl err) ->
        Startup.New net_ParseCIDR net_ParseIP IP_String os_Create fuel c now
        = Some (Next (inl (Startup.ErrParseTargets err))))
  /\ (forall tg,
        Targets.ParseTargets net_ParseCIDR net_ParseIP IP_String fuel (Targets c)
        = Some (inr tg) ->
        (forall err,
           Parser.ParsePorts (Ports c) = inl err ->
           Startup.New net_ParseCIDR net_ParseIP IP_String os_Create fuel c now
           = Some (Next (inl (Startup.ErrParsePorts err))))
        /\ (forall ps,
              Parser.ParsePorts (Ports c) = inr ps ->
              (forall msg,
                 Startup.NewCollector_error os_Create (OutputFile c) = Some msg ->
                 Startup.New net_ParseCIDR net_ParseIP IP_String os_Create fuel c now
                 = Some (Next (inl (Startup.ErrCreateCollector msg))))
              /\ (Startup.NewCollector_error os_Create (OutputFile c) = None ->
                  (Startup.New net_ParseCIDR net_ParseIP IP_String os_Create fuel c now
                   = Some Panic
                   <-> 1000000000 < RateLimit c)
                  /\ (RateLimit c <= 1000000000 ->
                      exists s0,
                        Startup.New net_ParseCIDR net_ParseIP IP_String os_Create
                          fuel c now
                        = Some (Next (inr s0))
                        /\ Scanner.targets s0 = tg /\ Scanner.ports s0 = ps
                        /\ Z.of_nat (cap (Scanner.taskChan s0))
                           = Z.min (10 * Workers c) 10000
                        /\ 10 <= Z.of_nat (cap (Scanner.taskChan s0)) <= 10000
                        /\ cap (Scanner.resultChan s0) = 1000%nat
                        /\ Scanner.rateLimiter s0
                           = (if RateLimit c =? 0 then None
                              else Some (1000000000 / RateLimit c)))))).
Proof.
  intros Hv. unfold Startup.New.
  split; [intros ->; reflexivity|].
  split; [intros err ->; reflexivity|].
  intros tg ->.
  split; [intros err ->; reflexivity|].
  intros ps ->.
  split; [intros msg ->; reflexivity|].
  intros ->.
  destruct (Scanner_New_validated c tg ps now Hv) as (Hpanic & Hok).
  pose proof (proj1 (Validate_accepts c) Hv) as (_ & _ & Hw & _).
  destruct (Z.ltb_spec (Workers c) 0) as [Hneg|_]; [lia|].
  split.
  - rewrite <- Hpanic.
    destruct (Scanner.New (for_scanner c) tg ps now); split; congruence.
  - intros Hr. destruct (Hok Hr) as (s0 & HN & Hcap & Hrange & Hres & Hlim).
    exists s0. rewrite HN. split; [reflexivity|].
    assert (Htp : Scanner.targets s0 = tg /\ Scanner.ports s0 = ps).
    { revert HN. unfold Scanner.New.
      destruct (Scanner.New_rateLimiter _); try discriminate.
      intros H; inversion H; subst s0. split; reflexivity. }
    destruct Htp as (Ht & Hp). auto 10.
Qed.

Lemma New_of_a_validated_configuration_witness :
  Startup.New Targets.book_ParseCIDR Targets.book_ParseIP Targets.book_String
    (fun _ => None) 10
    (mkConfig ["10.0.0.1"] "80" 100 2000000000 2000000000 "" "text" false) 0
  = Some Panic
  /\ Startup.New Targets.book_ParseCIDR Targets.book_ParseIP Targets.book_String
       (fun _ => None) 10
       (mkConfig ["10.0.0.300"] "80" 100 2000000000 2000000000 "" "text" false) 0
     = Some (Next (inl (Startup.ErrParseTargets (Targets.ErrInvalidIP "10.0.0.300")))).
Proof.
  split.
  - destruct (New_of_a_validated_configuration
                Targets.book_ParseCIDR Targets.book_ParseIP Targets.book_String
                (fun _ => None) 10
                (mkConfig ["10.0.0.1"] "80" 100 2000000000 2000000000 "" "text" false)
                0 eq_refl)
      as (_ & _ & H).
    destruct (H ["10.0.0.1"] eq_refl) as (_ & H').
    destruct (H' [80] eq_refl) as (_ & H'').
    destruct (H'' eq_refl) as (Hpanic & _).
    apply Hpanic. simpl. lia.
  - destruct (New_of_a_validated_configuration
                Targets.book_ParseCIDR Targets.book_ParseIP Targets.book_String
                (fun _ => None) 10
                (mkConfig ["10.0.0.300"] "80" 100 2000000000 2000000000 "" "text" false)
                0 eq_refl)
      as (_ & H & _).
    apply H. reflexivity.
Defined.

(** X17. After [Validate], the [default] case of [WriteResults] is out of
    reach: a [Scan] that has returned never reports an unsupported format;
    with the text format, or with no error from the encoder, it returns
    [nil], or [context.Canceled] when the context has been cancelled. *)
Theorem validated_Scan_never_reports_unsupported_format
  e c tg ps now s0 sched s ret :
  Validate c = None ->
  Scanner.New (for_scanner c) tg ps now = Next s0 ->
  Scanner.run e sched s0 = Next s ->
  Scanner.orch s = Scanner.OReturned ret ->
  (forall f, ret <> Some (Scanner.ErrWriteResults (Result.ErrUnsupportedFormat f)))
  /\ (OutputFormat c = "text" \/ Scanner.writer_err e = None ->
      ret = None \/ (ret = Some Scanner.Canceled /\ Scanner.cancelled s = true)).
Proof.
  intros Hv HN Hrun Ho.
  pose proof (returned_value _ _ _ _ _ _ _ _ _ HN Hrun Ho) as Hret.
  apply Validate_accepts in Hv as (_ & _ & _ & _ & _ & Hf).
  simpl in Hret. unfold Result.write_status in Hret.
  destruct Hf as [Hf|[Hf|Hf]]; rewrite Hf in *; simpl in Hret;
    destruct (Scanner.writer_err e) as [msg|]; simpl in Hret;
    (split; [intros f | intros [Hc|Hc]; try discriminate; try assumption]);
    try (subst ret; discriminate);
    destruct Hret as [->|[-> _]]; discriminate.
Qed.

Lemma validated_Scan_never_reports_unsupported_format_witness :
  match Scenario.one_task_scan with
  | Next s0 =>
      match Scanner.run Scenario.refusing_env Scenario.early_close_schedule s0 with
      | Next s => Scanner.orch s = Scanner.OReturned None
      | _ => False
      end
  | _ => False
  end.
Proof.
  destruct Scenario.one_task_scan as [s0| |] eqn:H0;
    try (vm_compute in H0; discriminate).
  destruct (Scanner.run Scenario.refusing_env Scenario.early_close_schedule s0)
    as [s| |] eqn:H1;
    try (vm_compute in H0; inversion H0; subst; vm_compute in H1; discriminate).
  assert (Ho : Scanner.orch s = Scanner.OReturned None).
  { vm_compute in H0; inversion H0; subst; vm_compute in H1; inversion H1.
    reflexivity. }
  pose proof (validated_Scan_never_reports_unsupported_format
                Scenario.refusing_env
                (mkConfig ["127.0.0.1"] "80" 1 2000000000 0 "" "text" false)
                _ _ _ _ _ _ _ eq_refl H0 H1 Ho) as [_ _].
  exact Ho.
Defined.

End Configuration.

(** ** The targets flag *)

Section TargetsFlag.
Import Strings Flags.

Lemma Contains_rev_app s1 c : forall s2,
  Contains (String.rev_app s1 s2) c = Contains s1 c || Contains s2 c.
Proof.
  induction s1 as [|a s1 IH]; intros s2; simpl; [reflexivity|].
  rewrite IH. simpl.
  destruct (Ascii.eqb a c), (Contains s1 c); reflexivity.
Qed.

Lemma Contains_rev s c : Contains (String.rev s) c = Contains s c.
Proof.
  unfold String.rev. rewrite Contains_rev_app. simpl. apply orb_false_r.
Qed.

Lemma Contains_TrimLeft_len n c : forall s,
  (String.length s <= n)%nat ->
  Contains (TrimLeft s) c = true -> Contains s c = true.
Proof.
  induction n as [|n IH]; intros [|a r] Hn; simpl in *; try lia; try discriminate;
    try (intros; assumption).
  destruct (isAsciiSpace a).
  { intros H. rewrite (IH r) by (assumption || lia). apply orb_true_r. }
  destruct r as [|b r2]; [intros; assumption|].
  destruct (isSpace2 a b).
  { intros H. simpl in *. rewrite (IH r2) by (assumption || lia).
    rewrite !orb_true_r. reflexivity. }
  destruct r2 as [|c3 r3]; [intros; assumption|].
  destruct (isSpace3 a b c3); [|intros; assumption].
  intros H. simpl in *. rewrite (IH r3) by (assumption || lia).
  rewrite !orb_true_r. reflexivity.
Qed.

Lemma Contains_TrimLeftRev_len n c : forall s,
  (String.length s <= n)%nat ->
  Contains (TrimLeftRev s) c = true -> Contains s c = true.
Proof.
  induction n as [|n IH]; intros [|a r] Hn; simpl in *; try lia; try discriminate;
    try (intros; assumption).
  destruct (isAsciiSpace a).
  { intros H. rewrite (IH r) by (assumption || lia). apply orb_true_r. }
  destruct r as [|b r2]; [intros; assumption|].
  destruct (isSpace2 b a).
  { intros H. simpl in *. rewrite (IH r2) by (assumption || lia).
    rewrite !orb_true_r. reflexivity. }
  destruct r2 as [|c3 r3]; [intros; assumption|].
  destruct (isSpace3 c3 b a); [|intros; assumption].
  intros H. simpl in *. rewrite (IH r3) by (assumption || lia).
  rewrite !orb_true_r. reflexivity.
Qed.

Lemma Contains_TrimSpace s c :
  Contains s c = false -> Contains (TrimSpace s) c = false.
Proof.
  intros Hs. destruct (Contains (TrimSpace s) c) eqn:Ht; [|reflexivity].
  unfold TrimSpace in Ht. rewrite Contains_rev in Ht.
  apply (Contains_TrimLeftRev_len _ c _ (Nat.le_refl _)) in Ht.
  rewrite Contains_rev in Ht.
  apply (Contains_TrimLeft_len _ c _ (Nat.le_refl _)) in Ht.
  congruence.
Qed.

Lemma Split_parts_without_sep s sep :
  Forall (fun p => Contains p sep = false) (Split s sep).
Proof.
  induction s as [|a s IH]; simpl.
  - repeat constructor.
  - destruct (Ascii.eqb a sep) eqn:Ha.
    + constructor; [reflexivity|assumption].
    + destruct (Split s sep) as [|p parts].
      * repeat constructor. simpl. rewrite Ha. reflexivity.
      * inversion IH; subst. constructor; [|assumption].
        simpl. rewrite Ha. assumption.
Qed.

Lemma parseTargets_loop_filter parts : forall result,
  parseTargets_loop parts result
  = result ++ List.filter (fun t => negb (String.eqb t ""))
                (List.map TrimSpace parts).
Proof.
  induction parts as [|p parts IH]; intros result; simpl.
  - symmetry. apply app_nil_r.
  - destruct (String.eqb (TrimSpace p) ""); simpl.
    + apply IH.
    + rewrite IH, <- app_assoc. reflexivity.
Qed.

(** X18. [parseTargets] keeps, in the order of the flag and with their
    repetitions, the trimmed parts between the commas that are not blank: no
    target it returns is empty or contains a comma. *)
Theorem parseTargets_keeps_the_nonblank_parts targets :
  parseTargets targets
  = List.filter (fun t => negb (String.eqb t ""))
      (List.map TrimSpace (Split targets ","%char))
  /\ Forall (fun t => t <> "" /\ Contains t ","%char = false) (parseTargets targets).
Proof.
  unfold parseTargets. rewrite parseTargets_loop_filter. simpl.
  split; [reflexivity|].
  apply Forall_forall. intros t Ht. apply list_elem_of_In in Ht.
  apply filter_In in Ht as (Ht & Hne).
  apply in_map_iff in Ht as (p & <- & Hp).
  split.
  - intros Heq. rewrite Heq in Hne. discriminate.
  - apply Contains_TrimSpace.
    pose proof (Split_parts_without_sep targets ","%char) as Hall.
    rewrite Forall_forall in Hall. apply Hall, list_elem_of_In, Hp.
Qed.

(** X19. [main] goes on to [scanner.New] only with a configuration that
    [Validate] accepts: it has at least one target, and its targets are the
    non-blank parts of the [-t] flag. A flag whose parts are all blank, such
    as a lone comma, passes the test for the empty flag and is rejected by
    [Validate]. *)
Theorem configure_checks_the_targets
  targets ports workers timeout rateLimit outputFile outputFmt verbose :
  (forall cfg,
     configure targets ports workers timeout rateLimit outputFile outputFmt verbose
     = inr cfg ->
     Config.Validate cfg = None
     /\ Config.Targets cfg = parseTargets targets
     /\ Config.Targets cfg <> []
     /\ Config.Workers cfg = workers /\ 1 <= workers <= 10000)
  /\ (Forall (fun p => TrimSpace p = "") (Split targets ","%char) ->
      configure targets ports workers timeout rateLimit outputFile outputFmt verbose
      = inl 1).
Proof.
  unfold configure. split.
  - intros cfg. destruct (String.eqb targets ""); [discriminate|].
    destruct (Config.Validate _) eqn:Hv; [discriminate|].
    intros H; inversion H; subst cfg; clear H.
    pose proof (proj1 (Validate_accepts _) Hv) as (Ht & _ & Hw & _).
    simpl in *. auto.
  - intros Hblank. destruct (String.eqb targets ""); [reflexivity|].
    assert (Hnil : parseTargets targets = []).
    { unfold parseTargets. rewrite parseTargets_loop_filter. simpl.
      induction Hblank as [|p parts Hp _ IH]; simpl; [reflexivity|].
      rewrite Hp. simpl. exact IH. }
    unfold Config.Validate. simpl. rewrite Hnil. reflexivity.
Qed.

Lemma configure_checks_the_targets_witness :
  configure " , " "80" 100 2000000000 0 "" "text" false = inl 1.
Proof.
  apply (proj2 (configure_checks_the_targets " , " "80" 100 2000000000 0 ""
                  "text" false)).
  repeat constructor.
Defined.

End TargetsFlag.

(** ** The expansion of the targets *)

Section TargetLists.
Import Expansion Targets.

Variable net_ParseCIDR : string -> option (Net.IP * Net.IPNet).
Variable net_ParseIP : string -> option Net.IP.
Variable IP_String : Net.IP -> string.

Local Abbreviation loop := (ParseTargets_loop net_ParseCIDR net_ParseIP IP_String).
Local Abbreviation outcome_of := (target_outcome net_ParseCIDR net_ParseIP IP_String).
Local Abbreviation ok := (target_ok net_ParseCIDR net_ParseIP IP_String).
Local Abbreviation ips_of := (ips_of_target net_ParseCIDR net_ParseIP IP_String).

Lemma seen_ips_empty : seen_ips ([], ∅).
Proof.
  intros p. unfold Targets.seen_get. simpl. rewrite lookup_empty. simpl.
  rewrite elem_of_nil. split; [discriminate | tauto].
Qed.

Lemma add_ip_first_seen st ip :
  seen_ips st ->
  seen_ips (add_ip st ip) /\ fst (add_ip st ip) = first_seen (fst st) [ip].
Proof.
  destruct st as [ips seen]. intros Hs. unfold add_ip. simpl.
  destruct (Targets.seen_get seen ip) eqn:Hp.
  - apply (Hs ip) in Hp. simpl in Hp.
    destruct (decide (ip ∈ ips)); [|contradiction]. split; [assumption | reflexivity].
  - assert (Hnin : ip ∉ ips).
    { intros Hin. apply (Hs ip) in Hin. simpl in Hin. congruence. }
    destruct (decide (ip ∈ ips)); [contradiction|]. split; [|reflexivity].
    intros q. unfold Targets.seen_get. simpl.
    rewrite elem_of_app, list_elem_of_singleton.
    destruct (decide (q = ip)) as [->|Hne].
    + rewrite lookup_insert_eq. simpl. tauto.
    + rewrite lookup_insert_ne by congruence. specialize (Hs q).
      unfold Targets.seen_get in Hs. simpl in Hs. rewrite Hs. tauto.
Qed.

Lemma fold_add_ip_first_seen l : forall st,
  seen_ips st ->
  seen_ips (fold_left add_ip l st)
  /\ fst (fold_left add_ip l st) = first_seen (fst st) l.
Proof.
  induction l as [|p l IH]; intros st Hs; simpl; [auto|].
  destruct (add_ip_first_seen st p Hs) as (Hs' & Hf).
  destruct (IH _ Hs') as (Hs'' & Hf'). split; [assumption|].
  rewrite Hf', Hf. simpl. destruct (decide (p ∈ fst st)); reflexivity.
Qed.

(** One iteration of the loop, by the outcome of its target. *)
Lemma loop_cons fuel t rest st :
  loop fuel (t :: rest) st
  = match outcome_of fuel t with
    | None => None
    | Some (inl err) => Some (inl err)
    | Some (inr ips) =>
        if String.eqb (Strings.TrimSpace t) "" then loop fuel rest st
        else if Strings.Contains (Strings.TrimSpace t) "/"
             then loop fuel rest (fold_left add_ip ips st)
             else loop fuel rest (add_ip st (Strings.TrimSpace t))
    end.
Proof.
  cbn [ParseTargets_loop]. unfold target_outcome.
  destruct (String.eqb (Strings.TrimSpace t) ""); [reflexivity|].
  destruct (Strings.Contains (Strings.TrimSpace t) "/").
  - destruct (Targets.parseCIDR _ _ _ _) as [[[]|ips]|]; reflexivity.
  - destruct (net_ParseIP _); reflexivity.
Qed.

Lemma loop_first_seen fuel targets : forall st,
  Forall (ok fuel) targets -> seen_ips st ->
  exists seen',
    loop fuel targets st
    = Some (inr (first_seen (fst st) (concat (map (ips_of fuel) targets)), seen')).
Proof.
  induction targets as [|t targets IH]; intros st Hv Hs.
  - destruct st as [ips seen]. exists seen. reflexivity.
  - inversion Hv as [|? ? (ips & Ht) Hrest]; subst.
    cbn [map concat]. rewrite first_seen_app, loop_cons.
    unfold ips_of_target at 1. rewrite Ht.
    unfold target_outcome in Ht.
    destruct (String.eqb (Strings.TrimSpace t) "").
    { inversion Ht; subst ips. apply IH; assumption. }
    destruct (Strings.Contains (Strings.TrimSpace t) "/").
    + destruct (fold_add_ip_first_seen ips st Hs) as (Hs' & Hf).
      destruct (IH _ Hrest Hs') as (seen' & ->). rewrite Hf. eauto.
    + destruct (net_ParseIP _); [|discriminate]. inversion Ht; subst ips.
      destruct (add_ip_first_seen st (Strings.TrimSpace t) Hs) as (Hs' & Hf).
      destruct (IH _ Hrest Hs') as (seen' & ->). rewrite Hf. eauto.
Qed.

Lemma loop_ok fuel targets : forall st st',
  loop fuel targets st = Some (inr st') -> Forall (ok fuel) targets.
Proof.
  induction targets as [|t targets IH]; intros st st' H; [constructor|].
  rewrite loop_cons in H. unfold target_ok.
  destruct (outcome_of fuel t) as [[err|ips]|] eqn:Ht; try discriminate.
  constructor; [eauto|].
  destruct (String.eqb _ ""); [eauto|].
  destruct (Strings.Contains _ "/"); eauto.
Qed.

Lemma loop_bad fuel pre t post : forall st,
  Forall (ok fuel) pre -> seen_ips st ->
  loop fuel (pre ++ t :: post) st
  = match outcome_of fuel t with
    | None => None
    | Some (inl err) => Some (inl err)
    | Some (inr ips) => loop fuel (pre ++ t :: post) st
    end.
Proof.
  induction pre as [|p pre IH]; intros st Hv Hs; simpl app.
  - rewrite loop_cons. destruct (outcome_of fuel t) as [[err|ips]|]; reflexivity.
  - inversion Hv as [|? ? (ips & Hp) Hrest]; subst.
    rewrite loop_cons, Hp.
    destruct (String.eqb _ ""); [apply IH; assumption|].
    destruct (Strings.Contains _ "/").
    + apply IH; [assumption|]. apply fold_add_ip_first_seen; assumption.
    + apply IH; [assumption|]. apply add_ip_first_seen; assumption.
Qed.

(** X20. A successful [ParseTargets] returns the addresses that its targets
    stand for, in the order of the targets, each address kept where it is
    first met: the list has no duplicates and is not empty. *)
Theorem ParseTargets_keeps_first_occurrences fuel targets ips :
  ParseTargets net_ParseCIDR net_ParseIP IP_String fuel targets = Some (inr ips) ->
  ips = first_seen [] (concat (map (ips_of fuel) targets))
  /\ NoDup ips /\ ips <> []
  /\ (forall ip, ip ∈ ips <-> exists t, t ∈ targets /\ ip ∈ ips_of fuel t).
Proof.
  unfold ParseTargets. intros H.
  destruct (loop fuel targets ([], ∅)) as [[err|[ips' seen']]|] eqn:Hl;
    try discriminate.
  pose proof (loop_ok _ _ _ _ Hl) as Hv.
  destruct (loop_first_seen fuel targets ([], ∅) Hv seen_ips_empty) as (seen2 & Hl2).
  rewrite Hl2 in Hl. inversion Hl; subst ips' seen'; clear Hl. cbn [fst] in *.
  destruct (first_seen_acc (concat (map (ips_of fuel) targets)) [] (NoDup_nil_2))
    as (Hnd & Hmem & _).
  destruct (first_seen [] _) as [|ip0 rest] eqn:Hfs; [discriminate|].
  simpl in H. inversion H; subst ips; clear H.
  split; [reflexivity|]. split; [assumption|]. split; [discriminate|].
  intros ip. rewrite Hmem, elem_of_nil. split.
  - intros [[]|Hin]. apply list_elem_of_In, in_concat in Hin as (l & Hl & Hp).
    apply in_map_iff in Hl as (t & <- & Ht).
    exists t. split; apply list_elem_of_In; assumption.
  - intros (t & Ht & Hp). right. apply list_elem_of_In, in_concat.
    exists (ips_of fuel t). split; [|apply list_elem_of_In; assumption].
    apply in_map_iff. exists t. split; [reflexivity|].
    apply list_elem_of_In; assumption.
Qed.

(** X21. [ParseTargets] stops at the first target that is not valid: it
    returns the error of that target, whatever comes after it, and it does
    not return when the expansion of that target does not. *)
Theorem ParseTargets_stops_at_the_first_bad_target fuel pre t post :
  Forall (ok fuel) pre ->
  (forall err, outcome_of fuel t = Some (inl err) ->
     ParseTargets net_ParseCIDR net_ParseIP IP_String fuel (pre ++ t :: post)
     = Some (inl err))
  /\ (outcome_of fuel t = None ->
      ParseTargets net_ParseCIDR net_ParseIP IP_String fuel (pre ++ t :: post)
      = None).
Proof.
  intros Hv. unfold ParseTargets.
  rewrite (loop_bad fuel pre t post _ Hv seen_ips_empty).
  split.
  - intros err ->. reflexivity.
  - intros ->. reflexivity.
Qed.

(** X22. A target that is an IPv4 range of prefix length 0, met before any
    invalid target, keeps [ParseTargets] from returning, and with it
    [scanner.New]: no number of iterations is enough. *)
Theorem ParseTargets_never_returns_on_prefix_zero fuel pre t post ip4 :
  Net.bytes 4 ip4 ->
  Strings.Contains (Strings.TrimSpace t) "/" = true ->
  net_ParseCIDR (Strings.TrimSpace t) = Net.ParseCIDR (Net.Addr4 ip4) 0 ->
  Forall (ok fuel) pre ->
  ParseTargets net_ParseCIDR net_ParseIP IP_String fuel (pre ++ t :: post) = None.
Proof.
  intros Hip Hc Hp Hv. unfold ParseTargets.
  rewrite (loop_bad fuel pre t post _ Hv seen_ips_empty).
  unfold target_outcome. rewrite Hc.
  destruct (String.eqb_spec (Strings.TrimSpace t) "") as [He|_].
  { rewrite He in Hc. discriminate. }
  unfold Targets.parseCIDR. rewrite Hp.
  rewrite (parseCIDR_v4_prefix_zero ip4 fuel Hip). reflexivity.
Qed.

End TargetLists.

Lemma ParseTargets_never_returns_on_prefix_zero_witness :
  Targets.ParseTargets Targets.book_ParseCIDR Targets.book_ParseIP
    Targets.book_String 1000 ["10.0.0.1"; "0.0.0.0/0"; "10.0.0.9"]
  = None.
Proof.
  apply (ParseTargets_never_returns_on_prefix_zero
           Targets.book_ParseCIDR Targets.book_ParseIP Targets.book_String
           1000 ["10.0.0.1"] "0.0.0.0/0" ["10.0.0.9"] [0; 0; 0; 0]).
  - split; [reflexivity|]. repeat constructor; lia.
  - reflexivity.
  - reflexivity.
  - repeat constructor. eexists. vm_compute. reflexivity.
Defined.

Lemma ParseTargets_keeps_first_occurrences_witness :
  NoDup ["10.0.0.9"; "10.0.0.1"; "10.0.0.2"].
Proof.
  apply (ParseTargets_keeps_first_occurrences
           Targets.book_ParseCIDR Targets.book_ParseIP Targets.book_String
           10 [" 10.0.0.9"; ""; "10.0.0.0/30"; "10.0.0.1"]
           ["10.0.0.9"; "10.0.0.1"; "10.0.0.2"]).
  vm_compute. reflexivity.
Defined.

Lemma ParseTargets_stops_at_the_first_bad_target_witness :
  Targets.ParseTargets Targets.book_ParseCIDR Targets.book_ParseIP
    Targets.book_String 10 ["10.0.0.1"; "10.0.0.300"; "10.0.0.0/33"]
  = Some (inl (Targets.ErrInvalidIP "10.0.0.300")).
Proof.
  apply (ParseTargets_stops_at_the_first_bad_target
           Targets.book_ParseCIDR Targets.book_ParseIP Targets.book_String
           10 ["10.0.0.1"] "10.0.0.300" ["10.0.0.0/33"]).
  - repeat constructor. eexists. vm_compute. reflexivity.
  - vm_compute. reflexivity.
Defined.


(** ** Cancellation and the shutdown of a scan *)

Section ScanShutdown.
Import Worker Scanner Tracking Cancellation.

Ltac session_split Hs :=
  unfold step, orch_step, orch_done_step, worker_step, worker_done_step,
    forward_step, progress_step, progress_done_step, lift, Result.Submit,
    Result.collect_step, Result.Close_channel, Result.Close_wait,
    Result.WriteResults, Result.doneChan_closed, chan_send, chan_recv, chan_close
    in Hs;
  repeat case_match; simplify_eq.

Ltac use_pcs s :=
  repeat match goal with
         | H : orch s = _ |- _ => rewrite H in *
         | H : progress s = _ |- _ => rewrite H in *
         | H : forwarder s = _ |- _ => rewrite H in *
         | H : Result.collect _ = _ |- _ => rewrite H in *
         | H : buf _ = _ |- _ => rewrite H in *
         end.

Lemma step_cancelled e l s s' :
  step e l s = Next s' -> cancelled s = true -> cancelled s' = true.
Proof.
  intros Hs Hc. destruct l; session_split Hs; simpl; auto.
Qed.

Lemma run_cancelled e sched : forall s s',
  run e sched s = Next s' -> cancelled s = true -> cancelled s' = true.
Proof.
  induction sched as [|l sched IH]; intros s s' Hrun Hc; simpl in Hrun.
  - congruence.
  - destruct (step e l s) as [s1| |] eqn:Hs; try discriminate.
    eapply IH; [eassumption|]. eapply step_cancelled; eassumption.
Qed.

Lemma step_will_report e cfg tg ps l s s' :
  session_inv e cfg tg ps s ->
  step e l s = Next s' -> will_report e s -> will_report e s'.
Proof.
  intros Hinv Hs (Hc & Hw).
  split; [eapply step_cancelled; eassumption|].
  pose proof (step_decided e cfg tg ps (Some Canceled) l s s' Hinv Hs) as Hd.
  pose proof (step_orch_other e l s s' Hs) as Hother.
  destruct (orch s) as [|[|t ts]|[|t [|t' ts]]|[|t [|t' ts]]| | | | | | |] eqn:Ho;
    try (specialize (Hd Hw);
         destruct (orch s') as [|[|? ?]|[|? [|? ?]]|[|? [|? ?]]| | | | | | |];
         solve [exact I | exact Hd]).
  all: destruct l;
    try (rewrite Hother by discriminate; exact I);
    session_split Hs; simpl; try exact I; try reflexivity; try congruence.
Qed.

Lemma run_will_report e cfg tg ps sched : forall s s',
  session_inv e cfg tg ps s ->
  run e sched s = Next s' -> will_report e s -> will_report e s'.
Proof.
  induction sched as [|l sched IH]; intros s s' Hinv Hrun Hw; simpl in Hrun.
  - congruence.
  - destruct (step e l s) as [s1| |] eqn:Hs; try discriminate.
    eapply IH; [| eassumption |].
    + eapply step_session_inv; eassumption.
    + eapply step_will_report; eassumption.
Qed.

(** No step loses an outcome that the collector holds: folding appends,
    and [WriteResults] permutes. *)
Lemma step_retains e l s s' :
  step e l s = Next s' ->
  GetResults s ++ Aggregator.in_flight (collector s)
  ⊆+ GetResults s' ++ Aggregator.in_flight (collector s').
Proof.
  intros Hs.
  destruct l; session_split Hs;
    unfold GetResults, Result.GetResults, Aggregator.in_flight; simpl in *;
    use_pcs s; simpl in *; try reflexivity.
  all: repeat match goal with
              | |- context [Result.collect ?c] => destruct (Result.collect c)
              end; simpl; rewrite ?sortSlice_perm; solve_submseteq.
Qed.

Lemma run_retains e sched : forall s s',
  run e sched s = Next s' ->
  GetResults s ++ Aggregator.in_flight (collector s)
  ⊆+ GetResults s' ++ Aggregator.in_flight (collector s').
Proof.
  induction sched as [|l sched IH]; intros s s' Hrun; simpl in Hrun.
  - inversion Hrun; reflexivity.
  - destruct (step e l s) as [s1| |] eqn:Hs; try discriminate.
    etransitivity; [eapply step_retains; eassumption|]. eapply IH; eassumption.
Qed.

Lemma step_drained e l s s' :
  step e l s = Next s' -> drained s -> drained s'.
Proof.
  intros Hs Hd.
  destruct l; session_split Hs; unfold drained in *; simpl in *;
    use_pcs s; simpl in *; try assumption; try discriminate; try tauto.
  intros Hdone. destruct (Hd Hdone) as (_ & Hcl). congruence.
Qed.

Lemma step_monitor_started e l s s' :
  step e l s = Next s' -> monitor_started s -> monitor_started s'.
Proof.
  intros Hs Hm.
  destruct l; session_split Hs; unfold monitor_started in *; simpl in *;
    use_pcs s; simpl in *; try assumption; try discriminate; try tauto;
    try congruence.
  all: destruct (orch s); try exact I; intuition discriminate.
Qed.

Lemma live_run e cfg tg ps sched : forall s s',
  run e sched s = Next s' ->
  session_inv e cfg tg ps s /\ channels_inv s /\ drained s /\ monitor_started s ->
  session_inv e cfg tg ps s' /\ channels_inv s' /\ drained s' /\ monitor_started s'.
Proof.
  induction sched as [|l sched IH]; intros s s' Hrun Hinv; simpl in Hrun.
  - congruence.
  - destruct (step e l s) as [s1| |] eqn:Hs; try discriminate.
    eapply IH; [eassumption|]. destruct Hinv as (H1 & H2 & H3 & H4).
    split; [eapply step_session_inv; eassumption|].
    split; [eapply step_channels_inv; eassumption|].
    split; [eapply step_drained; eassumption|].
    eapply step_monitor_started; eassumption.
Qed.

Lemma live_New e cfg tg ps now s0 :
  New cfg tg ps now = Next s0 ->
  session_inv e cfg tg ps s0 /\ channels_inv s0 /\ drained s0 /\ monitor_started s0.
Proof.
  intros HN.
  split; [eapply New_session_inv; eassumption|].
  split; [eapply New_channels_inv; eassumption|].
  revert HN. unfold New.
  destruct (New_rateLimiter (RateLimit cfg)); try discriminate.
  intros H; inversion H; subst s0. split; [discriminate | exact I].
Qed.

Lemma run_app e sched1 : forall sched2 s s1,
  run e sched1 s = Next s1 -> run e (sched1 ++ sched2) s = run e sched2 s1.
Proof.
  induction sched1 as [|l sched1 IH]; intros sched2 s s1 Hrun; simpl in *.
  - congruence.
  - destruct (step e l s) as [s'| |]; try discriminate. apply IH. assumption.
Qed.

(** Steps of the goroutine [collect], seen from the session. *)
Lemma run_collect_session e k : forall s c',
  Delivery.collect_steps k (collector s) = Next c' ->
  run e (replicate k LCollect) s = Next (set_collector s c').
Proof.
  induction k as [|k IH]; intros s c' Hk; simpl in *.
  - inversion Hk; subst. destruct s; reflexivity.
  - unfold lift. destruct (Result.collect_step (collector s)) as [c1| |];
      try discriminate.
    rewrite (IH (set_collector s c1) c' Hk). reflexivity.
Qed.


Lemma own_steps_collect k : forallb own_step (replicate k LCollect) = true.
Proof. induction k; simpl; auto. Qed.

(** With the context cancelled, [Scan] can always get one statement
    further, by steps of its own, of [collect] and of the monitor. *)
Lemma advance e cfg tg ps s :
  session_inv e cfg tg ps s /\ channels_inv s /\ drained s /\ monitor_started s ->
  cancelled s = true -> (stage (orch s) < 8)%nat ->
  exists sched s',
    forallb own_step sched = true
    /\ run e sched s = Next s'
    /\ (stage (orch s) < stage (orch s'))%nat.
Proof.
  intros (Hses & (Hc1 & Hc2 & Hc3) & Hdr & Hmon) Hc Hst.
  destruct Hses as (_ & _ & _ & _ & _ & Hfold & _).
  unfold monitor_started in Hmon.
  destruct (orch s) as [|ts|ts|ts|err|err|err|err|err|err|ret] eqn:Ho;
    simpl in Hc1, Hc2, Hc3, Hst.
  - exists [LOrch]. eexists. split; [reflexivity|]. simpl.
    unfold orch_step. rewrite Ho. split; [reflexivity|]. simpl. lia.
  - exists [LOrch]. destruct ts as [|t ts].
    + eexists. split; [reflexivity|]. simpl.
      unfold orch_step. rewrite Ho. split; [reflexivity|]. simpl. lia.
    + eexists. split; [reflexivity|]. simpl.
      unfold orch_step. rewrite Ho, Hc. split; [reflexivity|]. simpl. lia.
  - exists [LOrchDone]. eexists. split; [reflexivity|]. simpl.
    unfold orch_done_step. rewrite Hc, Ho. split; [reflexivity|]. simpl. lia.
  - exists [LOrchDone]. eexists. split; [reflexivity|]. simpl.
    unfold orch_done_step. rewrite Hc, Ho. split; [reflexivity|]. simpl. lia.
  - exists [LOrch]. eexists. split; [reflexivity|]. simpl.
    unfold orch_step, lift, chan_close. rewrite Ho, Hc1.
    split; [reflexivity|]. simpl. destruct (Verbose (config s)); simpl; lia.
  - destruct Hmon as (_ & Hp). destruct (progress s) eqn:Hpr.
    + contradiction.
    + exists [LProgressDone; LOrch]. eexists. split; [reflexivity|]. simpl.
      unfold progress_done_step. rewrite Hpr, Hc.
      unfold orch_step. simpl. rewrite Ho.
      split; [reflexivity|]. simpl. lia.
    + exists [LOrch]. eexists. split; [reflexivity|]. simpl.
      unfold orch_step. rewrite Ho, Hpr. split; [reflexivity|]. simpl. lia.
  - exists [LOrch]. eexists. split; [reflexivity|]. simpl.
    unfold orch_step, lift, chan_close. rewrite Ho, Hc2.
    split; [reflexivity|]. simpl. lia.
  - exists [LOrch]. eexists. split; [reflexivity|]. simpl.
    unfold orch_step, lift, Result.Close_channel, chan_close. rewrite Ho, Hc3.
    split; [reflexivity|]. simpl. lia.
  - destruct (collect_steps_drain (collector s) Hc3 (conj Hfold Hdr))
      as (c' & Hk & Hdone & _).
    exists (replicate (Delivery.drain_steps (collector s)) LCollect ++ [LOrch]).
    eexists. split; [|split].
    + rewrite forallb_app, own_steps_collect. reflexivity.
    + rewrite (run_app e _ [LOrch] s _ (run_collect_session e _ s c' Hk)).
      simpl. unfold orch_step. simpl. rewrite Ho.
      unfold lift, Result.Close_wait, Result.doneChan_closed. rewrite Hdone.
      reflexivity.
    + simpl. lia.
  - exists [LOrch]. simpl. unfold orch_step. rewrite Ho.
    destruct (Result.WriteResults (collector s) (writer_err e)) as [c [we|]];
      eexists; (split; [reflexivity|]); (split; [reflexivity|]); simpl; lia.
  - lia.
Qed.

(** With the context cancelled, [Scan] can always run to its return. *)
Lemma cancelled_Scan_returns e cfg tg ps (n : nat) : forall s,
  session_inv e cfg tg ps s /\ channels_inv s /\ drained s /\ monitor_started s ->
  cancelled s = true -> (8 - stage (orch s) <= n)%nat ->
  exists sched s' ret,
    forallb own_step sched = true
    /\ run e sched s = Next s'
    /\ orch s' = OReturned ret.
Proof.
  induction n as [|n IH]; intros s Hlive Hc Hn.
  - exists [], s. destruct (orch s) eqn:Ho; simpl in Hn; try lia.
    eexists. split; [reflexivity|]. split; reflexivity.
  - destruct (Nat.eq_dec (stage (orch s)) 8%nat) as [H8|H8].
    + exists [], s. destruct (orch s) eqn:Ho; simpl in H8; try discriminate.
      eexists. split; [reflexivity|]. split; reflexivity.
    + assert (Hlt : (stage (orch s) < 8)%nat).
      { destruct (orch s); simpl in *; lia. }
      destruct (advance e cfg tg ps s Hlive Hc Hlt)
        as (sched1 & s1 & Hown1 & Hrun1 & Hst1).
      destruct (IH s1) as (sched2 & s2 & ret & Hown2 & Hrun2 & Hret).
      * eapply live_run; eassumption.
      * eapply run_cancelled; eassumption.
      * lia.
      * exists (sched1 ++ sched2), s2, ret.
        split; [rewrite forallb_app, Hown1, Hown2; reflexivity|].
        split; [|assumption].
        rewrite (run_app e _ sched2 s s1 Hrun1). assumption.
Qed.

Lemma returned_nothing_in_flight e cfg tg ps s :
  session_inv e cfg tg ps s -> drained s -> is_returned (orch s) = true ->
  Aggregator.in_flight (collector s) = [].
Proof.
  intros (_ & _ & _ & _ & _ & _ & Hpast & _) Hdr Hret.
  assert (Hdone : Result.collect (collector s) = Result.CollectDone).
  { apply Hpast. destruct (orch s); try discriminate; reflexivity. }
  unfold Aggregator.in_flight. rewrite Hdone. apply (Hdr Hdone).
Qed.

(** C4, amended. The context is cancelled during a scan while
    [generateTasks] still has tasks to submit, and not in the one situation
    where only the last task is left and [generateTasks] is already past
    the check that precedes its submission (there Go's [select] may take
    the send, and [Scan] returns [nil]). Then, whatever number of tasks were
    submitted or completed: whenever [Scan] returns, it returns
    [context.Canceled], or the error of [WriteResults] when writing fails,
    and the process exits with code 130 exactly when it returns
    [context.Canceled]; every outcome that the collector held when the
    context was cancelled, folded or in its channel, is among the results
    after the return, each result is the outcome of a task of the scan, they
    are sorted and the summary counts them; and [Scan] can always run to its
    return, by steps of its own, of [collect] and of the monitor alone. *)
Theorem Scan_reports_cancellation_before_the_last_check
  e cfg tg ps now s0 sched1 s1 :
  New cfg tg ps now = Next s0 ->
  run e sched1 s0 = Next s1 ->
  pending_tasks (orch s1) <> [] ->
  past_last_check (orch s1) = false ->
  (forall sched2 s2 ret,
      run e (LCancel :: sched2) s1 = Next s2 ->
      orch s2 = OReturned ret ->
      ret = final_ret e (OutputFormat cfg) (Some Canceled)
      /\ (Result.write_status (OutputFormat cfg) (writer_err e) = None ->
          ret = Some Canceled /\ Main.exit_code ret = 130)
      /\ (Main.exit_code ret = 130 <-> ret = Some Canceled)
      /\ GetResults s1 ++ Aggregator.in_flight (collector s1) ⊆+ GetResults s2
      /\ Forall (from_task e (all_tasks tg ps)) (GetResults s2)
      /\ StronglySorted Result.key_le (GetResults s2)
      /\ (Z.of_nat (length (GetResults s2)) <= max_int ->
          Result.TotalScanned (GetSummary s2) = Z.of_nat (length (GetResults s2))
          /\ Result.counters (GetSummary s2) = Z.of_nat (length (GetResults s2))))
  /\ (exists sched2 s2 ret,
        forallb own_step sched2 = true
        /\ run e (LCancel :: sched2) s1 = Next s2
        /\ orch s2 = OReturned ret).
Proof.
  intros H0 H1 Hpend Hlast.
  pose proof (live_run e cfg tg ps _ _ _ H1 (live_New e cfg tg ps now s0 H0)) as L1.
  assert (Hs : step e LCancel s1 = Next (set_cancelled s1)) by reflexivity.
  assert (L1c : session_inv e cfg tg ps (set_cancelled s1)
                /\ channels_inv (set_cancelled s1)
                /\ drained (set_cancelled s1)
                /\ monitor_started (set_cancelled s1)).
  { apply (live_run e cfg tg ps [LCancel] s1); [reflexivity | exact L1]. }
  assert (Hw : will_report e (set_cancelled s1)).
  { split; [reflexivity|]. simpl.
    destruct (orch s1) as [|[|t ts]|[|t [|t' ts]]|[|t [|t' ts]]| | | | | | |];
      simpl in Hpend, Hlast; try exact I; try congruence. }
  split.
  - intros sched2 s2 ret H2 Hret. simpl in H2.
    pose proof (live_run e cfg tg ps _ _ _ H2 L1c) as (I2 & _ & Hdr2 & _).
    pose proof (run_will_report e cfg tg ps _ _ _ (proj1 L1c) H2 Hw) as (_ & Hd2).
    rewrite Hret in Hd2. unfold decided in Hd2. rewrite Hret in Hd2.
    pose proof (run_retains e (LCancel :: sched2) s1 s2 H2) as Hkeep.
    rewrite (returned_nothing_in_flight e cfg tg ps s2 I2 Hdr2), app_nil_r in Hkeep
      by (rewrite Hret; reflexivity).
    destruct I2 as (_ & _ & _ & Hfmt & (_ & _ & _ & _ & _ & _ & Pcol) & Hfold & _ & Hsorted).
    rewrite Hfmt in Hd2.
    split; [assumption|].
    split.
    { intros Hwr. unfold final_ret in Hd2. rewrite Hwr in Hd2. subst ret.
      split; reflexivity. }
    split.
    { destruct ret as [[|we]|]; simpl; split; intros H; try reflexivity;
        try discriminate. }
    split; [exact Hkeep|].
    split; [exact Pcol|].
    split; [apply Hsorted; rewrite Hret; reflexivity|].
    intros Hlen.
    destruct (folded_totals _ _ Hfold) as (Ht & Hbal); [| exact Hlen |].
    { eapply Forall_impl; [exact Pcol|]. intros r. apply from_task_known. }
    destruct Hbal as (_ & _ & _ & _ & Hsum).
    unfold GetSummary, GetResults, Result.GetSummary, Result.GetResults.
    rewrite Hsum, Ht. auto.
  - destruct (cancelled_Scan_returns e cfg tg ps _ (set_cancelled s1) L1c eq_refl
                (Nat.le_refl _))
      as (sched2 & s2 & ret & Hown & Hrun & Hret).
    exists sched2, s2, ret. split; [assumption|]. split; [|assumption].
    simpl. exact Hrun.
Qed.

Lemma Scan_reports_cancellation_before_the_last_check_witness :
  match Scenario.two_task_scan with
  | Next s0 =>
      match run Scenario.refusing_env Walkthrough.first_outcome_folded s0 with
      | Next s1 =>
          match run Scenario.refusing_env
                  (LCancel :: LOrch :: Scenario.shutdown_schedule) s1 with
          | Next s2 =>
              orch s2 = OReturned (Some Canceled)
              /\ Main.exit_code (Some Canceled) = 130
              /\ GetResults s1 ⊆+ GetResults s2
              /\ GetResults s2
                 = [scan_result (probes Scenario.refusing_env) (mkTask "10.0.0.2" 80)]
          | _ => False
          end
      | _ => False
      end
  | _ => False
  end.
Proof.
  destruct Scenario.two_task_scan as [s0| |] eqn:H0;
    try (vm_compute in H0; discriminate).
  destruct (run Scenario.refusing_env Walkthrough.first_outcome_folded s0)
    as [s1| |] eqn:H1;
    try (vm_compute in H0; inversion H0; subst; vm_compute in H1; discriminate).
  destruct (run Scenario.refusing_env
              (LCancel :: LOrch :: Scenario.shutdown_schedule) s1)
    as [s2| |] eqn:H2;
    try (vm_compute in H0; inversion H0; subst; vm_compute in H1; inversion H1; subst;
         vm_compute in H2; discriminate).
  assert (Hfacts : pending_tasks (orch s1) <> []
                   /\ past_last_check (orch s1) = false
                   /\ Aggregator.in_flight (collector s1) = []
                   /\ orch s2 = OReturned (Some Canceled)
                   /\ GetResults s2
                      = [scan_result (probes Scenario.refusing_env)
                           (mkTask "10.0.0.2" 80)]).
  { vm_compute in H0; inversion H0; subst. vm_compute in H1; inversion H1; subst.
    vm_compute in H2; inversion H2; subst.
    repeat split; try reflexivity. discriminate. }
  destruct Hfacts as (Hpend & Hlast & Hfl & Hret & Hres).
  destruct (Scan_reports_cancellation_before_the_last_check
              Scenario.refusing_env _ _ _ _ s0 _ s1 H0 H1 Hpend Hlast)
    as (Hall & _).
  destruct (Hall (LOrch :: Scenario.shutdown_schedule) s2 (Some Canceled) H2 Hret)
    as (_ & Hexit & _ & Hkeep & _).
  split; [exact Hret|].
  split; [apply Hexit; reflexivity|].
  split; [|exact Hres].
  rewrite Hfl, app_nil_r in Hkeep. exact Hkeep.
Defined.

End ScanShutdown.

(** ** The order of the results of a scan *)

Section ScanResults.
Import Worker Scanner Tracking Cancellation.

Ltac session_split Hs :=
  unfold step, orch_step, orch_done_step, worker_step, worker_done_step,
    forward_step, progress_step, progress_done_step, lift, Result.Submit,
    Result.collect_step, Result.Close_channel, Result.Close_wait,
    Result.WriteResults, Result.doneChan_closed, chan_send, chan_recv, chan_close
    in Hs;
  repeat case_match; simplify_eq.

(** What one step does to the results: [WriteResults] sorts them, a fold
    appends one outcome, and nothing else touches them. *)
Lemma step_results e l s s' :
  step e l s = Next s' ->
  match l, orch s with
  | LOrch, OWrite _ =>
      GetResults s' = Result.sortSlice (GetResults s)
      /\ is_returned (orch s') = true
  | _, _ =>
      GetResults s' = GetResults s
      \/ exists r, GetResults s' = GetResults s ++ [r]
  end.
Proof.
  intros Hs. unfold GetResults, Result.GetResults.
  destruct l; session_split Hs; simpl in *;
    repeat match goal with
           | H : orch s = _ |- _ => rewrite H in *
           end; simpl; eauto.
  all: destruct (orch s); eauto.
Qed.

(** Once [Scan] has returned, its results do not change any more. *)
Lemma step_returned e cfg tg ps l s s' :
  session_inv e cfg tg ps s -> step e l s = Next s' ->
  is_returned (orch s) = true ->
  GetResults s' = GetResults s /\ is_returned (orch s') = true.
Proof.
  intros (_ & _ & _ & _ & _ & _ & Hpast & _) Hs Hret.
  assert (Hdone : Result.collect (collector s) = Result.CollectDone).
  { apply Hpast. destruct (orch s); try discriminate; reflexivity. }
  unfold GetResults, Result.GetResults.
  destruct l; session_split Hs; simpl in *;
    repeat match goal with
           | H : orch s = _ |- _ => rewrite H in *
           end; simpl in *; try discriminate; try congruence; auto.
Qed.

Lemma run_returned e cfg tg ps sched : forall s s',
  session_inv e cfg tg ps s -> run e sched s = Next s' ->
  is_returned (orch s) = true ->
  GetResults s' = GetResults s /\ is_returned (orch s') = true.
Proof.
  induction sched as [|l sched IH]; intros s s' Hinv Hrun Hret; simpl in Hrun.
  - inversion Hrun; subst. auto.
  - destruct (step e l s) as [s1| |] eqn:Hs; try discriminate.
    destruct (step_returned e cfg tg ps l s s1 Hinv Hs Hret) as (Hr1 & Hret1).
    destruct (IH s1 s') as (Hr2 & Hret2); auto.
    + eapply step_session_inv; eassumption.
    + split; [congruence | assumption].
Qed.

(** C5. For every scan, the results retrieved once [Scan] has returned are
    the collected outcomes sorted by (IP, Port) ascending: they are sorted,
    and every outcome that the collector held at any earlier moment of the
    scan, folded or in its channel, is among them. The order is not
    maintained during collection: a fold appends the outcome at the end and
    no other step touches the results, up to the one call of [WriteResults]
    at the end of [Scan], which sorts them all at once and keeps each of
    them; after [Scan] has returned the results do not change any more. *)
Theorem results_sorted_once_by_WriteResults
  e cfg tg ps now s0 sched1 s1 sched2 s2 :
  New cfg tg ps now = Next s0 ->
  run e sched1 s0 = Next s1 ->
  run e sched2 s1 = Next s2 ->
  (is_returned (orch s2) = true ->
     StronglySorted Result.key_le (GetResults s2)
     /\ GetResults s1 ++ Aggregator.in_flight (collector s1) ⊆+ GetResults s2)
  /\ (forall l s',
        step e l s1 = Next s' ->
        match l, orch s1 with
        | LOrch, OWrite _ =>
            GetResults s' = Result.sortSlice (GetResults s1)
            /\ GetResults s' ≡ₚ GetResults s1
            /\ is_returned (orch s') = true
        | _, _ =>
            GetResults s' = GetResults s1
            \/ exists r, GetResults s' = GetResults s1 ++ [r]
        end)
  /\ (is_returned (orch s1) = true -> GetResults s2 = GetResults s1).
Proof.
  intros H0 H1 H2.
  pose proof (live_run e cfg tg ps _ _ _ H1 (live_New e cfg tg ps now s0 H0))
    as L1.
  pose proof (live_run e cfg tg ps _ _ _ H2 L1) as (I2 & _ & Hdr2 & _).
  split; [|split].
  - intros Hret. split.
    + destruct I2 as (_ & _ & _ & _ & _ & _ & _ & Hsorted). auto.
    + pose proof (run_retains e sched2 s1 s2 H2) as Hkeep.
      rewrite (returned_nothing_in_flight e cfg tg ps s2 I2 Hdr2 Hret), app_nil_r
        in Hkeep.
      exact Hkeep.
  - intros l s' Hs. pose proof (step_results e l s1 s' Hs) as Hshape.
    destruct l; try exact Hshape.
    destruct (orch s1); try exact Hshape.
    destruct Hshape as (Hsort & Hret). split; [exact Hsort|].
    split; [rewrite Hsort; apply sortSlice_perm | exact Hret].
  - intros Hret. apply (run_returned e cfg tg ps sched2 s1 s2 (proj1 L1) H2 Hret).
Qed.

Lemma results_sorted_once_by_WriteResults_witness :
  match Walkthrough.verbose_scan with
  | Next s0 =>
      match run Scenario.refusing_env Walkthrough.collection_schedule s0 with
      | Next s1 =>
          match run Scenario.refusing_env [LOrch] s1 with
          | Next s2 =>
              map Result.IP (GetResults s1) = ["10.0.0.2"; "10.0.0.1"]
              /\ map Result.IP (GetResults s2) = ["10.0.0.1"; "10.0.0.2"]
              /\ StronglySorted Result.key_le (GetResults s2)
          | _ => False
          end
      | _ => False
      end
  | _ => False
  end.
Proof.
  destruct Walkthrough.verbose_scan as [s0| |] eqn:H0;
    try (vm_compute in H0; discriminate).
  destruct (run Scenario.refusing_env Walkthrough.collection_schedule s0)
    as [s1| |] eqn:H1;
    try (vm_compute in H0; inversion H0; subst; vm_compute in H1; discriminate).
  destruct (run Scenario.refusing_env [LOrch] s1) as [s2| |] eqn:H2;
    try (vm_compute in H0; inversion H0; subst; vm_compute in H1; inversion H1; subst;
         vm_compute in H2; discriminate).
  assert (Hfacts : map Result.IP (GetResults s1) = ["10.0.0.2"; "10.0.0.1"]
                   /\ map Result.IP (GetResults s2) = ["10.0.0.1"; "10.0.0.2"]
                   /\ is_returned (orch s2) = true).
  { vm_compute in H0; inversion H0; subst. vm_compute in H1; inversion H1; subst.
    vm_compute in H2; inversion H2; subst. repeat split. }
  destruct Hfacts as (Ha & Hb & Hret).
  destruct (results_sorted_once_by_WriteResults _ _ _ _ _ _ _ _ _ _ H0 H1 H2)
    as (Hsorted & _).
  split; [exact Ha|]. split; [exact Hb|]. apply Hsorted. exact Hret.
Defined.

End ScanResults.
